(** * mullvad-viz: the relay ingestion pipeline and the city-coordinate updater

    A shallow embedding of [tools/fetch-relays.js] (coordinate resolver,
    record normalizer, orchestrator), of [tools/update-city-coords.js]
    (candidates, lookups, city selection and the update loop) and of
    [tools/add-city-coordinate.js].

    JavaScript values are embedded as JSON-shaped data.  Exceptions are
    explicit: every operation that can throw returns a [Res].  The module
    level tables of the source ([cityCoordsFromFile], [countriesMap] and the
    three literal tables) are passed around in a [Tables] record.  The file
    system is a finite map from paths to file contents.

    An object is its list of own properties.  A property read that finds
    no own property goes on to [Object.prototype], whose members
    ([constructor], [toString], [__proto__], ...) are values of their own:
    built-in objects, which JSON text cannot denote. *)

From Stdlib Require Import Floats.SpecFloat Strings.Ascii.
From stdpp Require Import base option list strings pretty gmap sorting.

Set Warnings "-register-all".
Open Scope string_scope.

(** ** Numbers

    A JavaScript number is an IEEE-754 binary64 value.  The pipeline never
    computes with numbers; it tests them ([typeof], truthiness) and passes
    them on. *)

Definition number : Type := spec_float.

Definition NaN : number := S754_nan.
Definition Infinity : number := S754_infinity false.

(** [+0], [-0] and [NaN] are the falsy numbers. *)
Definition num_falsy (n : number) : bool :=
  match n with
  | S754_zero _ | S754_nan => true
  | _ => false
  end.

(** [Number.isFinite]. *)
Definition num_finite (n : number) : bool :=
  match n with
  | S754_zero _ | S754_finite _ _ _ => true
  | _ => false
  end.

(** ** Values *)

Inductive JsVal : Type :=
  | VUndefined
  | VNull
  | VBool (b : bool)
  | VNum (n : number)
  | VStr (s : string)
  | VArr (xs : list JsVal)
  | VObj (props : list (string * JsVal))
  | VBuiltin (name : string).    (* the member [name] of [Object.prototype] *)

Inductive JsType : Type :=
  | TyUndefined | TyObject | TyBoolean | TyNumber | TyString | TyFunction.

Definition typeof (v : JsVal) : JsType :=
  match v with
  | VUndefined => TyUndefined
  | VNull | VArr _ | VObj _ => TyObject
  | VBool _ => TyBoolean
  | VNum _ => TyNumber
  | VStr _ => TyString
  (* [__proto__] reads as [Object.prototype] itself, the other members are
     functions *)
  | VBuiltin name =>
      if String.eqb name "__proto__" then TyObject else TyFunction
  end.

Definition is_number (v : JsVal) : bool :=
  match v with VNum _ => true | _ => false end.

Definition is_boolean (v : JsVal) : bool :=
  match v with VBool _ => true | _ => false end.

Definition is_string (v : JsVal) : bool :=
  match v with VStr _ => true | _ => false end.

(** [ToBoolean]. *)
Definition truthy (v : JsVal) : bool :=
  match v with
  | VUndefined | VNull => false
  | VBool b => b
  | VNum n => negb (num_falsy n)
  | VStr s => negb (String.eqb s EmptyString)
  | VArr _ | VObj _ | VBuiltin _ => true
  end.

(** ** Exceptions *)

Inductive Exn : Type :=
  | TypeError            (* property of null/undefined, call of a non-function *)
  | NetworkError         (* [fetch] rejected *)
  | HttpError            (* [!res.ok] *)
  | IOError              (* [writeFile] rejected *)
  | SyntaxError          (* the body is not JSON *)
  | UnexpectedResponse.  (* the body is not an array *)

Inductive Res (A : Type) : Type :=
  | Ok (a : A)
  | Threw (e : Exn).
Arguments Ok {A} a.
Arguments Threw {A} e.

Global Instance Res_ret : MRet Res := @Ok.
Global Instance Res_bind : MBind Res := λ A B f m,
  match m with
  | Ok a => f a
  | Threw e => Threw e
  end.
Global Instance Res_fmap : FMap Res := λ A B f m,
  match m with
  | Ok a => Ok (f a)
  | Threw e => Threw e
  end.

(** [a || b]: the right operand is evaluated only when the left one is
    falsy. *)
Definition orM (a b : Res JsVal) : Res JsVal :=
  x ← a; if truthy x then Ok x else b.
Infix "|||" := orM (at level 50, left associativity).

(** ** The runtime

    Library functions the source calls but does not define.  They are kept
    abstract: every theorem holds for any runtime. *)

Class Runtime : Type := {
  (* String.prototype.toLowerCase / toUpperCase *)
  toLowerCase : string → string;
  toUpperCase : string → string;
  (* Number::toString, used when a number becomes a property key or text *)
  Number_toString : number → string;
  (* Number(v) for a v that is not already a number *)
  ToNumber : JsVal → number;
  (* a property read on a boolean, number, string, or a non-index property
     of an array; a property of a built-in object *)
  primitive_get : JsVal → string → JsVal;
  (* Function.prototype.toString of the built-in function of a name *)
  Function_toString : string → string;
  (* JSON.parse; None when it throws *)
  JSON_parse : string → option JsVal;
  (* JSON.stringify(v, null, 2) *)
  JSON_stringify : JsVal → string;
}.

(** ** Property access *)

(** The first binding of [k] among the own properties. *)
Fixpoint own {A : Type} (props : list (string * A)) (k : string) : option A :=
  match props with
  | [] => None
  | (k', v) :: rest => if String.eqb k k' then Some v else own rest k
  end.

(** Removing a key from an object. *)
Definition without {A : Type} (k : string) (props : list (string * A))
  : list (string * A) :=
  filter (λ kv, kv.1 ≠ k) props.

Definition digit_of (c : ascii) : option nat :=
  let n := nat_of_ascii c in
  if bool_decide (48 ≤ n ≤ 57)%nat then Some (n - 48)%nat else None.

Fixpoint digits_value (acc : nat) (s : string) : option nat :=
  match s with
  | EmptyString => Some acc
  | String c s' => d ← digit_of c; digits_value (10 * acc + d)%nat s'
  end.

(** An array index is a canonical decimal numeral. *)
Definition array_index (k : string) : option nat :=
  match k with
  | EmptyString => None
  | String "0"%char EmptyString => Some 0%nat
  | String "0"%char _ => None
  | _ => digits_value 0%nat k
  end.

(** ** Inherited properties *)

(** The names of the members of [Object.prototype]. *)
Definition Object_prototype : list string :=
  [ "constructor"; "__defineGetter__"; "__defineSetter__"; "hasOwnProperty";
    "__lookupGetter__"; "__lookupSetter__"; "isPrototypeOf";
    "propertyIsEnumerable"; "toString"; "valueOf"; "__proto__";
    "toLocaleString" ].

Definition is_inherited (k : string) : bool :=
  existsb (String.eqb k) Object_prototype.

(** A key that names no member of [Object.prototype]. *)
Definition ordinary (k : string) : Prop := is_inherited k = false.

(** What a plain object gives for a key that is not an own property. *)
Definition inherited (k : string) : JsVal :=
  if is_inherited k then VBuiltin k else VUndefined.

(** No built-in object has a property named [lat] or [lon], or an index
    property. *)
Definition no_builtin_has (k : string) : bool :=
  String.eqb k "lat" || String.eqb k "lon"
  || match array_index k with Some _ => true | None => false end.

Section Model.
Context {R : Runtime}.

(** [v[k]] / [v.k] for a string key [k]. *)
Definition get (v : JsVal) (k : string) : Res JsVal :=
  match v with
  | VUndefined | VNull => Threw TypeError
  | VObj props => Ok (default (inherited k) (own props k))
  | VArr xs =>
      match array_index k with
      | Some i => Ok (nth i xs VUndefined)
      | None => Ok (primitive_get v k)
      end
  | VBuiltin _ =>
      if no_builtin_has k then Ok VUndefined else Ok (primitive_get v k)
  | _ => Ok (primitive_get v k)
  end.

(** [ToString].  An array is joined with commas, [null] and [undefined]
    elements giving the empty string.  A plain object gives
    ["[object Object]"], unless it shadows [toString] with a JSON value,
    which is not callable.  [Object.prototype] gives ["[object Object]"]
    too, a built-in function its text. *)
Fixpoint to_string (v : JsVal) : Res string :=
  match v with
  | VUndefined => Ok "undefined"
  | VNull => Ok "null"
  | VBool true => Ok "true"
  | VBool false => Ok "false"
  | VNum n => Ok (Number_toString n)
  | VStr s => Ok s
  | VArr xs =>
      let elem (x : JsVal) : Res string :=
        match x with
        | VUndefined | VNull => Ok EmptyString
        | _ => to_string x
        end in
      (fix join (l : list JsVal) : Res string :=
         match l with
         | [] => Ok EmptyString
         | [x] => elem x
         | x :: rest => s ← elem x; t ← join rest; Ok (s +:+ "," +:+ t)
         end) xs
  | VObj props =>
      match own props "toString" with
      | Some _ => Threw TypeError
      | None => Ok "[object Object]"
      end
  | VBuiltin name =>
      if String.eqb name "__proto__" then Ok "[object Object]"
      else Ok (Function_toString name)
  end.

(** [tbl[key]] with a computed key. *)
Definition get_computed (tbl key : JsVal) : Res JsVal :=
  k ← to_string key; get tbl k.

(** [v.toLowerCase()], [v.toUpperCase()]: only strings have these methods. *)
Definition call_toLowerCase (v : JsVal) : Res JsVal :=
  match v with
  | VStr s => Ok (VStr (toLowerCase s))
  | _ => Threw TypeError
  end.

Definition call_toUpperCase (v : JsVal) : Res JsVal :=
  match v with
  | VStr s => Ok (VStr (toUpperCase s))
  | _ => Threw TypeError
  end.

(** [v.toString()]. *)
Definition call_toString (v : JsVal) : Res string :=
  match v with
  | VUndefined | VNull => Threw TypeError
  | _ => to_string v
  end.

(** [Number(v)]: a number is itself, [undefined] gives [NaN]. *)
Definition Number (v : JsVal) : number :=
  match v with
  | VNum n => n
  | VUndefined => NaN
  | _ => ToNumber v
  end.


(** ** The literal tables of [fetch-relays.js] *)

Definition str_table (l : list (string * string)) : list (string * JsVal) :=
  (λ kv, (kv.1, VStr kv.2)) <$> l.

(** friendly fallback map for common city codes *)
Definition cityCodeToCityName_src : list (string * string) :=
  [ ("sea", "Seattle"); ("lax", "Los Angeles"); ("tor", "Toronto");
    ("van", "Vancouver"); ("sfo", "San Francisco"); ("tia", "Tirana");
    ("dal", "Dallas"); ("chi", "Chicago"); ("nyc", "New York");
    ("adl", "Adelaide"); ("mel", "Melbourne"); ("per", "Perth");
    ("syd", "Sydney"); ("yyc", "Calgary"); ("mtr", "Montreal");
    ("par", "Paris"); ("bru", "Brussels"); ("vie", "Vienna");
    ("sof", "Sofia"); ("hel", "Helsinki"); ("cph", "Copenhagen");
    ("lon", "London"); ("bos", "Boston"); ("was", "Washington DC");
    ("den", "Denver"); ("atl", "Atlanta"); ("phx", "Phoenix");
    ("scl", "Santiago") ].

(** basic fallback country names *)
Definition countryCodeToName_src : list (string * string) :=
  [ ("US", "United States"); ("GB", "United Kingdom"); ("AU", "Australia");
    ("DE", "Germany"); ("FR", "France"); ("NL", "Netherlands");
    ("BE", "Belgium"); ("CA", "Canada"); ("DK", "Denmark"); ("ES", "Spain");
    ("FI", "Finland"); ("SE", "Sweden"); ("GR", "Greece"); ("AT", "Austria");
    ("IE", "Ireland"); ("CH", "Switzerland"); ("PT", "Portugal");
    ("CY", "Cyprus"); ("EE", "Estonia"); ("RO", "Romania"); ("PL", "Poland");
    ("CZ", "Czechia"); ("NO", "Norway"); ("IT", "Italy"); ("JP", "Japan");
    ("CN", "China"); ("KR", "South Korea"); ("MX", "Mexico");
    ("BR", "Brazil"); ("CL", "Chile"); ("CO", "Colombia");
    ("ZA", "South Africa"); ("SG", "Singapore"); ("NZ", "New Zealand");
    ("IL", "Israel") ].

(** The binary64 value [m * 2^e], negated when [neg]. *)
Definition double (neg : bool) (m : positive) (e : Z) : number :=
  S754_finite neg m e.

(** [[lat, lon]] *)
Definition pair_value (c : number * number) : JsVal :=
  VArr [VNum c.1; VNum c.2].

Definition pair_table (l : list (string * (number * number)))
  : list (string * JsVal) :=
  (λ kv, (kv.1, pair_value kv.2)) <$> l.

Definition countryCentroids_src : list (string * (number * number)) :=
  [ ("United States",   (* 37.0902, -95.7129 *)
       (double false 5219981590596787 (-47), double true 6735196574602337 (-46)));
    ("United Kingdom",  (* 55.3781, -3.4360 *)
       (double false 7793774703890190 (-47), double true 7737184159822512 (-51)));
    ("Australia",       (* -25.2744, 133.7751 *)
       (double true 7114111151375804 (-48), double false 4706792894620710 (-45)));
    ("Germany",         (* 51.1657, 10.4515 *)
       (double false 7200932107942206 (-47), double false 5883671438182842 (-49)));
    ("France",          (* 46.2276, 2.2137 *)
       (double false 6505956316694761 (-47), double false 4984809247555033 (-51)));
    ("Netherlands",     (* 52.1400, 5.2913 *)
       (double false 7338052642846802 (-47), double false 5957474177076376 (-50)));
    ("Canada",          (* 56.1304, -106.3468 *)
       (double false 7899651516379903 (-47), double true 7483490763313198 (-46))) ].

(** The tables the resolver and the normalizer read.  The first two are
    loaded from files; the other three are literals of the source. *)
Record Tables : Type := {
  cityCoordsFromFile : JsVal;
  countriesMap : JsVal;
  cityCodeToCityName : JsVal;
  countryCodeToName : JsVal;
  countryCentroids : JsVal;
}.

(** The tables of a run of the source, given what was loaded from files. *)
Definition source_tables (coords countries : JsVal) : Tables :=
  {| cityCoordsFromFile := coords;
     countriesMap := countries;
     cityCodeToCityName := VObj (str_table cityCodeToCityName_src);
     countryCodeToName := VObj (str_table countryCodeToName_src);
     countryCentroids := VObj (pair_table countryCentroids_src) |}.

(** ** [/mullvad/i.test(s)]

    Without the [u] flag, case-insensitive matching relates an ASCII letter
    only to its other case, so the test is a substring search up to the case
    of ASCII letters. *)

Definition ascii_lower (c : ascii) : ascii :=
  let n := nat_of_ascii c in
  if bool_decide (65 ≤ n ≤ 90)%nat then ascii_of_nat (n + 32) else c.

Definition ascii_upper (c : ascii) : ascii :=
  let n := nat_of_ascii c in
  if bool_decide (97 ≤ n ≤ 122)%nat then ascii_of_nat (n - 32) else c.

Fixpoint ci_prefix (p s : string) : bool :=
  match p, s with
  | EmptyString, _ => true
  | String a p', String b s' =>
      Ascii.eqb (ascii_lower a) (ascii_lower b) && ci_prefix p' s'
  | String _ _, EmptyString => false
  end.

Fixpoint ci_search (p s : string) : bool :=
  ci_prefix p s ||
  match s with
  | EmptyString => false
  | String _ s' => ci_search p s'
  end.

Definition regex_mullvad_i_test (s : string) : bool := ci_search "mullvad" s.

(** ** Country names *)

Definition getCountryNameFromCode (T : Tables) (code : JsVal) : Res JsVal :=
  if negb (truthy code) then Ok (VStr "Unknown") else
  s ← to_string code;
  let c := toUpperCase s in
  v ← get (countriesMap T) c;
  if truthy v then Ok v else
  v' ← get (countryCodeToName T) c;
  if truthy v' then Ok v' else
  Ok (VStr "Unknown").

(** ** The coordinate resolver *)

(** [if (typeof v.lat === 'number' && typeof v.lon === 'number')
      return [v.lat, v.lon];] *)
Definition coords_of_entry (v : JsVal) : Res (option JsVal) :=
  lat ← get v "lat";
  if is_number lat then
    lon ← get v "lon";
    if is_number lon then Ok (Some (VArr [lat; lon])) else Ok None
  else Ok None.

(** [if (cityCoordsFromFile[key]) { const v = cityCoordsFromFile[key]; ... }],
    the block the resolver repeats for each of its keys. *)
Definition lookup_coords (T : Tables) (key : JsVal) : Res (option JsVal) :=
  v ← get_computed (cityCoordsFromFile T) key;
  if truthy v then coords_of_entry v else Ok None.

Definition resolveCoordinates (T : Tables) (countryCode cityCode cityName : JsVal)
  : Res JsVal :=
  (* 1) try city code lookup in file *)
  r1 ← (if truthy cityCode then lookup_coords T cityCode else Ok None);
  match r1 with
  | Some c => Ok c
  | None =>
  (* 2) try city name lowercase, then as it is *)
  r2 ← (if truthy cityName then
          key ← call_toLowerCase cityName;
          r ← lookup_coords T key;
          match r with
          | Some c => Ok (Some c)
          | None => lookup_coords T cityName
          end
        else Ok None);
  match r2 with
  | Some c => Ok c
  | None =>
  (* 3) try fallback map by friendly name *)
  r3 ← (if truthy cityCode then
          friendly ← get_computed (cityCodeToCityName T) cityCode;
          if truthy friendly then lookup_coords T friendly else Ok None
        else Ok None);
  match r3 with
  | Some c => Ok c
  | None =>
  (* 4) country centroid *)
  country ← getCountryNameFromCode T countryCode;
  if truthy country then
    centroid ← get_computed (countryCentroids T) country;
    if truthy centroid then Ok centroid else Ok VNull
  else Ok VNull
  end end end.

(** ** The record normalizer *)

(** [const t = (apiRelay.type || '').toString().toLowerCase();] *)
Definition type_tag (apiRelay : JsVal) : Res string :=
  ty ← get apiRelay "type" ||| Ok (VStr EmptyString);
  ts ← call_toString ty;
  Ok (toLowerCase ts).

(** The two [if]s that push onto [protocols]. *)
Definition protocols_of (t : string) : list JsVal :=
  let protocols : list JsVal := [] in
  let protocols :=
    if String.eqb t "wireguard" || String.eqb t "wg"
    then (protocols ++ [VStr "WireGuard"])%list else protocols in
  let protocols :=
    if String.eqb t "openvpn" || String.eqb t "ovpn"
    then (protocols ++ [VStr "OpenVPN"])%list else protocols in
  protocols.

(** [let ownership = 'Mullvad'; if (typeof apiRelay.owned === 'boolean') ...
    else ...]: both branches assign, so the initial value is never kept. *)
Definition ownership_of (apiRelay : JsVal) : Res JsVal :=
  owned ← get apiRelay "owned";
  match owned with
  | VBool b => Ok (VStr (if b then "Mullvad" else "Rented"))
  | _ =>
      (* fallback to provider heuristics *)
      provider ← get apiRelay "provider";
      if truthy provider then
        p ← to_string provider;
        if regex_mullvad_i_test p then Ok (VStr "Mullvad")
        else Ok (VStr "Rented")
      else Ok (VStr "Rented")
  end.

Definition mapApiRelayToCanonical (T : Tables) (apiRelay : JsVal) : Res JsVal :=
  hostname ← get apiRelay "hostname" ||| get apiRelay "fqdn"
             ||| Ok (VStr EmptyString);
  cc ← get apiRelay "country_code" ||| get apiRelay "country"
       ||| Ok (VStr EmptyString);
  countryCode ← call_toUpperCase cc;
  country ← get apiRelay "country_name"
            ||| getCountryNameFromCode T countryCode
            ||| Ok (VStr "Unknown");
  (* prefer API city_name, fall back to city_code friendly map *)
  cityName ← get apiRelay "city_name"
             ||| (code ← get apiRelay "city_code";
                  if truthy code
                  then get_computed (cityCodeToCityName T) code
                       ||| call_toUpperCase code
                  else Ok (VStr EmptyString));
  (* protocols *)
  t ← type_tag apiRelay;
  let protocols := protocols_of t in
  (* ownership *)
  ownership ← ownership_of apiRelay;
  (* coordinates: use supplemental lookups *)
  city_code ← get apiRelay "city_code";
  coords ← resolveCoordinates T countryCode city_code cityName;
  latlon ←
    (if truthy coords then
       c0 ← get coords "0";
       c1 ← get coords "1";
       Ok (VNum (Number c0), VNum (Number c1))
     else Ok (VNull, VNull));
  active ← get apiRelay "active";
  Ok (VObj
        [ ("id", hostname);
          ("country", country);
          ("countryCode", if truthy countryCode then countryCode else VStr "XX");
          ("city", if truthy cityName then cityName else VStr EmptyString);
          ("lat", latlon.1);
          ("lon", latlon.2);
          ("ownership", ownership);
          ("protocols", VArr protocols);
          ("active",
            if truthy apiRelay && is_boolean active then active else VBool true) ]).

(** The second pass of [ingest]: [sanitized.map(r => ({ ... }))]. *)
Definition finalize (T : Tables) (r : JsVal) : Res JsVal :=
  id ← get r "id";
  country ← get r "country"
            ||| (cc ← get r "countryCode"; getCountryNameFromCode T cc);
  countryCode ← get r "countryCode" ||| Ok (VStr "XX");
  city ← get r "city" ||| Ok (VStr EmptyString);
  lat ← get r "lat";
  lon ← get r "lon";
  ownership ← get r "ownership" ||| Ok (VStr "Mullvad");
  protocols ← get r "protocols";
  active ← get r "active";
  Ok (VObj
        [ ("id", id);
          ("country", country);
          ("countryCode", countryCode);
          ("city", city);
          ("lat", if is_number lat then lat else VNull);
          ("lon", if is_number lon then lon else VNull);
          ("ownership", ownership);
          ("protocols", match protocols with VArr _ => protocols | _ => VArr [] end);
          ("active", if is_boolean active then active else VBool true) ]).

(** One record through both passes. *)
Definition normalize (T : Tables) (apiRelay : JsVal) : Res JsVal :=
  r ← mapApiRelayToCanonical T apiRelay; finalize T r.


(** ** Files, console and process *)

Inductive Event : Type :=
  | Wrote (count : nat) (path : string)   (* console.log: wrote [count] entries *)
  | Failed (what : string) (e : Exn).     (* console.error / console.warn *)

Record World : Type := {
  files : gmap string string;
  console : list Event;
}.

Definition say (ev : Event) (w : World) : World :=
  {| files := files w; console := console w ++ [ev] |}.

(** How a run ends: [process.exit(code)], or the script runs to its end. *)
Inductive Exit : Type :=
  | Exited (code : nat)
  | Returned.

(** What [fetch(API_URL)] does in a run. *)
Inductive FetchOutcome : Type :=
  | FetchRejected                                   (* network error *)
  | Responded (ok : bool) (body : option JsVal).    (* [res.ok]; [res.json()], None when it throws *)

(** The surroundings of a run of [ingest]: the upstream answer, and the
    paths [writeFile] can write. *)
Record Env : Type := {
  upstream : FetchOutcome;
  writable : string → bool;
}.

(** [await writeFile(path, text, 'utf8')]. *)
Definition writeFile (env : Env) (path text : string) (w : World) : Res World :=
  if writable env path
  then Ok {| files := <[path := text]> (files w); console := console w |}
  else Threw IOError.

(** Paths, relative to the repository. *)
Definition DATA_DIR : string := "tools/data".
Definition RELAYS_PATH : string := "tools/data/relays.json".
Definition ROOT_RELAYS_PATH : string := "data/relays.json".
Definition CITY_COORDS_PATH : string := "tools/data/city-coordinates.json".
Definition COUNTRIES_PATH : string := "tools/data/countries.json".
Definition RAW_API_PATH : string := "tools/data/mullvad_api_raw.json".
Definition ROOT_RAW_API_PATH : string := "data/mullvad_api_raw.json".
Definition ROOT_CITY_COORDS_PATH : string := "data/city-coordinates.json".
Definition ROOT_COUNTRIES_PATH : string := "data/countries.json".

(** [JSON.parse(await readFile(path, 'utf8'))]; None when either throws. *)
Definition read_json (w : World) (path : string) : option JsVal :=
  files w !! path ≫= JSON_parse.

(** prefer tools/data, fall back to project data/ *)
Definition loadCityCoords (w : World) : JsVal :=
  match read_json w CITY_COORDS_PATH with
  | Some parsed => parsed
  | None =>
      match read_json w ROOT_CITY_COORDS_PATH with
      | Some parsed => parsed
      | None => VObj []
      end
  end.

(** [parsed && typeof parsed === 'object'] *)
Definition is_object (v : JsVal) : bool :=
  truthy v && match typeof v with TyObject => true | _ => false end.

Definition loadCountries (w : World) : JsVal :=
  match read_json w COUNTRIES_PATH with
  | Some parsed => if is_object parsed then parsed else VObj []
  | None =>
      match read_json w ROOT_COUNTRIES_PATH with
      | Some parsed => if is_object parsed then parsed else VObj []
      | None => VObj []
      end
  end.

Definition fetchRelaysFromApi (env : Env) : Res (list JsVal) :=
  match upstream env with
  | FetchRejected => Threw NetworkError
  | Responded false _ => Threw HttpError
  | Responded true None => Threw SyntaxError
  | Responded true (Some (VArr json)) => Ok json
  | Responded true (Some _) => Threw UnexpectedResponse
  end.

(** [try { await writeFile(...); console.log(...) } catch (e) { console.error(...) }] *)
Definition try_write (env : Env) (path text : string) (count : nat)
    (what : string) (w : World) : World :=
  match writeFile env path text w with
  | Ok w' => say (Wrote count path) w'
  | Threw e => say (Failed what e) w
  end.

(** ** The orchestrator

    [ensureDataDir] only creates a directory; directories are not part of
    [World]. *)
Definition ingest (env : Env) (w : World) : World * Exit :=
  let T := source_tables (loadCityCoords w) (loadCountries w) in
  match fetchRelaysFromApi env with
  | Threw e =>
      (say (Failed "Failed to fetch relays from Mullvad API:" e) w, Exited 1)
  | Ok apiRelays =>
      (* persist the full raw API response *)
      let raw := JSON_stringify (VArr apiRelays) in
      let w := try_write env RAW_API_PATH raw (length apiRelays)
                 "Failed to write raw API to tools data path:" w in
      let w := try_write env ROOT_RAW_API_PATH raw (length apiRelays)
                 "Failed to write raw API to root data path:" w in
      (* an exception below rejects [ingest()]; its [catch] handler exits *)
      match
        mapped ← mapM (mapApiRelayToCanonical T) apiRelays;
        let sanitized := List.filter truthy mapped in
        mapM (finalize T) sanitized
      with
      | Threw e => (say (Failed "Ingestion failed:" e) w, Exited 1)
      | Ok final =>
          let out := JSON_stringify (VArr final) in
          let w := try_write env RELAYS_PATH out (length final)
                     "Failed to write relays to tools data path:" w in
          let w := try_write env ROOT_RELAYS_PATH out (length final)
                     "Failed to write relays to root data path:" w in
          (w, Returned)
      end
  end.

End Model.

(** ** The update loop of [update-city-coords.js] *)

Module UpdateCityCoords.
Section Updater.
Context {R : Runtime}.

Definition CITY_COORDS_PATH : string := "data/city-coordinates.json".

Definition newline : string := String (ascii_of_nat 10) EmptyString.

(** [obj[k] = v] for an object [v]: an existing property keeps its place,
    a new one goes last.  The key [__proto__], when it is not an own
    property, is the setter of [Object.prototype]: the assignment replaces
    the prototype of [obj] and adds no property.  The prototype of the
    table is not part of the state: the updater reads the table through
    [hasOwnProperty] and [JSON.stringify] only, which see own properties. *)
Fixpoint assign (props : list (string * JsVal)) (k : string) (v : JsVal)
  : list (string * JsVal) :=
  match props with
  | [] => if String.eqb k "__proto__" then [] else [(k, v)]
  | (k', v') :: rest =>
      if String.eqb k k' then (k', v) :: rest else (k', v') :: assign rest k v
  end.

(** [Object.prototype.hasOwnProperty.call(obj, k)] *)
Definition hasOwnProperty (props : list (string * JsVal)) (k : string) : bool :=
  match own props k with Some _ => true | None => false end.

Definition DEBUG_LOG_PATH : string := "lat-long-debug.txt".

(** The surroundings of a run: what [findCoordsForCity] answers to the
    [i]-th query (the geocoding service with its candidates and retries);
    the entries [logDebug] appends to the debug log during the [i]-th round,
    each a timestamp and a line (the query, what the lookup reports, its
    result, a failed save); and the paths [writeFile] and [appendFile] can
    write. *)
Record Env : Type := {
  findCoordsForCity : nat → string → option (number * number);
  debug_entries : nat → string → string;
  writable : string → bool;
}.

(** [logDebug]: [appendFile(DEBUG_LOG_PATH, entry, 'utf8')], best effort.
    The file is created when it is missing. *)
Definition logDebug (env : Env) (entries : string) (fs : gmap string string)
  : gmap string string :=
  if writable env DEBUG_LOG_PATH
  then <[DEBUG_LOG_PATH :=
           default EmptyString (fs !! DEBUG_LOG_PATH) +:+ entries]> fs
  else fs.

(** [{ lat: Number(result.lat), lon: Number(result.lon) }] *)
Definition entry (result : number * number) : JsVal :=
  VObj [("lat", VNum (Number (VNum result.1)));
        ("lon", VNum (Number (VNum result.2)))].

(** The [if (result) { ... }] block of the loop body. *)
Definition record_result (cityCoords : list (string * JsVal)) (city : string)
    (result : option (number * number)) : list (string * JsVal) :=
  match result with
  | Some r =>
      let exactKey := city in
      let lowerKey := toLowerCase city in
      let cityCoords := assign cityCoords exactKey (entry r) in
      if hasOwnProperty cityCoords lowerKey then cityCoords
      else assign cityCoords lowerKey (entry r)
  | None => cityCoords
  end.

(** [await writeFile(pathname, JSON.stringify(obj, null, 2) + '\n', 'utf8')] *)
Definition saveJson (env : Env) (pathname : string) (obj : JsVal)
    (fs : gmap string string) : Res (gmap string string) :=
  if writable env pathname
  then Ok (<[pathname := JSON_stringify obj +:+ newline]> fs)
  else Threw IOError.

(** [for (let i = 0; i < citiesToProcess.length; i++) { ... }], started at
    index [i] with the cities still to process, on a table that is a plain
    object.  The state is the table in memory and the files.  The entries
    of a round go to the debug log in several appends, which give the file
    one append of them all gives; console lines and the waiting between
    requests are left out. *)
Fixpoint process_cities (env : Env) (i : nat) (citiesToProcess : list string)
    (cityCoords : list (string * JsVal)) (fs : gmap string string)
  : list (string * JsVal) * gmap string string :=
  match citiesToProcess with
  | [] => (cityCoords, fs)
  | city :: rest =>
      let result := findCoordsForCity env i city in
      let cityCoords := record_result cityCoords city result in
      let fs := logDebug env (debug_entries env i city) fs in
      (* persist after each attempt; a failure is reported and the loop
         goes on *)
      let fs :=
        match saveJson env CITY_COORDS_PATH (VObj cityCoords) fs with
        | Ok fs' => fs'
        | Threw _ => fs
        end in
      process_cities env (S i) rest cityCoords fs
  end.

End Updater.
End UpdateCityCoords.

(** ** A runtime to run the model on examples

    Case mapping acts on ASCII letters, which is what the real functions do
    on ASCII text.  The other members are stand-ins: numbers and JSON text
    are rendered in a compact way of their own, no file parses, and
    primitives and built-in objects have no properties.  The examples below
    use ASCII text and do not depend on the stand-ins. *)

Fixpoint map_ascii (f : ascii → ascii) (s : string) : string :=
  match s with
  | EmptyString => EmptyString
  | String c s' => String (f c) (map_ascii f s')
  end.

Definition show_number (n : number) : string :=
  match n with
  | S754_zero _ => "0"
  | S754_infinity false => "Infinity"
  | S754_infinity true => "-Infinity"
  | S754_nan => "NaN"
  | S754_finite neg m e =>
      (if neg then "-" else EmptyString) +:+ pretty m +:+ "p" +:+ pretty e
  end.

Definition quote : string := String (ascii_of_nat 34) EmptyString.

Fixpoint show_json (v : JsVal) : string :=
  match v with
  | VUndefined => "undefined"
  | VNull => "null"
  | VBool true => "true"
  | VBool false => "false"
  | VNum n => show_number n
  | VStr s => quote +:+ s +:+ quote
  | VArr xs =>
      "[" +:+
      (fix items (l : list JsVal) : string :=
         match l with
         | [] => EmptyString
         | x :: rest => show_json x +:+ "," +:+ items rest
         end) xs +:+ "]"
  | VObj props =>
      "{" +:+
      (fix members (l : list (string * JsVal)) : string :=
         match l with
         | [] => EmptyString
         | (k, x) :: rest => quote +:+ k +:+ quote +:+ ":" +:+ show_json x +:+ "," +:+ members rest
         end) props +:+ "}"
  | VBuiltin _ => "undefined"
  end.

Definition example_runtime : Runtime :=
  {| toLowerCase := map_ascii ascii_lower;
     toUpperCase := map_ascii ascii_upper;
     Number_toString := show_number;
     ToNumber := λ _, NaN;
     primitive_get := λ _ _, VUndefined;
     Function_toString := λ name, "function " +:+ name +:+ "() { [native code] }";
     JSON_parse := λ _, None;
     JSON_stringify := show_json |}.

(** ** The resolution order in the words of the specification

    [resolve(countryCode, cityCode, cityName)] over any city-coordinate
    table, and name tables from strings to strings.  An argument or a name
    is known when it is a non-empty string. *)

Inductive Resolution : Type :=
  | Coordinate (lat lon : number)
  | Unresolved.

Definition Resolution_value (r : Resolution) : JsVal :=
  match r with
  | Coordinate lat lon => pair_value (lat, lon)
  | Unresolved => VNull
  end.

Definition known (s : option string) : option string :=
  s ≫= λ x, if String.eqb x EmptyString then None else Some x.

Definition opt_list {A : Type} (o : option A) : list A :=
  match o with Some a => [a] | None => [] end.

Section Specification.
Context {R : Runtime}.

(** An entry matches when it carries two numeric fields: the pair an entry
    yields when [lat] and [lon] both have type number. *)
Definition entry_numbers (v : JsVal) : option (number * number) :=
  if truthy v then
    match get v "lat", get v "lon" with
    | Ok (VNum lat), Ok (VNum lon) => Some (lat, lon)
    | _, _ => None
    end
  else None.

(** The first key, in order, whose entry matches. *)
Fixpoint first_match (table : list (string * JsVal)) (keys : list string)
  : option (number * number) :=
  match keys with
  | [] => None
  | k :: rest =>
      match own table k ≫= entry_numbers with
      | Some c => Some c
      | None => first_match table rest
      end
  end.

(** Steps 1 to 4: the keys tried in the city-coordinate table. *)
Definition candidate_keys (cityCodes : list (string * string))
    (cityCode cityName : option string) : list string :=
  (* 1. the city code *)
  opt_list (known cityCode)
  (* 2. the lowercased city name, 3. the city name *)
  ++ match known cityName with
     | Some name => [toLowerCase name; name]
     | None => []
     end
  (* 4. the friendly name of the city code *)
  ++ opt_list (code ← known cityCode; known (own cityCodes code)).

(** The text of a member of [Object.prototype], as [to_string] gives it. *)
Definition builtin_text (name : string) : string :=
  if String.eqb name "__proto__" then "[object Object]"
  else Function_toString name.

(** The keys the resolver tries in the city-coordinate table, whatever the
    city code: a city code that names a member of [Object.prototype] and
    has no friendly name of its own gets that member for a friendly name,
    and the text of the member is the last key tried. *)
Definition tried_keys (cityCodes : list (string * string))
    (cityCode cityName : option string) : list string :=
  opt_list (known cityCode)
  ++ match known cityName with
     | Some name => [toLowerCase name; name]
     | None => []
     end
  ++ opt_list (code ← known cityCode;
               match own cityCodes code with
               | Some name => known (Some name)
               | None =>
                   if is_inherited code then Some (builtin_text code)
                   else None
               end).

(** The country display name: the loaded table, then the built-in table,
    then ["Unknown"]. *)
Definition display_name (countries builtin : list (string * string))
    (countryCode : option string) : string :=
  match known countryCode with
  | None => "Unknown"
  | Some code =>
      let c := toUpperCase code in
      match known (own countries c) with
      | Some name => name
      | None => default "Unknown" (known (own builtin c))
      end
  end.

Definition resolution_order
    (table : list (string * JsVal))
    (countries cityCodes builtin : list (string * string))
    (centroids : list (string * (number * number)))
    (countryCode cityCode cityName : option string) : Resolution :=
  match first_match table (candidate_keys cityCodes cityCode cityName) with
  | Some (lat, lon) => Coordinate lat lon
  | None =>
      (* 5. the country centroid *)
      match own centroids (display_name countries builtin countryCode) with
      | Some (lat, lon) => Coordinate lat lon
      | None => Unresolved     (* 6. *)
      end
  end.

(** What the centroid step returns for a country name: its centroid; else
    the member of [Object.prototype] of that name, if there is one; else
    [null]. *)
Definition centroid_of (centroids : list (string * (number * number)))
    (name : string) : JsVal :=
  match own centroids name with
  | Some (lat, lon) => pair_value (lat, lon)
  | None => if is_inherited name then VBuiltin name else VNull
  end.

(** Typed tables and arguments as the values the code receives. *)
Definition typed_tables
    (table : list (string * JsVal))
    (countries cityCodes builtin : list (string * string))
    (centroids : list (string * (number * number))) : Tables :=
  {| cityCoordsFromFile := VObj table;
     countriesMap := VObj (str_table countries);
     cityCodeToCityName := VObj (str_table cityCodes);
     countryCodeToName := VObj (str_table builtin);
     countryCentroids := VObj (pair_table centroids) |}.

Definition arg (s : option string) : JsVal :=
  match s with Some x => VStr x | None => VUndefined end.

(** ** Malformed table entries *)

(** [lat] or [lon] is not a number. *)
Definition not_numeric (v : JsVal) : bool :=
  match entry_numbers v with Some _ => false | None => true end.

(** [lat] or [lon] is not a finite number. *)
Definition not_finite (v : JsVal) : bool :=
  match entry_numbers v with
  | Some (lat, lon) => negb (num_finite lat && num_finite lon)
  | None => true
  end.

(** The tables of the source with the city-coordinate table replaced. *)
Definition with_coords (T : Tables) (coords : list (string * JsVal)) : Tables :=
  {| cityCoordsFromFile := VObj coords;
     countriesMap := countriesMap T;
     cityCodeToCityName := cityCodeToCityName T;
     countryCodeToName := countryCodeToName T;
     countryCentroids := countryCentroids T |}.

End Specification.

(** ** Statements about malformed entries *)

Section EntryStatements.
Context {R : Runtime}.

(** Resolution ignores every entry under key [k] that [malformed] rejects:
    the result is the one obtained with the key removed from the table. *)
Definition skips_entries (malformed : JsVal → bool) (T : Tables)
    (coords : list (string * JsVal)) (k : string)
    (countryCode cityCode cityName : JsVal) : Prop :=
  ∀ v, own coords k = Some v → malformed v = true →
    resolveCoordinates (with_coords T coords) countryCode cityCode cityName
    = resolveCoordinates (with_coords T (without k coords))
        countryCode cityCode cityName.

End EntryStatements.

(** Numbers used in examples. *)
Definition five : number := double false 5629499534213120 (-50).
Definition twelve : number := double false 6755399441055744 (-49).

(** ** Where coordinates come from *)

Section Provenance.
Context {R : Runtime}.

(** [(lat, lon)] is the pair of an entry of the city-coordinate table, or
    of the centroid table of the source. *)
Definition genuine_entry (coords : list (string * JsVal)) (lat lon : number)
  : Prop :=
  (∃ k v, own coords k = Some v ∧ entry_numbers v = Some (lat, lon))
  ∨ (∃ name, own countryCentroids_src name = Some (lat, lon)).

End Provenance.

(** ** Schemas *)

(** The fields the upstream schema types as strings. *)
Definition string_fields : list string :=
  [ "hostname"; "fqdn"; "country_code"; "country"; "country_name";
    "city_name"; "city_code"; "type"; "provider" ].

(** A raw record whose string fields, where present, hold a string or
    [null]; the other fields are free. *)
Definition raw_schema_ok (apiRelay : JsVal) : bool :=
  match apiRelay with
  | VObj props =>
      forallb
        (λ f, match own props f with
              | None | Some VNull | Some (VStr _) => true
              | Some _ => false
              end)
        string_fields
  | _ => false
  end.

(** The canonical schema: every field present and of its type. *)
Definition canonical_schema_ok (relay : JsVal) : bool :=
  match relay with
  | VObj props =>
      let field f := default VUndefined (own props f) in
      is_string (field "id")
      && is_string (field "country")
      && is_string (field "countryCode")
      && is_string (field "city")
      && match field "lat", field "lon" with
         | VNum _, VNum _ | VNull, VNull => true
         | _, _ => false
         end
      && match field "ownership" with
         | VStr o => String.eqb o "Mullvad" || String.eqb o "Rented"
         | _ => false
         end
      && match field "protocols" with
         | VArr ps =>
             forallb
               (λ p, match p with
                     | VStr s => String.eqb s "WireGuard" || String.eqb s "OpenVPN"
                     | _ => false
                     end) ps
         | _ => false
         end
      && is_boolean (field "active")
  | _ => false
  end.

(** The text of a field, empty when the field is absent. *)
Definition text (props : list (string * JsVal)) (f : string) : string :=
  match own props f with
  | Some (VStr s) => s
  | _ => EmptyString
  end.

(** [a] if it is not empty, else [b]. *)
Definition or_text (a b : string) : string :=
  if String.eqb a EmptyString then b else a.

Section FieldMapping.
Context {R : Runtime}.

(** The key under which a record's country is looked up in the country
    tables: the country code, uppercased by the mapper and once more by
    [getCountryNameFromCode]. *)
Definition country_key (props : list (string * JsVal)) : string :=
  toUpperCase
    (toUpperCase
       (or_text (text props "country_code") (text props "country"))).

(** The field mapping rules with their fallbacks, on a schema-typed record,
    for the tables of the source. *)
Definition field_mapping (table : list (string * JsVal))
    (countries : list (string * string)) (props : list (string * JsVal))
  : JsVal :=
  let code :=
    toUpperCase (or_text (text props "country_code") (text props "country")) in
  let city_code := text props "city_code" in
  let city :=
    or_text (text props "city_name")
      (if String.eqb city_code EmptyString then EmptyString
       else or_text (default EmptyString (own cityCodeToCityName_src city_code))
                    (toUpperCase city_code)) in
  let coords :=
    resolution_order table countries cityCodeToCityName_src
      countryCodeToName_src countryCentroids_src
      (Some code) (Some city_code) (Some city) in
  VObj
    [ ("id", VStr (or_text (text props "hostname") (text props "fqdn")));
      ("country",
        VStr (or_text (text props "country_name")
                (display_name countries countryCodeToName_src (Some code))));
      ("countryCode", VStr (or_text code "XX"));
      ("city", VStr city);
      ("lat", match coords with Coordinate lat _ => VNum lat | Unresolved => VNull end);
      ("lon", match coords with Coordinate _ lon => VNum lon | Unresolved => VNull end);
      ("ownership",
        VStr match own props "owned" with
             | Some (VBool true) => "Mullvad"
             | Some (VBool false) => "Rented"
             | _ => if regex_mullvad_i_test (text props "provider")
                    then "Mullvad" else "Rented"
             end);
      ("protocols", VArr (protocols_of (toLowerCase (text props "type"))));
      ("active",
        VBool match own props "active" with
              | Some (VBool b) => b
              | _ => true
              end) ].

(** Every record yields a relay of the canonical schema. *)
Definition always_canonical (T : Tables) : Prop :=
  ∀ props, ∃ relay,
    normalize T (VObj props) = Ok relay ∧ canonical_schema_ok relay = true.

End FieldMapping.

(** The record of the specification's first scenario, and the relay it is
    to give when the city-coordinate table is empty. *)
Definition gb_lon_wg_001 : JsVal :=
  VObj [ ("hostname", VStr "gb-lon-wg-001"); ("country_code", VStr "gb");
         ("type", VStr "wireguard"); ("owned", VBool true) ].

Definition gb_lon_wg_001_relay : JsVal :=
  VObj [ ("id", VStr "gb-lon-wg-001"); ("country", VStr "United Kingdom");
         ("countryCode", VStr "GB"); ("city", VStr EmptyString);
         ("lat", VNum (double false 7793774703890190 (-47)));   (* 55.3781 *)
         ("lon", VNum (double true 7737184159822512 (-51)));    (* -3.436 *)
         ("ownership", VStr "Mullvad");
         ("protocols", VArr [VStr "WireGuard"]); ("active", VBool true) ].

(** A country table that names Sweden "constructor", a Swedish record, and
    the relay the record gives with that table. *)
Definition se_countries : JsVal := VObj [("SE", VStr "constructor")].

Definition se_record : JsVal := VObj [("country_code", VStr "se")].

Definition se_relay : JsVal :=
  VObj [ ("id", VStr EmptyString); ("country", VStr "constructor");
         ("countryCode", VStr "SE"); ("city", VStr EmptyString);
         ("lat", VNum NaN); ("lon", VNum NaN); ("ownership", VStr "Rented");
         ("protocols", VArr []); ("active", VBool true) ].

(** A record whose type is in mixed case, and its relay. *)
Definition mixed_case_record : JsVal := VObj [("type", VStr "WireGuard")].

Definition mixed_case_relay : JsVal :=
  VObj [ ("id", VStr EmptyString); ("country", VStr "Unknown");
         ("countryCode", VStr "XX"); ("city", VStr EmptyString);
         ("lat", VNull); ("lon", VNull); ("ownership", VStr "Rented");
         ("protocols", VArr [VStr "WireGuard"]); ("active", VBool true) ].

(** The relay of the empty record. *)
Definition empty_record_relay : JsVal :=
  VObj [ ("id", VStr EmptyString); ("country", VStr "Unknown");
         ("countryCode", VStr "XX"); ("city", VStr EmptyString);
         ("lat", VNull); ("lon", VNull); ("ownership", VStr "Rented");
         ("protocols", VArr []); ("active", VBool true) ].

(** ** Statements about runs of the orchestrator *)

(** The upstream fetch fails: network error, non-success status, a body
    that is not JSON, or JSON that is not an array. *)
Definition fetch_fails (o : FetchOutcome) : bool :=
  match o with
  | FetchRejected => true
  | Responded false _ => true
  | Responded true None => true
  | Responded true (Some (VArr _)) => false
  | Responded true (Some _) => true
  end.

(** The files the lookup tables are loaded from, and the canonical output
    files. *)
Definition table_paths : list string :=
  [ CITY_COORDS_PATH; ROOT_CITY_COORDS_PATH; COUNTRIES_PATH; ROOT_COUNTRIES_PATH ].

Definition output_paths : list string := [ RELAYS_PATH; ROOT_RELAYS_PATH ].

Section RunStatements.
Context {R : Runtime}.

(** The records that normalize, in order. *)
Definition survivors (T : Tables) (apiRelays : list JsVal) : list JsVal :=
  omap (λ r, match normalize T r with Ok relay => Some relay | Threw _ => None end)
       apiRelays.

(** A run whose fetch succeeded completes, and writes the records that
    normalize to every canonical output path it can write. *)
Definition drops_failing_records (env : Env) (w : World) : Prop :=
  ∀ apiRelays,
    fetchRelaysFromApi env = Ok apiRelays →
    let T := source_tables (loadCityCoords w) (loadCountries w) in
    (ingest env w).2 = Returned
    ∧ ∀ p, p ∈ output_paths → writable env p = true →
        files (ingest env w).1 !! p
        = Some (JSON_stringify (VArr (survivors T apiRelays))).

End RunStatements.

(** A world with no files, and surroundings where every write succeeds. *)
Definition empty_world : World := {| files := ∅; console := [] |}.

Definition answering (body : JsVal) : Env :=
  {| upstream := Responded true (Some body); writable := λ _, true |}.

(** A world that holds an earlier canonical output, and surroundings where
    the upstream cannot be reached. *)
Definition stale_world : World :=
  {| files := {[ ROOT_RELAYS_PATH := "[]" ]}; console := [] |}.

Definition unreachable : Env :=
  {| upstream := FetchRejected; writable := λ _, true |}.

(** A geocoding service that knows one place; a round logs the city. *)
Definition one_place (result : number * number) : UpdateCityCoords.Env :=
  {| UpdateCityCoords.findCoordsForCity := λ _ _, Some result;
     UpdateCityCoords.debug_entries :=
       λ _ city, city +:+ UpdateCityCoords.newline;
     UpdateCityCoords.writable := λ _, true |}.

(** ** Statements about the files of a run and about names *)

(** The files a run of [ingest] writes. *)
Definition written_paths : list string :=
  [ RAW_API_PATH; ROOT_RAW_API_PATH; RELAYS_PATH; ROOT_RELAYS_PATH ].

(** The raw cache files. *)
Definition raw_paths : list string := [ RAW_API_PATH; ROOT_RAW_API_PATH ].

(** The country codes whose built-in name has a built-in centroid. *)
Definition centroid_codes : list string :=
  [ "US"; "GB"; "AU"; "DE"; "FR"; "NL"; "CA" ].

(** [s] contains [p], up to the case of ASCII letters. *)
Definition contains_ci (p s : string) : Prop :=
  ∃ pre mid post,
    s = pre +:+ mid +:+ post
    ∧ map_ascii ascii_lower mid = map_ascii ascii_lower p.

(** ** [tools/add-city-coordinate.js]

    The script that adds the entry of Tirana to the city-coordinate table.
    It is an ES module, so its code is strict. *)

Module AddCityCoordinate.
Section AddCity.
Context {R : Runtime}.

Definition CITY_COORDS_PATH : string := "data/city-coordinates.json".

(** [{ lat: 41.32795, lon: -19.81902 }] *)
Definition tia : number * number :=
  (double false 5816391881874578 (-47), double true 5578558192928025 (-48)).

Definition tia_entry : JsVal :=
  VObj [("lat", VNum tia.1); ("lon", VNum tia.2)].

(** [coords['tia'] = { ... }].  On [null] the assignment throws, and in
    strict code it throws on a boolean, a number and a string as well.  On
    an array it sets a named property, which is no part of the array's JSON
    text, the only thing the script does with the value afterwards.
    [JSON.parse] gives no built-in object; were [coords] one, the
    assignment would succeed, and the text of a function, which is
    [undefined], would make the write throw. *)
Definition set_tia (coords : JsVal) : Res JsVal :=
  match coords with
  | VObj props => Ok (VObj (UpdateCityCoords.assign props "tia" tia_entry))
  | VArr xs => Ok (VArr xs)
  | VBuiltin name =>
      match typeof coords with
      | TyObject => Ok coords
      | _ => Threw TypeError
      end
  | _ => Threw TypeError
  end.

(** The body of the [try] block, up to the text to write. *)
Definition updated_text (fs : gmap string string) : Res string :=
  match fs !! CITY_COORDS_PATH with
  | None => Threw IOError
  | Some contents =>
      match JSON_parse contents with
      | None => Threw SyntaxError
      | Some coords => coords ← set_tia coords; Ok (JSON_stringify coords)
      end
  end.

(** [main]: the files after the run, and what the console is told: the
    success line ([Ok]) or the error caught. *)
Definition main (writable : string → bool) (fs : gmap string string)
  : gmap string string * Res unit :=
  match
    text ← updated_text fs;
    if writable CITY_COORDS_PATH
    then Ok (<[CITY_COORDS_PATH := text]> fs)
    else Threw IOError
  with
  | Ok fs' => (fs', Ok ())
  | Threw e => (fs, Threw e)
  end.

End AddCity.
End AddCityCoordinate.

(** ** Text functions of the runtime

    More library functions, used by [update-city-coords.js]. *)

Class TextRuntime : Type := {
  (* String.prototype.trim *)
  String_trim : string → string;
  (* parseFloat, on the text of its argument *)
  parseFloat : string → number;
  (* /^[A-Za-z]{2}\s+[A-Za-z]{2}$/.test *)
  two_words_test : string → bool;
  (* Array.prototype.sort with the default order, on an array of strings *)
  Array_sort : list string → list string;
  Array_sort_permutation : ∀ l, Array_sort l ≡ₚ l;
}.

(** ** Candidates, lookups and city selection of [update-city-coords.js]

    City names are well-formed text: [encodeURIComponent] does not throw on
    them. *)

Module CityLookup.

(** [/^[A-Za-z]{2}$/.test(s)] *)
Definition is_letter (c : ascii) : bool :=
  let n := nat_of_ascii c in
  bool_decide (65 ≤ n ≤ 90)%nat || bool_decide (97 ≤ n ≤ 122)%nat.

Definition two_letters_test (s : string) : bool :=
  match s with
  | String a (String b EmptyString) => is_letter a && is_letter b
  | _ => false
  end.

(** [s.split(',')] *)
Fixpoint split_comma (s : string) : list string :=
  match s with
  | EmptyString => [EmptyString]
  | String c s' =>
      if Ascii.eqb c ","%char then EmptyString :: split_comma s'
      else match split_comma s' with
           | [] => [String c EmptyString]
           | p :: ps => String c p :: ps
           end
  end.

(** [s.includes(',')] *)
Fixpoint includes_comma (s : string) : bool :=
  match s with
  | EmptyString => false
  | String c s' => Ascii.eqb c ","%char || includes_comma s'
  end.

(** [Boolean(s)] for a string. *)
Definition nonempty (s : string) : bool := negb (String.eqb s EmptyString).

(** A [Set] of strings in insertion order: [set.add(x)]. *)
Definition set_add (x : string) (set : list string) : list string :=
  if bool_decide (x ∈ set) then set else (set ++ [x])%list.

(** The request of one lookup: [?city=...] or [?q=...]. *)
Inductive Query : Type :=
  | ByCity (city : string)
  | ByText (q : string).

(** [{ lat, lon, display_name, candidate }] *)
Record Place : Type := {
  lat : number;
  lon : number;
  display_name : JsVal;
  candidate : string;
}.

(** The command line: [singleCity] is [None] for [null]. *)
Record Args : Type := {
  singleCity : option string;
  force : bool;
  all : bool;
}.

(** What the selection step of [main] gives. *)
Inductive Selection : Type :=
  | InvalidCity                              (* [process.exit(1)] *)
  | Cities (citiesToProcess : list string).

(** The table in memory: [main] replaces whatever is not an object by
    [{}], and JSON has two kinds of objects. *)
Inductive Table : Type :=
  | PlainObject (props : list (string * JsVal))
  | ArrayObject (xs : list JsVal).

Definition table_of (cityCoords : JsVal) : Table :=
  match cityCoords with
  | VObj props => PlainObject props
  | VArr xs => ArrayObject xs
  | _ => PlainObject []
  end.

(** [Object.prototype.hasOwnProperty.call(cityCoords, k)]: the own
    properties of an array are its indices and [length]. *)
Definition has_own (cityCoords : Table) (k : string) : bool :=
  match cityCoords with
  | PlainObject props => UpdateCityCoords.hasOwnProperty props k
  | ArrayObject xs =>
      match array_index k with
      | Some i => bool_decide (i < length xs)%nat
      | None => String.eqb k "length"
      end
  end.

(** How [main] goes on after its first part: it exits, or it enters the
    loop with the cities to process and the table. *)
Inductive Plan : Type :=
  | Exits (code : nat)
  | Processes (citiesToProcess : list string) (cityCoords : Table).

Definition RELAYS_PATH : string := "data/relays.json".

(** The options of the command line. *)
Definition options : list string :=
  [ "--city"; "-c"; "--force"; "-f"; "--all"; "-a" ].

Section Lookup.
Context {R : Runtime} {X : TextRuntime}.

(** ensure uniqueness and preserve order *)
Fixpoint uniq (seen : gset string) (candidates : list string) : list string :=
  match candidates with
  | [] => []
  | c :: rest =>
      if bool_decide (toLowerCase c ∈ seen) then uniq seen rest
      else c :: uniq ({[ toLowerCase c ]} ∪ seen) rest
  end.

(** The candidates before [uniq], for the trimmed city [s]. *)
Definition candidates_of (s : string) : list string :=
  (* push original *)
  let candidates := [s] in
  (* split on comma *)
  let parts := List.filter nonempty (String_trim <$> split_comma s) in
  match parts with
  | first :: second :: _ =>
      (* push just the first part (city name only) *)
      let candidates := (candidates ++ [first])%list in
      if two_letters_test second then
        (candidates ++ [first +:+ ", United States"])%list
      else if two_words_test second then
        (candidates ++ [first])%list
      else
        (candidates ++ [first +:+ ", " +:+ second])%list
  | _ => candidates
  end.

(** [buildCandidates], called on a string. *)
Definition buildCandidates (rawCity : string) : list string :=
  let s := String_trim rawCity in
  if String.eqb s EmptyString then [] else uniq ∅ (candidates_of s).

(** [queryNominatimCandidate]: [fetch] is what the service does with the
    request.  Every failure gives [None] for [null]. *)
Definition queryNominatimCandidate (fetch : Query → FetchOutcome)
    (candidate : string) : option Place :=
  let isSimpleCity := negb (includes_comma candidate) in
  let url := if isSimpleCity then ByCity candidate else ByText candidate in
  match fetch url with
  | FetchRejected => None
  | Responded false _ => None
  | Responded true None => None
  | Responded true (Some (VArr (entry :: _))) =>
      match
        la ← get entry "lat";
        la ← to_string la;
        let lat := parseFloat la in
        lo ← get entry "lon";
        lo ← to_string lo;
        let lon := parseFloat lo in
        if negb (num_finite lat) || negb (num_finite lon) then Ok None else
        d ← get entry "display_name";
        Ok (Some {| lat := lat; lon := lon;
                    display_name := if truthy d then d else VNull;
                    candidate := candidate |})
      with
      | Ok result => result
      | Threw _ => None
      end
  | Responded true (Some _) => None
  end.

(** [for (const candidate of candidates) { ... }]: each candidate is tried,
    and tried once more when that fails.  [fetch n] is what the service
    does with the [n]-th request; the result comes with the number of
    requests made so far. *)
Fixpoint try_candidates (fetch : nat → Query → FetchOutcome) (n : nat)
    (candidates : list string) : option Place * nat :=
  match candidates with
  | [] => (None, n)
  | candidate :: rest =>
      match queryNominatimCandidate (fetch n) candidate with
      | Some result => (Some result, S n)
      | None =>
          match queryNominatimCandidate (fetch (S n)) candidate with
          | Some retry => (Some retry, S (S n))
          | None => try_candidates fetch (S (S n)) rest
          end
      end
  end.

Definition findCoordsForCity (fetch : nat → Query → FetchOutcome)
    (city : string) : option Place * nat :=
  try_candidates fetch 0 (buildCandidates city).

(** [(r.city || '').toString().trim()] *)
Definition city_of (r : JsVal) : Res string :=
  c ← get r "city" ||| Ok (VStr EmptyString);
  s ← call_toString c;
  Ok (String_trim s).

(** The loop of [gatherCityNamesFromRelays]. *)
Fixpoint gather (set : list string) (relays : list JsVal) : Res (list string) :=
  match relays with
  | [] => Ok set
  | r :: rest =>
      if negb (truthy r) then gather set rest else
      city ← city_of r;
      if nonempty city then gather (set_add city set) rest
      else gather set rest
  end.

Definition gatherCityNamesFromRelays (relays : list JsVal) : Res (list string) :=
  set ← gather [] relays; Ok (Array_sort set).

(** [city] is the non-empty trimmed city text of a truthy relay. *)
Definition names_city (relays : list JsVal) (city : string) : Prop :=
  city ≠ EmptyString
  ∧ ∃ r, r ∈ relays ∧ truthy r = true ∧ city_of r = Ok city.

Definition normalizeKey (key : JsVal) : string :=
  match key with
  | VStr s => if truthy key then String_trim s else EmptyString
  | _ => EmptyString
  end.

(** [argv[idx + 1] || ''] for the first [--city] or [-c], [None] without
    one. *)
Fixpoint city_argument (argv : list string) : option string :=
  match argv with
  | [] => None
  | a :: rest =>
      if String.eqb a "--city" || String.eqb a "-c"
      then Some (hd EmptyString rest)
      else city_argument rest
  end.

Definition includes (argv : list string) (a : string) : bool :=
  bool_decide (a ∈ argv).

Definition parse_args (argv : list string) : Args :=
  {| singleCity := city_argument argv;
     force := includes argv "--force" || includes argv "-f";
     all := includes argv "--all" || includes argv "-a" |}.

(** The selection step of [main]. *)
Definition select (args : Args) (relays : list JsVal) (cityCoords : Table)
  : Res Selection :=
  let scan : Res Selection :=
    cityNames ← gatherCityNamesFromRelays relays;
    if all args then Ok (Cities cityNames) else
    (* select cities that are missing from cityCoords (case-insensitive) *)
    Ok (Cities
          (List.filter
             (λ city,
                let exactKey := city in
                let lowerKey := toLowerCase city in
                let existsExact := has_own cityCoords exactKey in
                let existsLower := has_own cityCoords lowerKey in
                (negb existsExact && negb existsLower) || force args)
             cityNames)) in
  match singleCity args with
  | Some c =>
      if nonempty c then
        let k := normalizeKey (VStr c) in
        if nonempty k then Ok (Cities [k]) else Ok InvalidCity
      else scan
  | None => scan
  end.

(** [loadJson]: [null] when the file cannot be read or parsed. *)
Definition loadJson (fs : gmap string string) (pathname : string) : JsVal :=
  default VNull (fs !! pathname ≫= JSON_parse).

(** [main] up to the loop.  An exception rejects [main()], whose [catch]
    handler exits with code 1. *)
Definition plan (argv : list string) (fs : gmap string string) : Plan :=
  let args := parse_args argv in
  match loadJson fs RELAYS_PATH with
  | VArr (r :: rest) =>
      let cityCoords :=
        table_of (loadJson fs UpdateCityCoords.CITY_COORDS_PATH) in
      match select args (r :: rest) cityCoords with
      | Threw _ => Exits 1
      | Ok InvalidCity => Exits 1
      | Ok (Cities []) => Exits 0
      | Ok (Cities citiesToProcess) => Processes citiesToProcess cityCoords
      end
  | _ => Exits 1
  end.

(** The lookups of a run of the loop, as the loop sees them: [services i]
    is the service during the lookup of the [i]-th city, [debug i city] the
    entries the round appends to the debug log. *)
Definition lookups (services : nat → nat → Query → FetchOutcome)
    (debug : nat → string → string) (writable : string → bool)
  : UpdateCityCoords.Env :=
  {| UpdateCityCoords.findCoordsForCity := λ i city,
       (λ result, (lat result, lon result))
         <$> (findCoordsForCity (services i) city).1;
     UpdateCityCoords.debug_entries := debug;
     UpdateCityCoords.writable := writable |}.

End Lookup.
End CityLookup.

(** ** Text functions to run the model on examples

    [trim] removes spaces, the sort is by code units, [parseFloat] knows
    two numerals. *)

Fixpoint trim_start (s : string) : string :=
  match s with
  | String c s' => if Ascii.eqb c " "%char then trim_start s' else s
  | EmptyString => EmptyString
  end.

Fixpoint trim_end (s : string) : string :=
  match s with
  | EmptyString => EmptyString
  | String c s' =>
      match trim_end s' with
      | EmptyString =>
          if Ascii.eqb c " "%char then EmptyString else String c EmptyString
      | t => String c t
      end
  end.

Definition example_text : TextRuntime :=
  {| String_trim := λ s, trim_end (trim_start s);
     parseFloat := λ s,
       if String.eqb s "5" then five
       else if String.eqb s "12" then twelve else NaN;
     two_words_test := λ _, false;
     Array_sort := merge_sort String.le;
     Array_sort_permutation := merge_sort_Permutation String.le |}.

(** The example runtime with a parser: it reads back the rendering of
    each of the [known] values, and nothing else. *)
Definition reading (known : list JsVal) : Runtime :=
  {| toLowerCase := map_ascii ascii_lower;
     toUpperCase := map_ascii ascii_upper;
     Number_toString := show_number;
     ToNumber := λ _, NaN;
     primitive_get := λ _ _, VUndefined;
     Function_toString := λ name, "function " +:+ name +:+ "() { [native code] }";
     JSON_parse := λ s, List.find (λ v, String.eqb (show_json v) s) known;
     JSON_stringify := show_json |}.

(** A world with one file, the rendering of a value. *)
Definition world_of (path : string) (v : JsVal) : World :=
  {| files := {[ path := show_json v ]}; console := [] |}.

(** Relays of one city, a record with a city code, and a record with a
    provider only together with its relay. *)
Definition oslo_relays : JsVal := VArr [VObj [("city", VStr "Oslo")]].

Definition lon_record : JsVal := VObj [("city_code", VStr "lon")].

Definition provider_record : list (string * JsVal) :=
  [("provider", VStr "Mullvad VPN AB")].

Definition provider_relay : JsVal :=
  VObj [ ("id", VStr EmptyString); ("country", VStr "Unknown");
         ("countryCode", VStr "XX"); ("city", VStr EmptyString);
         ("lat", VNull); ("lon", VNull); ("ownership", VStr "Mullvad");
         ("protocols", VArr []); ("active", VBool true) ].

(** A geocoding service with one answer to every request. *)
Definition answers (lat lon : string) : nat → CityLookup.Query → FetchOutcome :=
  λ _ _, Responded true
           (Some (VArr [VObj [("lat", VStr lat); ("lon", VStr lon)]])).

(** * Properties *)

(** ** The exception monad *)

Lemma bind_Ok_inv {A B : Type} (m : Res A) (f : A → Res B) (b : B) :
  m ≫= f = Ok b → ∃ a, m = Ok a ∧ f a = Ok b.
Proof. destruct m as [a|e]; simpl; [eauto | discriminate]. Qed.

Lemma bind_Ok {A B : Type} (a : A) (f : A → Res B) : Ok a ≫= f = f a.
Proof. reflexivity. Qed.

Lemma bind_Threw {A B : Type} (e : Exn) (f : A → Res B) : Threw e ≫= f = Threw e.
Proof. reflexivity. Qed.

Lemma bind_ext {A B : Type} (m m' : Res A) (f f' : A → Res B) :
  m = m' → (∀ a, f a = f' a) → m ≫= f = m' ≫= f'.
Proof. intros <- Hf. destruct m; simpl; [apply Hf | done]. Qed.

Lemma orM_Ok (x : JsVal) (b : Res JsVal) :
  Ok x ||| b = if truthy x then Ok x else b.
Proof. reflexivity. Qed.

Lemma orM_Ok_inv (a b : Res JsVal) (r : JsVal) :
  a ||| b = Ok r →
  ∃ x, a = Ok x ∧ (truthy x = true ∧ r = x ∨ truthy x = false ∧ b = Ok r).
Proof.
  destruct a as [x|e]; [|discriminate]. rewrite orM_Ok.
  destruct (truthy x) eqn:Hx; intros H; exists x; split; auto.
  left. split; congruence.
Qed.

(** A chain that ends in a truthy default yields a truthy value. *)
Lemma orM_default_truthy (a : Res JsVal) (d r : JsVal) :
  truthy d = true → a ||| Ok d = Ok r → truthy r = true.
Proof.
  intros Hd H. destruct (orM_Ok_inv _ _ _ H) as (x & _ & [[Hx ->]|[_ Hr]]); [done|].
  congruence.
Qed.

(** ** Own properties *)

Lemma own_fmap {A B : Type} (f : A → B) (l : list (string * A)) (k : string) :
  own ((λ kv, (kv.1, f kv.2)) <$> l) k = f <$> own l k.
Proof.
  induction l as [|[k' a] l IH]; simpl; [done|].
  destruct (String.eqb k k'); [done | apply IH].
Qed.

Lemma own_without_eq {A : Type} (l : list (string * A)) (k : string) :
  own (without k l) k = None.
Proof.
  induction l as [|[k' a] l IH]; [done|].
  unfold without in *. rewrite filter_cons. simpl.
  destruct (decide (k' ≠ k)) as [Hne|Heq]; [|done].
  simpl. destruct (String.eqb_spec k k'); [congruence | done].
Qed.

Lemma own_without_ne {A : Type} (l : list (string * A)) (k k' : string) :
  k ≠ k' → own (without k l) k' = own l k'.
Proof.
  intros Hne. induction l as [|[k0 a] l IH]; [done|].
  unfold without in *. rewrite filter_cons. simpl.
  destruct (decide (k0 ≠ k)) as [H0|H0]; simpl.
  - destruct (String.eqb k' k0); [done | apply IH].
  - apply dec_stable in H0. subst k0.
    destruct (String.eqb_spec k' k); [congruence | apply IH].
Qed.

Lemma known_Some (o : option string) (s : string) :
  known o = Some s ↔ o = Some s ∧ s ≠ EmptyString.
Proof.
  unfold known. destruct o as [x|]; simpl.
  - destruct (String.eqb_spec x EmptyString) as [->|Hx]; split.
    + discriminate.
    + intros [[= <-] Hs]. done.
    + intros [= <-]. done.
    + intros [[= <-] _]. done.
  - split; [discriminate | intros [[=] _]].
Qed.

Lemma known_nonempty (o : option string) (s : string) :
  known o = Some s → String.eqb s EmptyString = false.
Proof.
  intros [_ H]%known_Some. by destruct (String.eqb_spec s EmptyString).
Qed.

Lemma truthy_arg (o : option string) :
  truthy (arg o) = match known o with Some _ => true | None => false end.
Proof.
  destruct o as [x|]; [|done]. unfold known. simpl.
  by destruct (String.eqb x EmptyString).
Qed.

Lemma arg_known (o : option string) (s : string) :
  known o = Some s → arg o = VStr s.
Proof. intros [-> _]%known_Some. done. Qed.

Section Resolver.
Context {R : Runtime}.

(** ** The resolver on typed tables *)

Lemma coords_of_entry_numbers (v : JsVal) :
  truthy v = true → coords_of_entry v = Ok (pair_value <$> entry_numbers v).
Proof.
  intros Hv. unfold coords_of_entry, entry_numbers. rewrite Hv.
  destruct (get v "lat") as [lat|e] eqn:Hlat.
  - destruct (get v "lon") as [lon|e] eqn:Hlon.
    + cbn [mbind Res_bind]. destruct lat; cbn [is_number]; try done.
      cbn [mbind Res_bind]. destruct lon; done.
    + destruct v; discriminate.
  - destruct v; discriminate.
Qed.

(** A key that is not an own property of the table gives no match, be it
    inherited or not: an inherited member has no [lat]. *)
Lemma lookup_inherited (k : string) :
  (if truthy (inherited k) then coords_of_entry (inherited k) else Ok None)
  = Ok None.
Proof. unfold inherited. by destruct (is_inherited k). Qed.

Lemma lookup_coords_typed table countries cityCodes builtin centroids k :
  lookup_coords (typed_tables table countries cityCodes builtin centroids) (VStr k)
  = Ok (pair_value <$> (own table k ≫= entry_numbers)).
Proof.
  unfold lookup_coords, get_computed.
  cbn [to_string mbind Res_bind typed_tables cityCoordsFromFile get].
  destruct (own table k) as [v|]; cbn [default from_option id mbind option_bind];
    [|apply lookup_inherited].
  destruct (truthy v) eqn:Hv; [by apply coords_of_entry_numbers|].
  unfold entry_numbers. by rewrite Hv.
Qed.

(** On an ordinary key a plain object is the map of its own properties. *)
Lemma get_ordinary (props : list (string * JsVal)) (k : string) :
  ordinary k → get (VObj props) k = Ok (default VUndefined (own props k)).
Proof.
  intros Hk. cbn [get]. unfold inherited. by rewrite Hk.
Qed.

Lemma friendly_typed table countries cityCodes builtin centroids code :
  ordinary code →
  get_computed
    (cityCodeToCityName (typed_tables table countries cityCodes builtin centroids))
    (VStr code)
  = Ok (default VUndefined (VStr <$> own cityCodes code)).
Proof.
  intros Hcode. unfold get_computed.
  cbn [to_string typed_tables cityCodeToCityName]. rewrite bind_Ok.
  rewrite get_ordinary by done. unfold str_table. by rewrite own_fmap.
Qed.

Lemma truthy_name (o : option string) :
  truthy (default VUndefined (VStr <$> o))
  = match known o with Some _ => true | None => false end.
Proof.
  destruct o as [x|]; [|done]. unfold known. simpl.
  by destruct (String.eqb x EmptyString).
Qed.

Lemma display_name_nonempty countries builtin countryCode :
  String.eqb (display_name countries builtin countryCode) EmptyString = false.
Proof.
  unfold display_name.
  destruct (known countryCode) as [code|]; [|done].
  destruct (known (own countries _)) as [n|] eqn:Hn.
  { eapply known_nonempty, Hn. }
  destruct (known (own builtin _)) as [n|] eqn:Hb; [|done].
  simpl. eapply known_nonempty, Hb.
Qed.

Lemma getCountryNameFromCode_typed table countries cityCodes builtin centroids countryCode :
  (∀ code, known countryCode = Some code → ordinary (toUpperCase code)) →
  getCountryNameFromCode
    (typed_tables table countries cityCodes builtin centroids) (arg countryCode)
  = Ok (VStr (display_name countries builtin countryCode)).
Proof.
  intros Hupper.
  unfold getCountryNameFromCode, display_name. rewrite truthy_arg.
  destruct (known countryCode) as [code|] eqn:Hc; cbn [negb]; [|done].
  specialize (Hupper code eq_refl).
  rewrite (arg_known _ _ Hc). cbn [to_string]. rewrite bind_Ok.
  cbn [typed_tables countriesMap countryCodeToName].
  rewrite !get_ordinary by done. rewrite !bind_Ok.
  unfold str_table. rewrite !own_fmap.
  rewrite truthy_name.
  assert (Hbuiltin :
    (if truthy (default VUndefined (VStr <$> own builtin (toUpperCase code)))
     then Ok (default VUndefined (VStr <$> own builtin (toUpperCase code)))
     else Ok (VStr "Unknown"))
    = Ok (VStr (default "Unknown" (known (own builtin (toUpperCase code)))))).
  { rewrite truthy_name.
    destruct (known (own builtin _)) as [b|] eqn:Hb; simpl; [|done].
    apply known_Some in Hb as [-> _]. done. }
  destruct (own countries (toUpperCase code)) as [n|] eqn:Hn; simpl.
  - destruct (String.eqb n EmptyString); simpl; [|done]. apply Hbuiltin.
  - apply Hbuiltin.
Qed.

Lemma centroid_typed table countries cityCodes builtin centroids name :
  get_computed
    (countryCentroids (typed_tables table countries cityCodes builtin centroids))
    (VStr name)
  = Ok (default (inherited name) (pair_value <$> own centroids name)).
Proof.
  unfold get_computed. simpl. unfold pair_table. by rewrite own_fmap.
Qed.

End Resolver.

Section ResolverOrder.
Context {R : Runtime}.

Lemma centroid_step table countries cityCodes builtin centroids countryCode :
  (∀ code, known countryCode = Some code → ordinary (toUpperCase code)) →
  let T := typed_tables table countries cityCodes builtin centroids in
  (country ← getCountryNameFromCode T (arg countryCode);
   if truthy country then
     centroid ← get_computed (countryCentroids T) country;
     if truthy centroid then Ok centroid else Ok VNull
   else Ok VNull)
  = Ok (centroid_of centroids (display_name countries builtin countryCode)).
Proof.
  intros Hupper T. unfold T.
  rewrite getCountryNameFromCode_typed, bind_Ok by done.
  cbn [truthy]. rewrite display_name_nonempty. cbn [negb].
  rewrite centroid_typed, bind_Ok. unfold centroid_of, inherited.
  destruct (own centroids _) as [[lat lon]|]; [done|].
  by destruct (is_inherited _).
Qed.

(** The steps of the resolver, when the city code and the uppercased
    country code are ordinary keys. *)
Lemma resolveCoordinates_steps table countries cityCodes builtin centroids
    countryCode cityCode cityName :
  (∀ code, known cityCode = Some code → ordinary code) →
  (∀ code, known countryCode = Some code → ordinary (toUpperCase code)) →
  resolveCoordinates (typed_tables table countries cityCodes builtin centroids)
    (arg countryCode) (arg cityCode) (arg cityName)
  = Ok match first_match table (candidate_keys cityCodes cityCode cityName) with
       | Some (lat, lon) => pair_value (lat, lon)
       | None => centroid_of centroids (display_name countries builtin countryCode)
       end.
Proof.
  intros Hcity Hupper.
  unfold resolveCoordinates, candidate_keys.
  rewrite !truthy_arg.
  pose proof (centroid_step table countries cityCodes builtin centroids
                countryCode Hupper) as Hcen.
  cbn zeta in Hcen.
  destruct (known cityCode) as [code|] eqn:Hcode;
    destruct (known cityName) as [name|] eqn:Hname;
    rewrite ?(arg_known _ _ Hcode), ?(arg_known _ _ Hname);
    cbn [opt_list app first_match call_toLowerCase mbind Res_bind option_bind];
    rewrite ?lookup_coords_typed, ?bind_Ok;
    rewrite ?friendly_typed by (by apply Hcity);
    rewrite ?bind_Ok, ?truthy_name.
  all: cbn [opt_list first_match].
  all: repeat match goal with
       | |- context [own ?t ?k ≫= entry_numbers] =>
           destruct (own t k ≫= entry_numbers) as [[? ?]|] eqn:?;
           cbn [fmap option_fmap option_map mbind Res_bind]; try done
       end.
  all: try (destruct (known (own cityCodes code)) as [f|] eqn:Hf;
            [apply known_Some in Hf as [Hf _]; rewrite Hf;
             cbn [default from_option fmap option_fmap option_map id
                  opt_list first_match];
             rewrite lookup_coords_typed;
             destruct (own table f ≫= entry_numbers) as [[? ?]|] eqn:?;
             cbn [fmap option_fmap option_map mbind Res_bind opt_list first_match];
             try done |]).
  all: cbn [opt_list first_match mbind Res_bind].
  all: by rewrite Hcen.
Qed.

Lemma friendly_lookup table countries cityCodes builtin centroids code :
  let T := typed_tables table countries cityCodes builtin centroids in
  (friendly ← get_computed (cityCodeToCityName T) (VStr code);
   if truthy friendly then lookup_coords T friendly else Ok None)
  = Ok (pair_value
          <$> first_match table
                (opt_list
                   match own cityCodes code with
                   | Some name => known (Some name)
                   | None =>
                       if is_inherited code then Some (builtin_text code)
                       else None
                   end)).
Proof.
  intros T. unfold T, get_computed at 1.
  cbn [to_string typed_tables cityCodeToCityName get]. rewrite !bind_Ok.
  unfold str_table. rewrite own_fmap.
  destruct (own cityCodes code) as [name|];
    cbn [fmap option_fmap option_map default from_option id].
  - unfold known. cbn [mbind option_bind truthy].
    destruct (String.eqb name EmptyString); cbn [negb opt_list first_match];
      [done|].
    rewrite lookup_coords_typed.
    by destruct (own table name ≫= entry_numbers).
  - unfold inherited. destruct (is_inherited code);
      cbn [truthy opt_list first_match]; [|done].
    unfold lookup_coords, get_computed, builtin_text.
    cbn [to_string typed_tables cityCoordsFromFile].
    destruct (String.eqb code "__proto__"); rewrite bind_Ok;
      match goal with
      | |- context [get (VObj table) ?k] =>
          pose proof (lookup_coords_typed table countries cityCodes builtin
                        centroids k) as H;
          unfold lookup_coords, get_computed in H;
          cbn [to_string typed_tables cityCoordsFromFile] in H;
          rewrite bind_Ok in H; rewrite H
      end;
      by destruct (own table _ ≫= entry_numbers).
Qed.

(** The steps of the resolver, whatever the keys: the keys tried in the
    city-coordinate table, then the centroid step, which does not read
    that table. *)
Lemma resolveCoordinates_tried table countries cityCodes builtin centroids
    countryCode cityCode cityName :
  resolveCoordinates (typed_tables table countries cityCodes builtin centroids)
    (arg countryCode) (arg cityCode) (arg cityName)
  = match first_match table (tried_keys cityCodes cityCode cityName) with
    | Some (lat, lon) => Ok (pair_value (lat, lon))
    | None =>
        let T := typed_tables [] countries cityCodes builtin centroids in
        country ← getCountryNameFromCode T (arg countryCode);
        if truthy country then
          centroid ← get_computed (countryCentroids T) country;
          if truthy centroid then Ok centroid else Ok VNull
        else Ok VNull
    end.
Proof.
  unfold resolveCoordinates, tried_keys.
  rewrite !truthy_arg.
  destruct (known cityCode) as [code|] eqn:Hcode;
    destruct (known cityName) as [name|] eqn:Hname;
    rewrite ?(arg_known _ _ Hcode), ?(arg_known _ _ Hname);
    cbn [opt_list app first_match call_toLowerCase mbind Res_bind option_bind];
    rewrite ?lookup_coords_typed, ?bind_Ok;
    rewrite ?friendly_lookup, ?bind_Ok.
  all: repeat match goal with
       | |- context [own ?t ?k ≫= entry_numbers] =>
           destruct (own t k ≫= entry_numbers) as [[? ?]|] eqn:?;
           cbn [fmap option_fmap option_map mbind Res_bind]; try done
       end.
  all: try (destruct (first_match table _) as [[? ?]|];
            cbn [fmap option_fmap option_map mbind Res_bind]; try done).
  reflexivity.
Qed.

Lemma centroid_of_ordinary (centroids : list (string * (number * number)))
    (name : string) :
  ordinary name →
  centroid_of centroids name
  = match own centroids name with
    | Some (lat, lon) => pair_value (lat, lon)
    | None => VNull
    end.
Proof. intros Hname. unfold centroid_of, inherited. by rewrite Hname. Qed.

Lemma resolveCoordinates_order table countries cityCodes builtin centroids
    countryCode cityCode cityName :
  (∀ code, known cityCode = Some code → ordinary code) →
  (∀ code, known countryCode = Some code → ordinary (toUpperCase code)) →
  ordinary (display_name countries builtin countryCode) →
  resolveCoordinates (typed_tables table countries cityCodes builtin centroids)
    (arg countryCode) (arg cityCode) (arg cityName)
  = Ok (Resolution_value
          (resolution_order table countries cityCodes builtin centroids
             countryCode cityCode cityName)).
Proof.
  intros Hcity Hupper Hname.
  rewrite resolveCoordinates_steps by done. unfold resolution_order.
  destruct (first_match table _) as [[lat lon]|]; [done|].
  rewrite centroid_of_ordinary by done.
  by destruct (own centroids _) as [[lat lon]|].
Qed.
End ResolverOrder.

Section ResolverTheorems.
Context {R : Runtime}.

(** C1, as the code has it: for every city-coordinate table, name tables,
    centroid table and arguments, the resolver returns the first match in
    the fixed priority order -- city code, lowercased city name, city name,
    friendly name of the city code, country centroid, else unresolved --
    provided the keys it looks up in the name tables and in the centroid
    table (the city code, the uppercased country code, the country name)
    name no member of [Object.prototype]; an entry under the city code wins
    over every other entry, whatever the keys.  A country name that does
    name such a member and has no centroid makes the resolver return that
    member instead of unresolved: the tables are read without an
    own-property test. *)
Theorem resolveCoordinates_first_match
    (table : list (string * JsVal))
    (countries cityCodes builtin : list (string * string))
    (centroids : list (string * (number * number)))
    (countryCode cityCode cityName : option string) :
  let result :=
    resolveCoordinates (typed_tables table countries cityCodes builtin centroids)
      (arg countryCode) (arg cityCode) (arg cityName) in
  let ordinary_codes :=
    (∀ code, known cityCode = Some code → ordinary code)
    ∧ (∀ code, known countryCode = Some code → ordinary (toUpperCase code)) in
  let name := display_name countries builtin countryCode in
  (ordinary_codes → ordinary name →
   result
   = Ok (Resolution_value
           (resolution_order table countries cityCodes builtin centroids
              countryCode cityCode cityName)))
  ∧ (∀ code v c,
       known cityCode = Some code → own table code = Some v →
       entry_numbers v = Some c →
       result = Ok (pair_value c))
  ∧ (ordinary_codes →
     first_match table (candidate_keys cityCodes cityCode cityName) = None →
     is_inherited name = true → own centroids name = None →
     result = Ok (VBuiltin name)).
Proof.
  intros result ordinary_codes name. unfold result. split; [|split].
  - intros [Hcity Hupper] Hname. by apply resolveCoordinates_order.
  - intros code v [lat lon] Hcode He Hc.
    unfold resolveCoordinates. rewrite truthy_arg, Hcode.
    rewrite (arg_known _ _ Hcode), lookup_coords_typed, He.
    cbn [mbind option_bind]. by rewrite Hc.
  - intros [Hcity Hupper] Hnone Hname Hcen.
    rewrite resolveCoordinates_steps by done. rewrite Hnone.
    unfold centroid_of. fold name. by rewrite Hcen, Hname.
Qed.

(** ** Malformed entries *)

Lemma lookup_coords_without (T : Tables) (coords : list (string * JsVal))
    (k : string) (v key : JsVal) :
  own coords k = Some v → not_numeric v = true →
  lookup_coords (with_coords T coords) key
  = lookup_coords (with_coords T (without k coords)) key.
Proof.
  intros Hk Hv. unfold lookup_coords, get_computed.
  destruct (to_string key) as [s|e]; [|done].
  cbn [mbind Res_bind with_coords cityCoordsFromFile get].
  destruct (decide (k = s)) as [<-|Hne].
  - rewrite Hk, own_without_eq. cbn [default from_option id].
    rewrite lookup_inherited.
    destruct (truthy v) eqn:Htr; [|done].
    rewrite (coords_of_entry_numbers v Htr).
    unfold not_numeric in Hv. destruct (entry_numbers v); done.
  - by rewrite own_without_ne.
Qed.

(** C7, amended: a city-coordinate entry counts as a match only if its
    [lat] and [lon] both have type number; an entry where either is not a
    number is treated as a non-match, and resolution goes on as if the key
    were absent, neither returning the entry nor failing.  Finiteness is not
    checked. *)
Theorem resolveCoordinates_skips_non_numeric (T : Tables)
    (coords : list (string * JsVal)) (k : string)
    (countryCode cityCode cityName : JsVal) :
  skips_entries not_numeric T coords k countryCode cityCode cityName.
Proof.
  intros v Hk Hv. unfold resolveCoordinates.
  pose proof (λ key, lookup_coords_without T coords k v key Hk Hv) as Heq.
  apply bind_ext.
  { destruct (truthy cityCode); [apply Heq | done]. }
  intros [c|]; [done|].
  apply bind_ext.
  { destruct (truthy cityName); [|done].
    apply bind_ext; [done|]. intros key.
    apply bind_ext; [apply Heq|]. intros [c|]; [done | apply Heq]. }
  intros [c|]; [done|].
  apply bind_ext.
  { destruct (truthy cityCode); [|done].
    apply bind_ext; [done|]. intros friendly.
    destruct (truthy friendly); [apply Heq | done]. }
  intros [c|]; [done|]. reflexivity.
Qed.

End ResolverTheorems.

(** The failing input of C1: with a country table that names Sweden
    "constructor", the resolver returns the inherited [constructor], not
    unresolved. *)
Lemma resolveCoordinates_first_match_witness :
  @resolveCoordinates example_runtime
    (source_tables (VObj []) (VObj [("SE", VStr "constructor")]))
    (VStr "SE") VUndefined VUndefined
  = Ok (VBuiltin "constructor").
Proof.
  apply (proj2 (proj2 (@resolveCoordinates_first_match example_runtime
           [] [("SE", "constructor")] cityCodeToCityName_src
           countryCodeToName_src countryCentroids_src
           (Some "SE") None None))).
  - split; [discriminate | intros code [= <-]; reflexivity].
  - reflexivity.
  - reflexivity.
  - reflexivity.
Defined.

(** The city code [__proto__] has [Object.prototype] for a friendly name,
    whose text is a key like any other. *)
Example resolveCoordinates_inherited_city_code :
  @resolveCoordinates example_runtime
    (source_tables
       (VObj [("[object Object]", VObj [("lat", VNum five); ("lon", VNum five)])])
       (VObj []))
    (VStr "SE") (VStr "__proto__") VUndefined
  = Ok (pair_value (five, five)).
Proof. reflexivity. Qed.

(** The scenario of the specification: the code entry wins. *)
Example resolveCoordinates_code_entry_wins :
  @resolveCoordinates example_runtime
    (typed_tables
       [("london", VObj [("lat", VNum twelve); ("lon", VNum twelve)]);
        ("lon", VObj [("lat", VNum five); ("lon", VNum five)])]
       [] cityCodeToCityName_src countryCodeToName_src countryCentroids_src)
    (VStr "GB") (VStr "lon") (VStr "London")
  = Ok (pair_value (five, five)).
Proof. reflexivity. Qed.

(** C7, as stated, fails: a table entry whose [lat] is [Infinity] (the value
    [JSON.parse] gives for [1e999]) is not finite, yet it is returned. *)
Lemma resolveCoordinates_returns_non_finite :
  ¬ @skips_entries example_runtime (@not_finite example_runtime)
      (source_tables (VObj []) (VObj []))
      [("sea", VObj [("lat", VNum Infinity); ("lon", VNum five)])]
      "sea" (VStr "US") (VStr "sea") (VStr "Seattle").
Proof.
  intros H.
  specialize (H (VObj [("lat", VNum Infinity); ("lon", VNum five)])
                eq_refl eq_refl).
  vm_compute in H. discriminate H.
Qed.

Lemma resolveCoordinates_skips_non_numeric_witness :
  @resolveCoordinates example_runtime
    (with_coords (source_tables (VObj []) (VObj []))
       [("sea", VObj [("lat", VStr "NaN"); ("lon", VNum twelve)])])
    (VStr "US") (VStr "sea") (VStr "Seattle")
  = @resolveCoordinates example_runtime
      (with_coords (source_tables (VObj []) (VObj []))
         (without "sea" [("sea", VObj [("lat", VStr "NaN"); ("lon", VNum twelve)])]))
      (VStr "US") (VStr "sea") (VStr "Seattle").
Proof.
  apply (@resolveCoordinates_skips_non_numeric example_runtime
           (source_tables (VObj []) (VObj []))
           [("sea", VObj [("lat", VStr "NaN"); ("lon", VNum twelve)])]
           "sea" (VStr "US") (VStr "sea") (VStr "Seattle")
           (VObj [("lat", VStr "NaN"); ("lon", VNum twelve)]));
    reflexivity.
Defined.

(** ** The normalizer *)

Section Normalizer.
Context {R : Runtime}.

Lemma ownership_of_cases (apiRelay o : JsVal) :
  ownership_of apiRelay = Ok o → o = VStr "Mullvad" ∨ o = VStr "Rented".
Proof.
  unfold ownership_of. intros H.
  apply bind_Ok_inv in H as (owned & _ & H).
  destruct owned as [| |[]| | | | |];
    try (apply bind_Ok_inv in H as (provider & _ & H);
         destruct (truthy provider);
         [apply bind_Ok_inv in H as (p & _ & H);
          destruct (regex_mullvad_i_test p)|]);
    injection H as <-; auto.
Qed.

(** The shape of every relay [mapApiRelayToCanonical] returns. *)
Lemma mapApiRelayToCanonical_inv (T : Tables) (apiRelay r : JsVal) :
  mapApiRelayToCanonical T apiRelay = Ok r →
  ∃ hostname cc countryCode country cityName t ownership city_code coords
    lat lon active,
    get apiRelay "hostname" ||| get apiRelay "fqdn" ||| Ok (VStr EmptyString)
      = Ok hostname
    ∧ get apiRelay "country_code" ||| get apiRelay "country"
        ||| Ok (VStr EmptyString) = Ok cc
    ∧ call_toUpperCase cc = Ok countryCode
    ∧ truthy country = true
    ∧ type_tag apiRelay = Ok t
    ∧ ownership_of apiRelay = Ok ownership
    ∧ get apiRelay "city_code" = Ok city_code
    ∧ resolveCoordinates T countryCode city_code cityName = Ok coords
    ∧ (truthy coords = false ∧ lat = VNull ∧ lon = VNull
       ∨ truthy coords = true
         ∧ ∃ c0 c1, get coords "0" = Ok c0 ∧ get coords "1" = Ok c1
                    ∧ lat = VNum (Number c0) ∧ lon = VNum (Number c1))
    ∧ get apiRelay "active" = Ok active
    ∧ r = VObj
        [ ("id", hostname);
          ("country", country);
          ("countryCode", if truthy countryCode then countryCode else VStr "XX");
          ("city", if truthy cityName then cityName else VStr EmptyString);
          ("lat", lat);
          ("lon", lon);
          ("ownership", ownership);
          ("protocols", VArr (protocols_of t));
          ("active",
            if truthy apiRelay && is_boolean active then active else VBool true) ].
Proof.
  unfold mapApiRelayToCanonical. intros H.
  apply bind_Ok_inv in H as (hostname & Hhost & H).
  apply bind_Ok_inv in H as (cc & Hcc & H).
  apply bind_Ok_inv in H as (countryCode & Hupper & H).
  apply bind_Ok_inv in H as (country & Hcountry & H).
  apply bind_Ok_inv in H as (cityName & Hcity & H).
  apply bind_Ok_inv in H as (t & Ht & H).
  apply bind_Ok_inv in H as (ownership & Hown & H).
  apply bind_Ok_inv in H as (city_code & Hcode & H).
  apply bind_Ok_inv in H as (coords & Hcoords & H).
  apply bind_Ok_inv in H as ([lat lon] & Hlatlon & H).
  apply bind_Ok_inv in H as (active & Hactive & H).
  injection H as <-.
  exists hostname, cc, countryCode, country, cityName, t, ownership, city_code,
    coords, lat, lon, active.
  repeat split; try done.
  - eapply orM_default_truthy; [|exact Hcountry]. done.
  - destruct (truthy coords); [right|left].
    + apply bind_Ok_inv in Hlatlon as (c0 & H0 & Hlatlon).
      apply bind_Ok_inv in Hlatlon as (c1 & H1 & Hlatlon).
      injection Hlatlon as <- <-. eauto 10.
    + injection Hlatlon as <- <-. done.
Qed.

(** The second pass leaves a relay of the first pass as it is. *)
Lemma normalize_mapApiRelayToCanonical (T : Tables) (apiRelay : JsVal) :
  normalize T apiRelay = mapApiRelayToCanonical T apiRelay.
Proof.
  unfold normalize.
  destruct (mapApiRelayToCanonical T apiRelay) as [r|e] eqn:Hmap; [|done].
  apply mapApiRelayToCanonical_inv in Hmap
    as (hostname & cc & countryCode & country & cityName & t & ownership
        & city_code & coords & lat & lon & active
        & _ & _ & _ & Hcountry & _ & Hown & _ & _ & Hll & _ & ->).
  rewrite bind_Ok. unfold finalize.
  cbn [get own String.eqb Ascii.eqb Bool.eqb default from_option id].
  assert (Hlat : (if is_number lat then lat else VNull) = lat).
  { destruct Hll as [(_ & -> & _)|(_ & ? & ? & _ & _ & -> & _)]; done. }
  assert (Hlon : (if is_number lon then lon else VNull) = lon).
  { destruct Hll as [(_ & _ & ->)|(_ & ? & ? & _ & _ & _ & ->)]; done. }
  assert (Hcc : truthy (if truthy countryCode then countryCode else VStr "XX") = true).
  { destruct (truthy countryCode) eqn:E; [exact E | done]. }
  assert (Hcity :
    (if truthy (if truthy cityName then cityName else VStr EmptyString)
     then Ok (if truthy cityName then cityName else VStr EmptyString)
     else Ok (VStr EmptyString))
    = Ok (if truthy cityName then cityName else VStr EmptyString)).
  { destruct (truthy cityName) eqn:E; [by rewrite E | done]. }
  assert (Hownership : truthy ownership = true).
  { by destruct (ownership_of_cases _ _ Hown) as [-> | ->]. }
  repeat (rewrite ?orM_Ok, ?bind_Ok, ?Hcountry, ?Hcc, ?Hcity, ?Hownership;
          lazy iota).
  rewrite Hlat, Hlon.
  destruct active, (truthy apiRelay); reflexivity.
Qed.

End Normalizer.

Section NormalizerTheorems.
Context {R : Runtime}.

Lemma protocols_of_cases (t : string) :
  let protocols := protocols_of t in
  (length protocols ≤ 1)%nat
  ∧ (protocols = [VStr "WireGuard"] ↔ t = "wireguard" ∨ t = "wg")
  ∧ (protocols = [VStr "OpenVPN"] ↔ t = "openvpn" ∨ t = "ovpn")
  ∧ (protocols = [] ↔
       ¬ (t = "wireguard" ∨ t = "wg" ∨ t = "openvpn" ∨ t = "ovpn")).
Proof.
  unfold protocols_of.
  destruct (String.eqb_spec t "wireguard") as [->|H1];
    [cbn; intuition (try discriminate; auto)|].
  destruct (String.eqb_spec t "wg") as [->|H2];
    [cbn; intuition (try discriminate; auto)|].
  destruct (String.eqb_spec t "openvpn") as [->|H3];
    [cbn; intuition (try discriminate; auto)|].
  destruct (String.eqb_spec t "ovpn") as [->|H4];
    [cbn; intuition (try discriminate; auto)|].
  cbn. intuition (try discriminate; auto).
Qed.

(** C9: the protocols list of a relay has at most one element.  With [s]
    the text of the record's type, which is the empty text when the record
    has none, and [t] that text lowercased, the list is [["WireGuard"]]
    exactly when [t] is "wireguard" or "wg", [["OpenVPN"]] exactly when it
    is "openvpn" or "ovpn", and empty otherwise. *)
Theorem protocols_at_most_one (T : Tables) (apiRelay relay : JsVal) :
  normalize T apiRelay = Ok relay →
  ∃ ty s protocols,
    get apiRelay "type" ||| Ok (VStr EmptyString) = Ok ty
    ∧ call_toString ty = Ok s
    ∧ get relay "protocols" = Ok (VArr protocols)
    ∧ (length protocols ≤ 1)%nat
    ∧ let t := toLowerCase s in
      (protocols = [VStr "WireGuard"] ↔ t = "wireguard" ∨ t = "wg")
      ∧ (protocols = [VStr "OpenVPN"] ↔ t = "openvpn" ∨ t = "ovpn")
      ∧ (protocols = [] ↔
           ¬ (t = "wireguard" ∨ t = "wg" ∨ t = "openvpn" ∨ t = "ovpn")).
Proof.
  rewrite normalize_mapApiRelayToCanonical. intros H.
  apply mapApiRelayToCanonical_inv in H
    as (hostname & cc & countryCode & country & cityName & t & ownership
        & city_code & coords & lat & lon & active
        & _ & _ & _ & _ & Ht & _ & _ & _ & _ & _ & ->).
  unfold type_tag in Ht.
  apply bind_Ok_inv in Ht as (ty & Hty & Ht).
  apply bind_Ok_inv in Ht as (s & Hs & Ht). injection Ht as <-.
  exists ty, s, (protocols_of (toLowerCase s)).
  split; [exact Hty|]. split; [exact Hs|]. split; [reflexivity|].
  apply protocols_of_cases.
Qed.

(** C2, as the code has it: an [owned] boolean decides (true gives Mullvad,
    false gives Rented); without one, a provider text that contains
    "mullvad" in any case gives Mullvad and any other gives Rented; and with
    neither an [owned] boolean nor a provider the result is Rented, not the
    documented default Mullvad. *)
Theorem ownership_rules (T : Tables) (props : list (string * JsVal))
    (relay : JsVal) :
  normalize T (VObj props) = Ok relay →
  ∃ o, get relay "ownership" = Ok (VStr o)
    ∧ match own props "owned" with
      | Some (VBool true) => o = "Mullvad"
      | Some (VBool false) => o = "Rented"
      | _ =>
          match own props "provider" with
          | Some (VStr p) =>
              o = if regex_mullvad_i_test p then "Mullvad" else "Rented"
          | None | Some VNull => o = "Rented"
          | Some _ => True
          end
      end.
Proof.
  rewrite normalize_mapApiRelayToCanonical. intros H.
  apply mapApiRelayToCanonical_inv in H
    as (hostname & cc & countryCode & country & cityName & t & ownership
        & city_code & coords & lat & lon & active
        & _ & _ & _ & _ & _ & Hown & _ & _ & _ & _ & ->).
  destruct (ownership_of_cases _ _ Hown) as [-> | ->];
    (eexists; split; [reflexivity|]);
    unfold ownership_of in Hown; cbn [get mbind Res_bind] in Hown;
    destruct (own props "owned") as [[| |[]| | | | |]|];
    cbn [default from_option id mbind Res_bind] in Hown; try done;
    destruct (own props "provider") as [[| | | |p| | |]|];
    cbn [default from_option id mbind Res_bind truthy to_string negb] in Hown;
    try done;
    destruct (String.eqb p EmptyString) eqn:Hp;
    cbn [negb mbind Res_bind] in Hown; try done;
    try (apply String.eqb_eq in Hp; subst p; done);
    by destruct (regex_mullvad_i_test p).
Qed.

End NormalizerTheorems.

Section Coordinates.
Context {R : Runtime}.

Lemma lookup_coords_genuine (T : Tables) (coords : list (string * JsVal))
    (key c : JsVal) :
  lookup_coords (with_coords T coords) key = Ok (Some c) →
  ∃ k v lat lon,
    own coords k = Some v ∧ entry_numbers v = Some (lat, lon)
    ∧ c = pair_value (lat, lon).
Proof.
  unfold lookup_coords, get_computed. intros H.
  apply bind_Ok_inv in H as (v & Hv & H).
  apply bind_Ok_inv in Hv as (k & _ & Hv).
  cbn [with_coords cityCoordsFromFile get] in Hv. injection Hv as <-.
  destruct (own coords k) as [v|] eqn:Hk;
    cbn [default from_option id] in H;
    [|rewrite lookup_inherited in H; discriminate].
  destruct (truthy v) eqn:Htr; [|discriminate].
  rewrite (coords_of_entry_numbers v Htr) in H.
  destruct (entry_numbers v) as [[lat lon]|] eqn:Hn; [|discriminate].
  injection H as <-. exists k, v, lat, lon. done.
Qed.

(** What the centroid table gives that is truthy: a centroid, or the
    inherited member of the name asked for. *)
Lemma centroid_genuine (centroids : list (string * (number * number)))
    (country centroid : JsVal) :
  get_computed (VObj (pair_table centroids)) country = Ok centroid →
  truthy centroid = true →
  (∃ name lat lon,
     own centroids name = Some (lat, lon)
     ∧ centroid = pair_value (lat, lon))
  ∨ (∃ name,
       to_string country = Ok name ∧ is_inherited name = true
       ∧ centroid = VBuiltin name).
Proof.
  unfold get_computed. intros H Htr.
  apply bind_Ok_inv in H as (name & Hname & H).
  cbn [get] in H. unfold pair_table in H. rewrite own_fmap in H.
  injection H as <-.
  destruct (own centroids name) as [[lat lon]|] eqn:Hc.
  - left. exists name, lat, lon. done.
  - right. exists name. cbn [fmap option_fmap option_map default from_option id].
    cbn [fmap option_fmap option_map default from_option id] in Htr.
    unfold inherited in *. by destruct (is_inherited name).
Qed.

Lemma resolveCoordinates_genuine (coords : list (string * JsVal))
    (countries countryCode cityCode cityName res : JsVal) :
  resolveCoordinates (source_tables (VObj coords) countries)
    countryCode cityCode cityName = Ok res →
  res = VNull
  ∨ (∃ lat lon, res = pair_value (lat, lon) ∧ genuine_entry coords lat lon)
  ∨ (∃ country name,
       getCountryNameFromCode (source_tables (VObj coords) countries)
         countryCode = Ok country
       ∧ to_string country = Ok name ∧ is_inherited name = true
       ∧ res = VBuiltin name).
Proof.
  set (T := source_tables (VObj coords) countries).
  change (resolveCoordinates T) with (resolveCoordinates (with_coords T coords)).
  assert (Hhit : ∀ key c,
    lookup_coords (with_coords T coords) key = Ok (Some c) →
    ∃ lat lon, c = pair_value (lat, lon) ∧ genuine_entry coords lat lon).
  { intros key c (k & v & lat & lon & Hk & Hv & ->)%lookup_coords_genuine.
    exists lat, lon. split; [done|]. left. eauto. }
  unfold resolveCoordinates. intros H.
  apply bind_Ok_inv in H as ([c|] & H1 & H).
  { injection H as <-. right. left.
    destruct (truthy cityCode); [eauto | discriminate]. }
  apply bind_Ok_inv in H as ([c|] & H2 & H).
  { injection H as <-. right. left.
    destruct (truthy cityName); [|discriminate].
    apply bind_Ok_inv in H2 as (key & _ & H2).
    apply bind_Ok_inv in H2 as ([c'|] & H2 & H2').
    - injection H2' as <-. eauto.
    - eauto. }
  apply bind_Ok_inv in H as ([c|] & H3 & H).
  { injection H as <-. right. left.
    destruct (truthy cityCode); [|discriminate].
    apply bind_Ok_inv in H3 as (friendly & _ & H3).
    destruct (truthy friendly); [eauto | discriminate]. }
  apply bind_Ok_inv in H as (country & Hcountry & H).
  destruct (truthy country); [|injection H as <-; by left].
  apply bind_Ok_inv in H as (centroid & Hc & H).
  destruct (truthy centroid) eqn:Htr; [|injection H as <-; by left].
  injection H as <-. right.
  destruct (centroid_genuine _ _ _ Hc Htr)
    as [(name & lat & lon & Hn & ->)|(name & Hname & Hin & ->)].
  - left. exists lat, lon. split; [done|]. right. eauto.
  - right. exists country, name. done.
Qed.

(** C6, as the code has it: the coordinates of a relay are resolved or
    unresolved as a pair.  Either [lat] and [lon] are both [null]; or both
    are numbers, taken as they are from one entry of the city-coordinate
    table or of the centroid table; or, and this is the defect, the text of
    the resolved country name is the name of a member of
    [Object.prototype], the centroid table gives that member, and both are
    [NaN], which is [Number(undefined)].  Zero is never made up. *)
Theorem coordinates_resolved_as_pair (coords : list (string * JsVal))
    (countries apiRelay relay : JsVal) :
  normalize (source_tables (VObj coords) countries) apiRelay = Ok relay →
  (get relay "lat" = Ok VNull ∧ get relay "lon" = Ok VNull)
  ∨ (∃ lat lon,
       get relay "lat" = Ok (VNum lat) ∧ get relay "lon" = Ok (VNum lon)
       ∧ genuine_entry coords lat lon)
  ∨ (get relay "lat" = Ok (VNum NaN) ∧ get relay "lon" = Ok (VNum NaN)
     ∧ ∃ countryCode country name,
         getCountryNameFromCode (source_tables (VObj coords) countries)
           countryCode = Ok country
         ∧ to_string country = Ok name ∧ is_inherited name = true).
Proof.
  rewrite normalize_mapApiRelayToCanonical. intros H.
  apply mapApiRelayToCanonical_inv in H
    as (hostname & cc & countryCode & country & cityName & t & ownership
        & city_code & res & lat & lon & active
        & _ & _ & _ & _ & _ & _ & _ & Hres & Hll & _ & ->).
  destruct Hll as [(_ & -> & ->)|(Htr & c0 & c1 & H0 & H1 & -> & ->)].
  { by left. }
  right.
  apply resolveCoordinates_genuine in Hres
    as [->|[(la & lo & -> & Hgen)|(c & name & Hc & Hname & Hin & ->)]];
    [discriminate| |].
  - left. cbn in H0, H1. injection H0 as <-. injection H1 as <-.
    exists la, lo. done.
  - right. cbn in H0, H1. injection H0 as <-. injection H1 as <-.
    split; [done|]. split; [done|]. by exists countryCode, c, name.
Qed.

End Coordinates.

(** The failing input of C6: with a country table that names Sweden
    "constructor", a Swedish relay gets [NaN] for both coordinates. *)
Lemma coordinates_resolved_as_pair_witness :
  (@get example_runtime se_relay "lat" = Ok VNull
   ∧ @get example_runtime se_relay "lon" = Ok VNull)
  ∨ (∃ lat lon,
       @get example_runtime se_relay "lat" = Ok (VNum lat)
       ∧ @get example_runtime se_relay "lon" = Ok (VNum lon)
       ∧ @genuine_entry example_runtime [] lat lon)
  ∨ (@get example_runtime se_relay "lat" = Ok (VNum NaN)
     ∧ @get example_runtime se_relay "lon" = Ok (VNum NaN)
     ∧ ∃ countryCode country name,
         @getCountryNameFromCode example_runtime
           (source_tables (VObj []) se_countries) countryCode = Ok country
         ∧ @to_string example_runtime country = Ok name
         ∧ is_inherited name = true).
Proof.
  apply (@coordinates_resolved_as_pair example_runtime [] se_countries
           se_record se_relay).
  reflexivity.
Defined.

Example normalize_inherited_country :
  @normalize example_runtime (source_tables (VObj []) se_countries) se_record
  = Ok se_relay
  ∧ @get example_runtime se_relay "lat" = Ok (VNum NaN).
Proof. split; reflexivity. Qed.

Section SchemaTyped.
Context {R : Runtime}.

Lemma schema_field (props : list (string * JsVal)) (f : string) :
  raw_schema_ok (VObj props) = true → In f string_fields →
  own props f = None ∨ own props f = Some VNull
  ∨ ∃ s, own props f = Some (VStr s).
Proof.
  intros Hok Hf. unfold raw_schema_ok in Hok.
  rewrite forallb_forall in Hok. specialize (Hok f Hf).
  destruct (own props f) as [[| | | |s| | |]|]; try discriminate; eauto.
Qed.

(** A string field reads as its text when that is not empty, and as a falsy
    value otherwise. *)
Lemma field_view (props : list (string * JsVal)) (f : string) :
  raw_schema_ok (VObj props) = true → In f string_fields →
  let v := default VUndefined (own props f) in
  String.eqb (text props f) EmptyString = true ∧ truthy v = false
  ∨ String.eqb (text props f) EmptyString = false ∧ v = VStr (text props f).
Proof.
  intros Hok Hf. unfold text.
  destruct (schema_field props f Hok Hf) as [->| [->|[s ->]]]; cbn; auto.
  destruct (String.eqb s EmptyString); auto.
Qed.

Lemma truthy_text (s : string) :
  String.eqb s EmptyString = false → truthy (VStr s) = true.
Proof. cbn. by intros ->. Qed.

Lemma string_fields_ordinary (f : string) :
  In f string_fields → ordinary f.
Proof.
  cbn. intros H. repeat (destruct H as [<-|H]; [reflexivity|]). done.
Qed.

Lemma field_or (props : list (string * JsVal)) (f : string) (b : Res JsVal)
    (t : string) :
  raw_schema_ok (VObj props) = true → In f string_fields →
  b = Ok (VStr t) →
  get (VObj props) f ||| b = Ok (VStr (or_text (text props f) t)).
Proof.
  intros Hok Hf ->. rewrite get_ordinary by by apply string_fields_ordinary.
  unfold or_text. rewrite orM_Ok.
  destruct (field_view props f Hok Hf) as [[-> ->]|[Ht ->]]; [done|].
  by rewrite Ht, truthy_text.
Qed.

Lemma field_chain (props : list (string * JsVal)) (f g : string) :
  raw_schema_ok (VObj props) = true → In f string_fields → In g string_fields →
  get (VObj props) f ||| get (VObj props) g ||| Ok (VStr EmptyString)
  = Ok (VStr (or_text (text props f) (text props g))).
Proof.
  intros Hok Hf Hg.
  rewrite !get_ordinary by by apply string_fields_ordinary.
  unfold or_text. rewrite !orM_Ok.
  destruct (field_view props f Hok Hf) as [[-> ->]|[Ht ->]].
  - rewrite orM_Ok.
    destruct (field_view props g Hok Hg) as [[Hg' ->]|[Hg' ->]].
    + apply String.eqb_eq in Hg'. by rewrite Hg'.
    + by rewrite truthy_text.
  - rewrite Ht, truthy_text by done. rewrite orM_Ok. by rewrite truthy_text.
Qed.

Lemma type_tag_schema (props : list (string * JsVal)) :
  raw_schema_ok (VObj props) = true →
  type_tag (VObj props) = Ok (toLowerCase (text props "type")).
Proof.
  intros Hok. unfold type_tag.
  rewrite (field_or props "type" _ EmptyString) by (done || cbn; tauto).
  rewrite bind_Ok. unfold or_text.
  by destruct (String.eqb (text props "type") EmptyString) eqn:E;
    [apply String.eqb_eq in E; rewrite E|].
Qed.

Lemma ownership_of_schema (props : list (string * JsVal)) :
  raw_schema_ok (VObj props) = true →
  ownership_of (VObj props)
  = Ok (VStr match own props "owned" with
             | Some (VBool true) => "Mullvad"
             | Some (VBool false) => "Rented"
             | _ => if regex_mullvad_i_test (text props "provider")
                    then "Mullvad" else "Rented"
             end).
Proof.
  intros Hok. unfold ownership_of. rewrite !get_ordinary by done.
  rewrite !bind_Ok.
  assert (Hprov :
    (if truthy (default VUndefined (own props "provider"))
     then p ← to_string (default VUndefined (own props "provider"));
          if regex_mullvad_i_test p then Ok (VStr "Mullvad")
          else Ok (VStr "Rented")
     else Ok (VStr "Rented"))
    = Ok (VStr (if regex_mullvad_i_test (text props "provider")
                then "Mullvad" else "Rented"))).
  { destruct (field_view props "provider" Hok) as [[Hp ->]|[Hp ->]];
      [cbn; tauto | |].
    - apply String.eqb_eq in Hp. by rewrite Hp.
    - rewrite truthy_text by done. cbn [to_string]. rewrite bind_Ok.
      by destruct (regex_mullvad_i_test _). }
  destruct (own props "owned") as [[| |[]| | | | |]|];
    cbn [default from_option id]; done.
Qed.

Lemma active_schema (props : list (string * JsVal)) :
  (if truthy (VObj props) && is_boolean (default VUndefined (own props "active"))
   then default VUndefined (own props "active") else VBool true)
  = VBool match own props "active" with
          | Some (VBool b) => b
          | _ => true
          end.
Proof. by destruct (own props "active") as [[]|]. Qed.

Lemma cityName_schema (T : Tables) (props : list (string * JsVal)) :
  raw_schema_ok (VObj props) = true →
  ordinary (text props "city_code") →
  cityCodeToCityName T = VObj (str_table cityCodeToCityName_src) →
  get (VObj props) "city_name"
  ||| (code ← get (VObj props) "city_code";
       if truthy code
       then get_computed (cityCodeToCityName T) code ||| call_toUpperCase code
       else Ok (VStr EmptyString))
  = Ok (VStr
          (or_text (text props "city_name")
             (if String.eqb (text props "city_code") EmptyString
              then EmptyString
              else or_text
                     (default EmptyString
                        (own cityCodeToCityName_src (text props "city_code")))
                     (toUpperCase (text props "city_code"))))).
Proof.
  intros Hok Hord ->. apply field_or; [done | cbn; tauto |].
  rewrite get_ordinary by done. rewrite bind_Ok.
  destruct (field_view props "city_code" Hok) as [[-> ->]|[Hc ->]];
    [cbn; tauto | done |].
  rewrite Hc, truthy_text by done.
  unfold get_computed. cbn [to_string call_toUpperCase]. rewrite bind_Ok.
  rewrite get_ordinary by done.
  unfold str_table. rewrite own_fmap. rewrite orM_Ok.
  unfold or_text.
  destruct (own cityCodeToCityName_src (text props "city_code")) as [n|];
    cbn [fmap option_fmap option_map default from_option id truthy negb];
    [|done].
  by destruct (String.eqb n EmptyString).
Qed.

Lemma or_text_nonempty (a b : string) :
  String.eqb b EmptyString = false →
  String.eqb (or_text a b) EmptyString = false.
Proof.
  intros Hb. unfold or_text.
  by destruct (String.eqb a EmptyString) eqn:Ha.
Qed.

Lemma get_pair_0 (lat lon : number) :
  get (pair_value (lat, lon)) "0" = Ok (VNum lat).
Proof. reflexivity. Qed.

Lemma get_pair_1 (lat lon : number) :
  get (pair_value (lat, lon)) "1" = Ok (VNum lon).
Proof. reflexivity. Qed.

Lemma resolve_city_code (T : Tables) (props : list (string * JsVal))
    (countryCode cityName : JsVal) :
  raw_schema_ok (VObj props) = true →
  resolveCoordinates T countryCode
    (default VUndefined (own props "city_code")) cityName
  = resolveCoordinates T countryCode
      (arg (Some (text props "city_code"))) cityName.
Proof.
  intros Hok. unfold text.
  destruct (schema_field props "city_code" Hok) as [->| [->|[s ->]]];
    [cbn; tauto | done..].
Qed.

Lemma own_Forall {A} (P : A → Prop) (l : list (string * A)) (k : string)
    (v : A) :
  Forall (λ kv, P kv.2) l → own l k = Some v → P v.
Proof.
  induction 1 as [|[k' v'] l HP _ IH]; [done|]. cbn.
  destruct (String.eqb k k'); [by intros [= <-] | done].
Qed.

Lemma countryCodeToName_src_ordinary (c name : string) :
  own countryCodeToName_src c = Some name → ordinary name.
Proof.
  apply (own_Forall ordinary).
  apply Forall_forall. intros [k v] Hin.
  assert (H : forallb (λ kv : string * string, negb (is_inherited kv.2))
                countryCodeToName_src = true) by (vm_compute; reflexivity).
  rewrite forallb_forall in H. apply list_elem_of_In in Hin.
  specialize (H _ Hin). unfold ordinary. by destruct (is_inherited _).
Qed.

(** The display name is ordinary when no name of the loaded table is the
    name of an inherited member: the built-in names and ["Unknown"] are
    ordinary. *)
Lemma display_name_ordinary (countries : list (string * string))
    (countryCode : option string) :
  (∀ c name, own countries c = Some name → ordinary name) →
  ordinary (display_name countries countryCodeToName_src countryCode).
Proof.
  intros Hnames. unfold display_name.
  destruct (known countryCode) as [code|]; [|reflexivity].
  cbn zeta.
  destruct (known (own countries _)) as [n|] eqn:Hn.
  { apply known_Some in Hn as [Hn _]. by eapply Hnames. }
  destruct (known (own countryCodeToName_src _)) as [n|] eqn:Hb;
    [|reflexivity].
  apply known_Some in Hb as [Hb _]. cbn.
  by eapply countryCodeToName_src_ordinary.
Qed.

Lemma mapApiRelayToCanonical_schema_typed
    (table : list (string * JsVal))
    (countries : list (string * string)) (props : list (string * JsVal)) :
  raw_schema_ok (VObj props) = true →
  ordinary (text props "city_code") →
  ordinary (country_key props) →
  (∀ c name, own countries c = Some name → ordinary name) →
  mapApiRelayToCanonical
    (source_tables (VObj table) (VObj (str_table countries)))
    (VObj props)
  = Ok (field_mapping table countries props).
Proof.
  intros Hok Hcity Hkey Hnames.
  change (source_tables (VObj table) (VObj (str_table countries)))
    with (typed_tables table countries cityCodeToCityName_src
            countryCodeToName_src countryCentroids_src).
  unfold country_key in Hkey.
  unfold mapApiRelayToCanonical, field_mapping.
  rewrite !field_chain by (done || cbn; tauto). rewrite !bind_Ok.
  cbn [call_toUpperCase]. rewrite bind_Ok.
  set (code := toUpperCase _).
  (* country *)
  pose proof (getCountryNameFromCode_typed table countries
                cityCodeToCityName_src countryCodeToName_src
                countryCentroids_src (Some code)) as Hname.
  cbn [arg] in Hname. rewrite Hname; clear Hname;
    [|intros c [[= <-] _]%known_Some; exact Hkey].
  rewrite (field_or props "country_name" _
             (display_name countries countryCodeToName_src (Some code)))
    by (done || cbn; tauto).
  rewrite orM_Ok.
  rewrite (truthy_text (or_text (text props "country_name") _))
    by apply or_text_nonempty, display_name_nonempty.
  rewrite bind_Ok.
  (* city *)
  rewrite (cityName_schema
             (typed_tables table countries cityCodeToCityName_src
                countryCodeToName_src countryCentroids_src)
             props Hok Hcity eq_refl), bind_Ok.
  set (city := or_text (text props "city_name") _).
  rewrite type_tag_schema, ownership_of_schema by done. rewrite !bind_Ok.
  rewrite !get_ordinary by done. rewrite bind_Ok.
  rewrite resolve_city_code by done.
  pose proof (resolveCoordinates_order table countries
                cityCodeToCityName_src countryCodeToName_src
                countryCentroids_src (Some code)
                (Some (text props "city_code")) (Some city)) as Hres.
  cbn [arg] in Hres. cbn [arg]. rewrite Hres, bind_Ok; clear Hres;
    [| by intros c [[= <-] _]%known_Some
     | by intros c [[= <-] _]%known_Some
     | by apply display_name_ordinary ].
  destruct (resolution_order _ _ _ _ _ _ _ _) as [lat lon|];
    cbn [Resolution_value truthy];
    rewrite ?get_pair_0, ?get_pair_1, ?bind_Ok;
    cbn [mbind Res_bind fst snd Number pair_value];
    unfold or_text;
    destruct (String.eqb code EmptyString) eqn:Hcode;
    destruct (String.eqb city EmptyString) eqn:Hempty;
    cbn [truthy negb andb]; rewrite ?Hcode, ?Hempty; cbn [negb];
    try (apply String.eqb_eq in Hempty; rewrite Hempty);
    destruct (own props "active") as [[]|]; reflexivity.
Qed.

Lemma protocols_of_allowed (t : string) :
  forallb
    (λ p, match p with
          | VStr s => String.eqb s "WireGuard" || String.eqb s "OpenVPN"
          | _ => false
          end) (protocols_of t) = true.
Proof.
  unfold protocols_of.
  by destruct (String.eqb t "wireguard" || String.eqb t "wg"),
              (String.eqb t "openvpn" || String.eqb t "ovpn").
Qed.

Lemma field_mapping_canonical (table : list (string * JsVal))
    (countries : list (string * string)) (props : list (string * JsVal)) :
  canonical_schema_ok (field_mapping table countries props) = true.
Proof.
  unfold field_mapping, canonical_schema_ok.
  cbn [own String.eqb Ascii.eqb Bool.eqb default from_option id is_string
       is_boolean andb].
  rewrite protocols_of_allowed.
  destruct (resolution_order _ _ _ _ _ _ _ _) as [lat lon|];
    destruct (own props "owned") as [[| |[]| | | | |]|];
    try destruct (regex_mullvad_i_test _); reflexivity.
Qed.

(** C5, amended: take a raw record whose string fields, where present,
    hold strings, a city-coordinate table that is an object, of any
    entries, and a country table that is an object of strings; and let no
    key that the mapper looks up in a table be the name of a member of
    [Object.prototype]: not the record's city code, not its country code as
    uppercased, and no country name of the country table.  Then [normalize]
    returns a relay in which every schema field is present and of its type,
    with the fallbacks of the field mapping: country "Unknown", countryCode
    "XX", city the empty string, [null] coordinates, ownership one of
    Mullvad and Rented, protocols an array, active [true]. *)
Theorem normalize_schema_typed
    (table : list (string * JsVal))
    (countries : list (string * string)) (props : list (string * JsVal)) :
  raw_schema_ok (VObj props) = true →
  ordinary (text props "city_code") →
  ordinary (country_key props) →
  (∀ c name, own countries c = Some name → ordinary name) →
  normalize
    (source_tables (VObj table) (VObj (str_table countries)))
    (VObj props)
  = Ok (field_mapping table countries props)
  ∧ canonical_schema_ok (field_mapping table countries props) = true.
Proof.
  intros Hok Hcity Hkey Hnames. split.
  - rewrite normalize_mapApiRelayToCanonical.
    by apply mapApiRelayToCanonical_schema_typed.
  - apply field_mapping_canonical.
Qed.

End SchemaTyped.

(** ** The normalizer on examples *)

Lemma protocols_at_most_one_witness :
  ∃ ty s protocols,
    @get example_runtime mixed_case_record "type" ||| Ok (VStr EmptyString)
    = Ok ty
    ∧ @call_toString example_runtime ty = Ok s
    ∧ @get example_runtime mixed_case_relay "protocols" = Ok (VArr protocols)
    ∧ (length protocols ≤ 1)%nat
    ∧ let t := map_ascii ascii_lower s in
      (protocols = [VStr "WireGuard"] ↔ t = "wireguard" ∨ t = "wg")
      ∧ (protocols = [VStr "OpenVPN"] ↔ t = "openvpn" ∨ t = "ovpn")
      ∧ (protocols = [] ↔
           ¬ (t = "wireguard" ∨ t = "wg" ∨ t = "openvpn" ∨ t = "ovpn")).
Proof.
  apply (@protocols_at_most_one example_runtime
           (source_tables (VObj []) (VObj [])) mixed_case_record
           mixed_case_relay).
  reflexivity.
Defined.

(** A type in mixed case is lowercased before it is compared. *)
Example protocols_of_mixed_case :
  @normalize example_runtime (source_tables (VObj []) (VObj []))
    mixed_case_record
  = Ok mixed_case_relay
  ∧ @get example_runtime mixed_case_relay "protocols"
    = Ok (VArr [VStr "WireGuard"]).
Proof. split; reflexivity. Qed.

Lemma ownership_rules_witness :
  ∃ o, @get example_runtime empty_record_relay "ownership" = Ok (VStr o)
       ∧ o = "Rented".
Proof.
  apply (@ownership_rules example_runtime
           (source_tables (VObj []) (VObj [])) [] empty_record_relay).
  reflexivity.
Defined.

Lemma normalize_schema_typed_witness :
  @normalize example_runtime
    (source_tables (VObj []) (VObj (str_table []))) gb_lon_wg_001
  = Ok gb_lon_wg_001_relay
  ∧ canonical_schema_ok gb_lon_wg_001_relay = true.
Proof.
  apply (@normalize_schema_typed example_runtime [] []
           [("hostname", VStr "gb-lon-wg-001"); ("country_code", VStr "gb");
            ("type", VStr "wireguard"); ("owned", VBool true)]).
  - reflexivity.
  - reflexivity.
  - reflexivity.
  - intros c name H. discriminate H.
Defined.

(** C5, as stated, fails: a record whose hostname is the number 5 gives a
    relay whose id is that number, not a string; and a record whose country
    code is a number gives no relay at all. *)
Lemma normalize_not_always_canonical :
  ¬ @always_canonical example_runtime (source_tables (VObj []) (VObj [])).
Proof.
  intros H. destruct (H [("hostname", VNum five)]) as (relay & Hrelay & Hok).
  vm_compute in Hrelay. injection Hrelay as <-. discriminate Hok.
Qed.

Example normalize_throws_on_numeric_country_code :
  @normalize example_runtime (source_tables (VObj []) (VObj []))
    (VObj [("country_code", VNum five)])
  = Threw TypeError.
Proof. reflexivity. Qed.

(** A city code that names a member of [Object.prototype] gets that member
    for a city name, which has no [toLowerCase]. *)
Example normalize_throws_on_inherited_city_code :
  @normalize example_runtime (source_tables (VObj []) (VObj []))
    (VObj [("city_code", VStr "constructor")])
  = Threw TypeError.
Proof. reflexivity. Qed.

(** ** The orchestrator *)

Section Orchestrator.
Context {R : Runtime}.

Lemma files_say (ev : Event) (w : World) : files (say ev w) = files w.
Proof. reflexivity. Qed.

Lemma files_try_write (env : Env) (path text : string) (count : nat)
    (what : string) (w : World) :
  files (try_write env path text count what w)
  = if writable env path then <[path := text]> (files w) else files w.
Proof. unfold try_write, writeFile. by destruct (writable env path). Qed.

Lemma mapM_ext_Res {A B : Type} (f g : A → Res B) (l : list A) :
  (∀ x, f x = g x) → mapM f l = mapM g l.
Proof.
  intros Hfg. induction l as [|x l IH]; [done|].
  cbn. by rewrite Hfg, IH.
Qed.

Lemma mapM_Threw {A B : Type} (f : A → Res B) (l : list A) (x : A) (e : Exn) :
  x ∈ l → f x = Threw e → ∃ e', mapM f l = Threw e'.
Proof.
  intros Hx Hf. induction l as [|y l IH]; [by apply elem_of_nil in Hx|].
  apply elem_of_cons in Hx as [<-|Hx].
  - exists e. cbn. by rewrite Hf.
  - destruct (IH Hx) as [e' He']. cbn.
    destruct (f y) as [b|e'']; [|by eexists].
    cbn. rewrite He'. by eexists.
Qed.

Lemma mapM_Ok_Forall {A B : Type} (f : A → Res B) (l : list A) (k : list B) :
  mapM f l = Ok k → Forall (λ y, ∃ x, f x = Ok y) k.
Proof.
  revert k. induction l as [|x l IH]; intros k H.
  - injection H as <-. constructor.
  - cbn in H. apply bind_Ok_inv in H as (y & Hy & H).
    apply bind_Ok_inv in H as (k' & Hk' & H). injection H as <-.
    constructor; eauto.
Qed.

Lemma mapApiRelayToCanonical_truthy (T : Tables) (x r : JsVal) :
  mapApiRelayToCanonical T x = Ok r → truthy r = true.
Proof.
  intros H. apply mapApiRelayToCanonical_inv in H
    as (? & ? & ? & ? & ? & ? & ? & ? & ? & ? & ? & ?
        & _ & _ & _ & _ & _ & _ & _ & _ & _ & _ & ->).
  done.
Qed.

Lemma finalize_mapped (T : Tables) (x r : JsVal) :
  mapApiRelayToCanonical T x = Ok r → finalize T r = Ok r.
Proof.
  intros H. pose proof (normalize_mapApiRelayToCanonical T x) as Hn.
  unfold normalize in Hn. by rewrite H in Hn.
Qed.

(** The two passes of [ingest], with the filter between them, do what
    [normalize] does record by record. *)
Lemma two_passes (T : Tables) (apiRelays : list JsVal) :
  (mapped ← mapM (mapApiRelayToCanonical T) apiRelays;
   mapM (finalize T) (List.filter truthy mapped))
  = mapM (normalize T) apiRelays.
Proof.
  rewrite (mapM_ext_Res (normalize T) (mapApiRelayToCanonical T))
    by apply normalize_mapApiRelayToCanonical.
  destruct (mapM (mapApiRelayToCanonical T) apiRelays) as [mapped|e] eqn:Hm;
    [|done].
  rewrite bind_Ok. apply mapM_Ok_Forall in Hm.
  induction Hm as [|r mapped (x & Hx) _ IH]; [done|].
  cbn [List.filter]. rewrite (mapApiRelayToCanonical_truthy _ _ _ Hx).
  cbn. rewrite (finalize_mapped _ _ _ Hx). cbn.
  cbn in IH. by rewrite IH.
Qed.

(** What a run does, case by case. *)
Lemma ingest_fetch_failed (env : Env) (w : World) (e : Exn) :
  fetchRelaysFromApi env = Threw e →
  ingest env w
  = (say (Failed "Failed to fetch relays from Mullvad API:" e) w, Exited 1).
Proof. unfold ingest. by intros ->. Qed.

Lemma ingest_files (env : Env) (w : World) (apiRelays : list JsVal) :
  fetchRelaysFromApi env = Ok apiRelays →
  let T := source_tables (loadCityCoords w) (loadCountries w) in
  let raw := JSON_stringify (VArr apiRelays) in
  let put p text (m : gmap string string) :=
    if writable env p then <[p := text]> m else m in
  let cached := put ROOT_RAW_API_PATH raw (put RAW_API_PATH raw (files w)) in
  match mapM (normalize T) apiRelays with
  | Threw _ =>
      (ingest env w).2 = Exited 1 ∧ files (ingest env w).1 = cached
  | Ok final =>
      let out := JSON_stringify (VArr final) in
      (ingest env w).2 = Returned
      ∧ files (ingest env w).1
        = put ROOT_RELAYS_PATH out (put RELAYS_PATH out cached)
  end.
Proof.
  intros Hfetch T raw put cached. unfold ingest. rewrite Hfetch.
  fold T. rewrite (two_passes T apiRelays).
  destruct (mapM (normalize T) apiRelays) as [final|e]; cbn [fst snd].
  - split; [done|]. by rewrite !files_try_write.
  - split; [done|]. by rewrite files_say, !files_try_write.
Qed.

End Orchestrator.

Section OrchestratorTheorems.
Context {R : Runtime}.

Lemma fetch_fails_Threw (env : Env) :
  fetch_fails (upstream env) = true → ∃ e, fetchRelaysFromApi env = Threw e.
Proof.
  unfold fetch_fails, fetchRelaysFromApi.
  destruct (upstream env) as [|[] [[]|]]; intros H;
    try discriminate H; by eexists.
Qed.

(** C4: when the upstream fetch fails -- a network error, a non-success
    status, or a response that is not an array of records -- the run
    reports failure and writes nothing: every file, the canonical output
    and the raw cache among them, is as it was. *)
Theorem fetch_failure_writes_nothing (env : Env) (w : World) :
  fetch_fails (upstream env) = true →
  (ingest env w).2 = Exited 1
  ∧ files (ingest env w).1 = files w
  ∧ ∃ e, console (ingest env w).1
         = (console w ++ [Failed "Failed to fetch relays from Mullvad API:" e])%list.
Proof.
  intros [e He]%fetch_fails_Threw.
  rewrite (ingest_fetch_failed env w e He). cbn. eauto.
Qed.

Lemma lookup_put (env : Env) (p q text : string) (m : gmap string string) :
  p ≠ q →
  (if writable env p then <[p := text]> m else m) !! q = m !! q.
Proof. intros Hne. destruct (writable env p); [by rewrite lookup_insert_ne|done]. Qed.

(** C3, amended: once the fetch has succeeded, the records are normalized
    in order.  When every record normalizes, the run completes and writes
    one relay per record, none dropped, to each canonical output path it
    can write.  When the normalization of some record throws, nothing is
    skipped: the run reports failure and leaves both canonical output files
    as they were. *)
Theorem normalization_failure_aborts (env : Env) (w : World)
    (apiRelays : list JsVal) :
  fetchRelaysFromApi env = Ok apiRelays →
  let T := source_tables (loadCityCoords w) (loadCountries w) in
  (∀ relays,
     mapM (normalize T) apiRelays = Ok relays →
     length relays = length apiRelays
     ∧ (ingest env w).2 = Returned
     ∧ ∀ p, p ∈ output_paths → writable env p = true →
         files (ingest env w).1 !! p = Some (JSON_stringify (VArr relays)))
  ∧ (∀ r e,
       r ∈ apiRelays → normalize T r = Threw e →
       (ingest env w).2 = Exited 1
       ∧ ∀ p, p ∈ output_paths →
           files (ingest env w).1 !! p = files w !! p).
Proof.
  intros Hfetch T. pose proof (ingest_files env w apiRelays Hfetch) as Hrun.
  cbn zeta in Hrun. fold T in Hrun. split.
  - intros relays Hrelays. rewrite Hrelays in Hrun.
    destruct Hrun as [Hexit Hfiles]. split; [|split; [exact Hexit|]].
    { clear -Hrelays. revert relays Hrelays.
      induction apiRelays as [|x l IH]; intros relays H.
      - by injection H as <-.
      - cbn in H. apply bind_Ok_inv in H as (y & _ & H).
        apply bind_Ok_inv in H as (k & Hk & H). injection H as <-.
        cbn. f_equal. by apply IH. }
    intros p Hp Hw. rewrite Hfiles.
    apply elem_of_cons in Hp as [->|Hp].
    + rewrite Hw, lookup_put by done. apply lookup_insert_eq.
    + apply list_elem_of_singleton in Hp as ->.
      rewrite Hw. apply lookup_insert_eq.
  - intros r e Hr He.
    destruct (mapM_Threw (normalize T) apiRelays r e Hr He) as [e' He'].
    rewrite He' in Hrun. destruct Hrun as [Hexit Hfiles].
    split; [exact Hexit|]. intros p Hp. rewrite Hfiles.
    apply elem_of_cons in Hp as [->|Hp];
      [|apply list_elem_of_singleton in Hp as ->];
      by rewrite !lookup_put.
Qed.

Lemma read_json_agree (w1 w2 : World) (p : string) :
  files w1 !! p = files w2 !! p → read_json w1 p = read_json w2 p.
Proof. unfold read_json. by intros ->. Qed.

Lemma tables_agree (w1 w2 : World) :
  (∀ p, p ∈ table_paths → files w1 !! p = files w2 !! p) →
  loadCityCoords w1 = loadCityCoords w2 ∧ loadCountries w1 = loadCountries w2.
Proof.
  intros H. unfold loadCityCoords, loadCountries.
  rewrite (read_json_agree w1 w2 CITY_COORDS_PATH),
    (read_json_agree w1 w2 ROOT_CITY_COORDS_PATH),
    (read_json_agree w1 w2 COUNTRIES_PATH),
    (read_json_agree w1 w2 ROOT_COUNTRIES_PATH);
    try done; apply H; unfold table_paths; set_solver.
Qed.

(** C8: the canonical output is a function of the upstream response and of
    the lookup-table files alone.  Two runs with the same response, from
    worlds whose table files agree, end the same way and write the same
    bytes to each canonical output path; in particular a second run, started
    where the first one ended, leaves every file as the first run left it. *)
Theorem ingest_deterministic (env : Env) (w1 w2 : World) :
  (∀ p, p ∈ table_paths → files w1 !! p = files w2 !! p) →
  (ingest env w1).2 = (ingest env w2).2
  ∧ (∀ p, p ∈ output_paths → (ingest env w1).2 = Returned →
       writable env p = true →
       ∃ out, files (ingest env w1).1 !! p = Some out
              ∧ files (ingest env w2).1 !! p = Some out)
  ∧ (ingest env (ingest env w1).1).2 = (ingest env w1).2
  ∧ files (ingest env (ingest env w1).1).1 = files (ingest env w1).1.
Proof.
  intros Hagree. destruct (tables_agree w1 w2 Hagree) as [Hcc Hcm].
  destruct (fetchRelaysFromApi env) as [apiRelays|e] eqn:Hfetch.
  2:{ rewrite !(ingest_fetch_failed env _ e Hfetch). cbn [fst snd].
      repeat split. intros p _ [=]. }
  pose proof (ingest_files env w1 apiRelays Hfetch) as H1.
  pose proof (ingest_files env w2 apiRelays Hfetch) as H2.
  pose proof (ingest_files env (ingest env w1).1 apiRelays Hfetch) as H3.
  cbn zeta in H1, H2, H3.
  assert (Hsame : ∀ p, p ∈ table_paths →
            files (ingest env w1).1 !! p = files w1 !! p).
  { intros p Hp.
    destruct (mapM _ apiRelays) in H1; destruct H1 as [_ ->];
      unfold table_paths in Hp;
      repeat (apply elem_of_cons in Hp as [->|Hp]);
      try (by apply elem_of_nil in Hp);
      by rewrite !lookup_put. }
  destruct (tables_agree _ _ Hsame) as [Hcc' Hcm'].
  rewrite Hcc', Hcm' in H3. rewrite <- Hcc, <- Hcm in H2.
  destruct (mapM _ apiRelays) as [final|e];
    destruct H1 as [Hexit1 Hfiles1], H2 as [Hexit2 Hfiles2],
             H3 as [Hexit3 Hfiles3].
  - split; [congruence|]. split; [|split; [congruence|]].
    + intros p Hp _ Hw. exists (JSON_stringify (VArr final)).
      rewrite Hfiles1, Hfiles2. unfold output_paths in Hp.
      apply elem_of_cons in Hp as [->|Hp];
        [|apply list_elem_of_singleton in Hp as ->].
      * rewrite Hw, !lookup_put by done. by rewrite !lookup_insert_eq.
      * rewrite Hw. by rewrite !lookup_insert_eq.
    + rewrite Hfiles3, Hfiles1.
      destruct (writable env RAW_API_PATH), (writable env ROOT_RAW_API_PATH),
        (writable env RELAYS_PATH), (writable env ROOT_RELAYS_PATH);
        apply map_eq; intros k; rewrite ?lookup_insert;
        repeat case_decide; subst; done.
  - split; [congruence|]. split; [|split; [congruence|]].
    + intros p _ Hret. congruence.
    + rewrite Hfiles3, Hfiles1.
      destruct (writable env RAW_API_PATH), (writable env ROOT_RAW_API_PATH);
        apply map_eq; intros k; rewrite ?lookup_insert;
        repeat case_decide; subst; done.
Qed.

End OrchestratorTheorems.

(** ** The orchestrator on examples *)

Lemma fetch_failure_writes_nothing_witness :
  (@ingest example_runtime unreachable stale_world).2 = Exited 1
  ∧ files (@ingest example_runtime unreachable stale_world).1 = files stale_world
  ∧ ∃ e, console (@ingest example_runtime unreachable stale_world).1
         = (console stale_world
            ++ [Failed "Failed to fetch relays from Mullvad API:" e])%list.
Proof.
  apply (@fetch_failure_writes_nothing example_runtime unreachable stale_world).
  reflexivity.
Defined.

Lemma normalization_failure_aborts_witness :
  (@ingest example_runtime (answering (VArr [gb_lon_wg_001])) empty_world).2
  = Returned.
Proof.
  pose proof (@normalization_failure_aborts example_runtime
                (answering (VArr [gb_lon_wg_001])) empty_world
                [gb_lon_wg_001] eq_refl) as [H _].
  destruct (H _ eq_refl) as (_ & Hexit & _). exact Hexit.
Defined.

(** C3, as stated, fails: with a response of two records, the first with a
    number for its country code, the run exits with code 1 and writes no
    canonical output, although the second record normalizes. *)
Lemma ingest_does_not_drop_failing_records :
  ¬ @drops_failing_records example_runtime
      (answering (VArr [VObj [("country_code", VNum five)]; gb_lon_wg_001]))
      empty_world.
Proof.
  intros H. destruct (H _ eq_refl) as [Hexit _].
  vm_compute in Hexit. discriminate Hexit.
Qed.

Lemma ingest_deterministic_witness :
  (@ingest example_runtime (answering (VArr [gb_lon_wg_001])) empty_world).2
  = (@ingest example_runtime (answering (VArr [gb_lon_wg_001])) stale_world).2.
Proof.
  apply (@ingest_deterministic example_runtime
           (answering (VArr [gb_lon_wg_001])) empty_world stale_world).
  intros p Hp. unfold table_paths in Hp.
  repeat (apply elem_of_cons in Hp as [->|Hp]); try reflexivity.
  by apply elem_of_nil in Hp.
Defined.

(** ** The updater *)

Section UpdaterTheorems.
Context {R : Runtime}.
Import UpdateCityCoords.

(** An assignment sets the key, unless the key is [__proto__] and the
    object has no own property of that name. *)
Lemma own_assign_eq (props : list (string * JsVal)) (k : string) (v : JsVal) :
  k ≠ "__proto__" ∨ is_Some (own props k) →
  own (assign props k v) k = Some v.
Proof.
  induction props as [|[k' v'] props IH]; cbn.
  - intros [Hk|[x Hx]]; [|discriminate].
    destruct (String.eqb_spec k "__proto__"); [done|].
    cbn. by rewrite String.eqb_refl.
  - destruct (String.eqb k k') eqn:E; cbn; rewrite E; [done|].
    intros H. apply IH. destruct H as [?|?]; [by left | by right].
Qed.

Lemma own_assign_ne (props : list (string * JsVal)) (k k' : string) (v : JsVal) :
  k ≠ k' → own (assign props k v) k' = own props k'.
Proof.
  intros Hne. induction props as [|[k0 v0] props IH]; cbn.
  - destruct (String.eqb k "__proto__"); [done|]. cbn.
    destruct (String.eqb_spec k' k); [congruence | done].
  - destruct (String.eqb_spec k k0) as [->|Hk]; cbn.
    + destruct (String.eqb_spec k' k0); [congruence | done].
    + destruct (String.eqb k' k0); [done | apply IH].
Qed.

(** The assignment [obj["__proto__"] = v] to an object with no own property
    of that name adds none. *)
Lemma assign_proto (props : list (string * JsVal)) (v : JsVal) :
  own props "__proto__" = None → assign props "__proto__" v = props.
Proof.
  induction props as [|[k' v'] props IH]; [done|].
  change (own ((k', v') :: props) "__proto__")
    with (if String.eqb "__proto__" k' then Some v'
          else own props "__proto__").
  change (assign ((k', v') :: props) "__proto__" v)
    with (if String.eqb "__proto__" k' then (k', v) :: props
          else (k', v') :: assign props "__proto__" v).
  destruct (String.eqb "__proto__" k'); [done|].
  intros H. by rewrite IH.
Qed.

(** One round of the loop leaves a key alone unless it is the city name, or
    the lowercased city name and not yet present. *)
Lemma record_result_frame (cityCoords : list (string * JsVal)) (city k : string)
    (result : option (number * number)) :
  k ≠ city →
  (is_Some (own cityCoords k) ∨ k ≠ toLowerCase city) →
  own (record_result cityCoords city result) k = own cityCoords k.
Proof.
  intros Hcity Hlower. unfold record_result.
  destruct result as [r|]; [|done].
  unfold hasOwnProperty.
  destruct (own (assign cityCoords city (entry r)) (toLowerCase city))
    as [v|] eqn:Hl.
  - by apply own_assign_ne.
  - destruct (decide (k = toLowerCase city)) as [->|Hne].
    + destruct Hlower as [[v Hv]|]; [|done].
      rewrite own_assign_ne in Hl by done. congruence.
    + rewrite !own_assign_ne by done. done.
Qed.

Lemma process_cities_frame (env : Env) (cities : list string) :
  ∀ (i : nat) (cityCoords : list (string * JsVal)) (fs : gmap string string)
    (k : string),
    k ∉ cities →
    (is_Some (own cityCoords k) ∨ k ∉ toLowerCase <$> cities) →
    own (process_cities env i cities cityCoords fs).1 k = own cityCoords k.
Proof.
  induction cities as [|city rest IH]; intros i cityCoords fs k Hk Hl; [done|].
  apply not_elem_of_cons in Hk as [Hcity Hrest].
  assert (Hstep :
    own (record_result cityCoords city (findCoordsForCity env i city)) k
    = own cityCoords k).
  { apply record_result_frame; [done|].
    destruct Hl as [Hl|Hl]; [by left|].
    right. rewrite fmap_cons in Hl. by apply not_elem_of_cons in Hl as [? _]. }
  cbn. rewrite IH; [done | done |].
  rewrite Hstep.
  destruct Hl as [Hl|Hl]; [by left|].
  right. rewrite fmap_cons in Hl. by apply not_elem_of_cons in Hl as [_ ?].
Qed.

Lemma record_result_exact (cityCoords : list (string * JsVal)) (city : string)
    (r : number * number) :
  city ≠ "__proto__" ∨ is_Some (own cityCoords city) →
  own (record_result cityCoords city (Some r)) city = Some (entry r).
Proof.
  intros Hcity. unfold record_result, hasOwnProperty.
  destruct (own (assign cityCoords city (entry r)) (toLowerCase city)) eqn:Hl.
  - by apply own_assign_eq.
  - destruct (decide (toLowerCase city = city)) as [Heq|Hne].
    + rewrite Heq in Hl. by rewrite own_assign_eq in Hl.
    + rewrite own_assign_ne by done. by apply own_assign_eq.
Qed.

(** C10: a run of the update loop touches only keys that are a processed
    city name or its lowercased form: every other key has the same value
    after the run as before it.  A key that was present before the run and
    is not itself a processed city name keeps its value too, so a lowercased
    key that already exists is never overwritten; the key that a successful
    lookup does overwrite is the exact city name.  (The one city name whose
    exact key a successful lookup may leave unset is [__proto__], when the
    table has no own key of that name: the assignment then adds no key, and
    the table keeps every entry it had.) *)
Theorem update_preserves_entries (env : Env) (i : nat) (cities : list string)
    (cityCoords : list (string * JsVal)) (fs : gmap string string) :
  let after := (process_cities env i cities cityCoords fs).1 in
  (∀ k, k ∉ cities → k ∉ toLowerCase <$> cities →
        own after k = own cityCoords k)
  ∧ (∀ k v, own cityCoords k = Some v → k ∉ cities → own after k = Some v)
  ∧ (∀ city r, city ≠ "__proto__" ∨ is_Some (own cityCoords city) →
               own (record_result cityCoords city (Some r)) city
               = Some (entry r))
  ∧ (∀ r k, own cityCoords "__proto__" = None →
            k ≠ toLowerCase "__proto__" →
            own (record_result cityCoords "__proto__" (Some r)) k
            = own cityCoords k).
Proof.
  split; [|split; [|split]].
  - intros k Hk Hl. apply process_cities_frame; auto.
  - intros k v Hv Hk. rewrite process_cities_frame; [done | done |].
    left. by exists v.
  - intros city r Hcity. by apply record_result_exact.
  - intros r k Hproto Hk. unfold record_result.
    rewrite assign_proto by done.
    destruct (hasOwnProperty cityCoords _); [done|].
    by rewrite own_assign_ne by congruence.
Qed.

End UpdaterTheorems.

Lemma update_preserves_entries_witness :
  own (@UpdateCityCoords.process_cities example_runtime (one_place (five, five))
         0 ["London"]
         [("london", VObj [("lat", VNum twelve); ("lon", VNum twelve)])] ∅).1
      "london"
  = Some (VObj [("lat", VNum twelve); ("lon", VNum twelve)]).
Proof.
  apply (proj1 (proj2 (@update_preserves_entries example_runtime
                  (one_place (five, five)) 0 ["London"]
                  [("london", VObj [("lat", VNum twelve); ("lon", VNum twelve)])]
                  ∅))).
  - reflexivity.
  - intros Hin. apply list_elem_of_singleton in Hin. discriminate Hin.
Defined.

(** * More properties of the pipeline *)

Section IngestFiles.
Context {R : Runtime}.

(** X1: a run of [ingest] writes to the two raw cache files and the two
    canonical output files only: every other file, the lookup-table files
    among them, is as it was, so the tables a later run loads are the ones
    this run loaded. *)
Theorem ingest_writes_only_its_outputs (env : Env) (w : World) :
  (∀ p, p ∉ written_paths → files (ingest env w).1 !! p = files w !! p)
  ∧ loadCityCoords (ingest env w).1 = loadCityCoords w
  ∧ loadCountries (ingest env w).1 = loadCountries w.
Proof.
  assert (Hframe : ∀ p, p ∉ written_paths →
            files (ingest env w).1 !! p = files w !! p).
  { intros p Hp. unfold written_paths in Hp.
    apply not_elem_of_cons in Hp as [H1 Hp].
    apply not_elem_of_cons in Hp as [H2 Hp].
    apply not_elem_of_cons in Hp as [H3 Hp].
    apply not_elem_of_cons in Hp as [H4 _].
    destruct (fetchRelaysFromApi env) as [apiRelays|e] eqn:Hfetch.
    - pose proof (ingest_files env w apiRelays Hfetch) as Hrun.
      cbn zeta in Hrun.
      destruct (mapM _ apiRelays); destruct Hrun as [_ ->];
        by rewrite !lookup_put.
    - by rewrite (ingest_fetch_failed env w e Hfetch). }
  split; [exact Hframe|].
  apply tables_agree. intros p Hp. apply Hframe.
  unfold table_paths in Hp. unfold written_paths.
  repeat (apply elem_of_cons in Hp as [->|Hp]);
    try (by apply elem_of_nil in Hp);
    intros Hin; repeat (apply elem_of_cons in Hin as [Hin|Hin]);
    try discriminate Hin; by apply elem_of_nil in Hin.
Qed.

(** X2: once the fetch has succeeded, each raw cache file that can be
    written holds the response as it came, whether or not the records
    normalize afterwards. *)
Theorem raw_cache_holds_response (env : Env) (w : World)
    (apiRelays : list JsVal) (p : string) :
  fetchRelaysFromApi env = Ok apiRelays →
  p ∈ raw_paths → writable env p = true →
  files (ingest env w).1 !! p = Some (JSON_stringify (VArr apiRelays)).
Proof.
  intros Hfetch Hp Hw.
  pose proof (ingest_files env w apiRelays Hfetch) as Hrun. cbn zeta in Hrun.
  unfold raw_paths in Hp.
  destruct (mapM _ apiRelays); destruct Hrun as [_ ->];
    (apply elem_of_cons in Hp as [->|Hp];
       [|apply list_elem_of_singleton in Hp as ->]);
    rewrite ?lookup_put by done; rewrite Hw; rewrite ?lookup_put by done;
    by rewrite lookup_insert_eq.
Qed.

Lemma mapM_cons_Res {A B : Type} (f : A → Res B) (x : A) (l : list A) :
  mapM f (x :: l) = (y ← f x; k ← mapM f l; Ok (y :: k)).
Proof. reflexivity. Qed.

Lemma mapM_normalize_schema_typed (table : list (string * JsVal))
    (countries : list (string * string)) (recs : list (list (string * JsVal))) :
  (∀ c name, own countries c = Some name → ordinary name) →
  Forall (λ props, raw_schema_ok (VObj props) = true
                   ∧ ordinary (text props "city_code")
                   ∧ ordinary (country_key props)) recs →
  mapM (normalize (source_tables (VObj table) (VObj (str_table countries))))
       (VObj <$> recs)
  = Ok (field_mapping table countries <$> recs).
Proof.
  intros Hnames.
  induction 1 as [|props recs (Hok & Hcity & Hkey) _ IH]; [done|].
  rewrite fmap_cons, mapM_cons_Res, normalize_mapApiRelayToCanonical.
  rewrite mapApiRelayToCanonical_schema_typed by done.
  by rewrite bind_Ok, IH.
Qed.

(** X3: when the loaded tables are a city-coordinate object and a country
    table of strings, every record of the response is schema-typed, and no
    key looked up in a table is the name of a member of [Object.prototype]
    (no country name of the country table, no record's city code, no
    record's country code as uppercased), the run completes and writes, to
    each canonical output path it can write, the field mapping of every
    record, in the order of the response. *)
Theorem ingest_schema_typed_response (env : Env) (w : World)
    (table : list (string * JsVal)) (countries : list (string * string))
    (recs : list (list (string * JsVal))) :
  loadCityCoords w = VObj table →
  loadCountries w = VObj (str_table countries) →
  fetchRelaysFromApi env = Ok (VObj <$> recs) →
  (∀ c name, own countries c = Some name → ordinary name) →
  Forall (λ props, raw_schema_ok (VObj props) = true
                   ∧ ordinary (text props "city_code")
                   ∧ ordinary (country_key props)) recs →
  (ingest env w).2 = Returned
  ∧ ∀ p, p ∈ output_paths → writable env p = true →
      files (ingest env w).1 !! p
      = Some (JSON_stringify (VArr (field_mapping table countries <$> recs))).
Proof.
  intros Hcc Hcm Hfetch Hnames Hok.
  pose proof (ingest_files env w _ Hfetch) as Hrun. cbn zeta in Hrun.
  rewrite Hcc, Hcm, (mapM_normalize_schema_typed _ _ _ Hnames Hok) in Hrun.
  destruct Hrun as [Hexit Hfiles]. split; [exact Hexit|].
  intros p Hp Hw. rewrite Hfiles. unfold output_paths in Hp.
  apply elem_of_cons in Hp as [->|Hp];
    [|apply list_elem_of_singleton in Hp as ->].
  - rewrite Hw, lookup_put by done. apply lookup_insert_eq.
  - rewrite Hw. apply lookup_insert_eq.
Qed.

(** X4: a city-coordinate file that holds the JSON text [null] is loaded as
    it is, and then every record with a truthy city code makes the run fail:
    it exits with code 1 and leaves the canonical output files as they
    were. *)
Theorem null_city_table_aborts (env : Env) (w : World)
    (apiRelays : list JsVal) (r code : JsVal) :
  read_json w CITY_COORDS_PATH = Some VNull →
  fetchRelaysFromApi env = Ok apiRelays →
  r ∈ apiRelays → get r "city_code" = Ok code → truthy code = true →
  (ingest env w).2 = Exited 1
  ∧ ∀ p, p ∈ output_paths → files (ingest env w).1 !! p = files w !! p.
Proof.
  intros Hnull Hfetch Hr Hcode Htr.
  pose proof (ingest_files env w _ Hfetch) as Hrun. cbn zeta in Hrun.
  assert (Hcc : loadCityCoords w = VNull).
  { unfold loadCityCoords. by rewrite Hnull. }
  rewrite Hcc in Hrun.
  set (T := source_tables VNull (loadCountries w)) in *.
  assert (Hthrow : ∃ e, normalize T r = Threw e).
  { rewrite normalize_mapApiRelayToCanonical.
    destruct (mapApiRelayToCanonical T r) as [relay|e] eqn:Hmap; [|by eexists].
    apply mapApiRelayToCanonical_inv in Hmap
      as (hostname & cc & countryCode & country & cityName & t & ownership
          & city_code & coords & lat & lon & active
          & _ & _ & _ & _ & _ & _ & Hcode' & Hres & _).
    rewrite Hcode in Hcode'. injection Hcode' as <-.
    unfold resolveCoordinates in Hres. rewrite Htr in Hres.
    unfold lookup_coords, get_computed in Hres.
    destruct (to_string code); discriminate Hres. }
  destruct Hthrow as [e He].
  destruct (mapM_Threw (normalize T) apiRelays r e Hr He) as [e' He'].
  rewrite He' in Hrun. destruct Hrun as [Hexit Hfiles].
  split; [exact Hexit|]. intros p Hp. rewrite Hfiles.
  unfold output_paths in Hp.
  apply elem_of_cons in Hp as [->|Hp];
    [|apply list_elem_of_singleton in Hp as ->];
    by rewrite !lookup_put.
Qed.

End IngestFiles.

Section NormalizerGuarantees.
Context {R : Runtime}.

(** X5: whatever the record, a relay that [normalize] returns has the nine
    canonical fields in their order; its country is truthy, its country
    code a non-empty string, its coordinates both [null] or both numbers,
    its ownership Mullvad or Rented, its protocols one of the three lists,
    and its active flag a boolean.  Only [id], [country] and [city] depend
    on the types of the record's fields. *)
Theorem normalize_guarantees (T : Tables) (apiRelay relay : JsVal) :
  normalize T apiRelay = Ok relay →
  ∃ id country code city lat lon ownership protocols active,
    relay = VObj [ ("id", id); ("country", country);
                   ("countryCode", VStr code); ("city", city);
                   ("lat", lat); ("lon", lon);
                   ("ownership", VStr ownership);
                   ("protocols", VArr protocols);
                   ("active", VBool active) ]
    ∧ truthy country = true
    ∧ code ≠ EmptyString
    ∧ (city = VStr EmptyString ∨ truthy city = true)
    ∧ (lat = VNull ∧ lon = VNull
       ∨ is_number lat = true ∧ is_number lon = true)
    ∧ (ownership = "Mullvad" ∨ ownership = "Rented")
    ∧ (protocols = [] ∨ protocols = [VStr "WireGuard"]
       ∨ protocols = [VStr "OpenVPN"]).
Proof.
  rewrite normalize_mapApiRelayToCanonical. intros H.
  apply mapApiRelayToCanonical_inv in H
    as (hostname & cc & countryCode & country & cityName & t & ownership
        & city_code & coords & lat & lon & active
        & _ & _ & Hupper & Hcountry & _ & Hown & _ & _ & Hll & _ & ->).
  destruct cc as [| | | |s| | |]; try discriminate Hupper.
  injection Hupper as <-.
  exists hostname, country,
    (if String.eqb (toUpperCase s) EmptyString then "XX" else toUpperCase s),
    (if truthy cityName then cityName else VStr EmptyString), lat, lon,
    (match ownership with VStr o => o | _ => EmptyString end),
    (protocols_of t),
    (match (if truthy apiRelay && is_boolean active then active else VBool true)
     with VBool b => b | _ => true end).
  split; [|split; [exact Hcountry|split; [|split; [|split; [|split]]]]].
  - f_equal. repeat f_equal.
    + cbn [truthy]. by destruct (String.eqb (toUpperCase s) EmptyString).
    + by destruct (ownership_of_cases _ _ Hown) as [-> | ->].
    + by destruct (truthy apiRelay), active.
  - destruct (String.eqb_spec (toUpperCase s) EmptyString); done.
  - destruct (truthy cityName) eqn:E; auto.
  - destruct Hll as [(_ & -> & ->)|(_ & c0 & c1 & _ & _ & -> & ->)]; auto.
  - destruct (ownership_of_cases _ _ Hown) as [-> | ->]; auto.
  - unfold protocols_of.
    destruct (String.eqb_spec t "wireguard") as [->|?]; [cbn; auto|].
    destruct (String.eqb_spec t "wg") as [->|?]; [cbn; auto|].
    destruct (String.eqb t "openvpn" || String.eqb t "ovpn"); cbn; auto.
Qed.

(** X6: the second pass of [ingest] does nothing: a relay that
    [mapApiRelayToCanonical] returns is truthy, so [filter(Boolean)] keeps
    it, and the map that follows returns it unchanged, none of its
    fallbacks applying. *)
Theorem second_pass_changes_nothing (T : Tables) (apiRelays mapped : list JsVal) :
  mapM (mapApiRelayToCanonical T) apiRelays = Ok mapped →
  List.filter truthy mapped = mapped
  ∧ mapM (finalize T) mapped = Ok mapped.
Proof.
  intros Hm. apply mapM_Ok_Forall in Hm.
  induction Hm as [|r mapped (x & Hx) _ [IH1 IH2]]; [done|].
  cbn [List.filter]. rewrite (mapApiRelayToCanonical_truthy _ _ _ Hx).
  split; [by rewrite IH1|].
  by rewrite mapM_cons_Res, (finalize_mapped _ _ _ Hx), bind_Ok, IH2.
Qed.

(** ** The provider heuristic *)

Lemma ci_prefix_spec (p s : string) :
  ci_prefix p s = true
  ↔ ∃ mid post, s = mid +:+ post
      ∧ map_ascii ascii_lower mid = map_ascii ascii_lower p.
Proof.
  revert s. induction p as [|a p IH]; intros s.
  - split; [|done]. intros _. by exists EmptyString, s.
  - destruct s as [|b s]; cbn [ci_prefix].
    + split; [done|]. intros ([|c mid] & post & Hs & Hm); discriminate.
    + rewrite andb_true_iff, IH. split.
      * intros [Hab (mid & post & -> & Hm)].
        exists (String b mid), post. split; [done|].
        cbn. apply Ascii.eqb_eq in Hab. by rewrite Hab, Hm.
      * intros ([|c mid] & post & Hs & Hm); [discriminate|].
        cbn in Hs, Hm. injection Hs as <- ->. injection Hm as Hc Hm.
        split; [rewrite Hc; apply Ascii.eqb_refl|]. eauto.
Qed.

Lemma ci_search_spec (p s : string) : ci_search p s = true ↔ contains_ci p s.
Proof.
  unfold contains_ci. induction s as [|c s IH].
  - cbn [ci_search]. rewrite orb_false_r, ci_prefix_spec. split.
    + intros (mid & post & Hs & Hm). by exists EmptyString, mid, post.
    + intros ([|? ?] & mid & post & Hs & Hm); [|discriminate].
      exists mid, post. split; [exact Hs | exact Hm].
  - cbn [ci_search]. rewrite orb_true_iff, IH, ci_prefix_spec. split.
    + intros [(mid & post & Hs & Hm)|(pre & mid & post & Hs & Hm)].
      * by exists EmptyString, mid, post.
      * exists (String c pre), mid, post. by rewrite Hs.
    + intros ([|c' pre] & mid & post & Hs & Hm).
      * left. exists mid, post. split; [exact Hs | exact Hm].
      * right. simpl in Hs. injection Hs as <- ->. eauto.
Qed.

(** X7: for a record without an [owned] boolean whose provider is a text,
    the relay is owned by Mullvad exactly when the provider contains
    "mullvad" somewhere, in any mix of upper and lower case, and rented
    otherwise. *)
Theorem provider_heuristic_is_substring_match (T : Tables)
    (props : list (string * JsVal)) (p : string) (relay : JsVal) :
  normalize T (VObj props) = Ok relay →
  (∀ b, own props "owned" ≠ Some (VBool b)) →
  own props "provider" = Some (VStr p) →
  (get relay "ownership" = Ok (VStr "Mullvad") ↔ contains_ci "mullvad" p)
  ∧ (get relay "ownership" = Ok (VStr "Rented") ↔ ¬ contains_ci "mullvad" p).
Proof.
  rewrite normalize_mapApiRelayToCanonical. intros H Howned Hprov.
  apply mapApiRelayToCanonical_inv in H
    as (hostname & cc & countryCode & country & cityName & t & ownership
        & city_code & coords & lat & lon & active
        & _ & _ & _ & _ & _ & Hown & _ & _ & _ & _ & ->).
  assert (Hval : ownership
                 = VStr (if ci_search "mullvad" p then "Mullvad" else "Rented")).
  { unfold ownership_of in Hown. cbn [get] in Hown. rewrite bind_Ok in Hown.
    rewrite Hprov in Hown.
    destruct (own props "owned") as [[| |b| | | | |]|];
      try (by destruct (Howned b));
      cbn [default from_option id mbind Res_bind truthy to_string] in Hown;
      (destruct (String.eqb_spec p EmptyString) as [->|Hp];
         cbn [negb mbind Res_bind] in Hown;
         [injection Hown as <-; done|]);
      unfold regex_mullvad_i_test in Hown;
      destruct (ci_search "mullvad" p); by injection Hown as <-. }
  subst ownership. cbn [get own String.eqb Ascii.eqb Bool.eqb default from_option id].
  rewrite <- ci_search_spec.
  destruct (ci_search "mullvad" p); split; split; try done; intros H; by inversion H.
Qed.

End NormalizerGuarantees.

Section CentroidCoverage.
Context {R : Runtime}.

Lemma centroid_coverage (u : string) :
  own countryCentroids_src
    (default "Unknown" (known (own countryCodeToName_src u))) = None
  ↔ u ∉ centroid_codes.
Proof.
  unfold centroid_codes. rewrite !not_elem_of_cons.
  unfold countryCodeToName_src. cbn [own].
  repeat (match goal with
          | |- context [String.eqb u ?s] =>
              destruct (String.eqb_spec u s) as [->|?]
          end;
          [split;
           [intros H;
            first [by vm_compute in H
                  | repeat split; try done; apply not_elem_of_nil]
           | intros (?&?&?&?&?&?&?&?); first [congruence | reflexivity]]|]).
  split; [|done]. intros _. repeat split; try done. apply not_elem_of_nil.
Qed.

(** X8: with no country table loaded, and a city code and an uppercased
    country code that are not names of members of [Object.prototype], the
    resolver gives [null] exactly when no key it tries has a numeric entry
    in the city-coordinate table and the uppercased country code is not one
    of US, GB, AU, DE, FR, NL, CA, the seven countries with a built-in
    centroid.  The country name of the record plays no part. *)
Theorem unresolved_iff_no_entry_and_no_centroid
    (table : list (string * JsVal)) (countryCode cityCode cityName : option string) :
  (∀ code, known cityCode = Some code → ordinary code) →
  (∀ code, known countryCode = Some code → ordinary (toUpperCase code)) →
  resolveCoordinates (source_tables (VObj table) (VObj []))
    (arg countryCode) (arg cityCode) (arg cityName) = Ok VNull
  ↔ first_match table (candidate_keys cityCodeToCityName_src cityCode cityName)
    = None
    ∧ ∀ code, known countryCode = Some code →
        toUpperCase code ∉ centroid_codes.
Proof.
  intros Hcity Hupper.
  change (source_tables (VObj table) (VObj []))
    with (typed_tables table [] cityCodeToCityName_src countryCodeToName_src
            countryCentroids_src).
  rewrite resolveCoordinates_order;
    [| done | done | by apply display_name_ordinary].
  unfold resolution_order.
  destruct (first_match table _) as [[lat lon]|].
  { split; [discriminate | intros [[=] _]]. }
  unfold display_name.
  destruct (known countryCode) as [code|].
  - cbn [own known mbind option_bind].
    pose proof (centroid_coverage (toUpperCase code)) as Hcov.
    destruct (own countryCentroids_src _) as [[lat lon]|].
    + split; [discriminate|]. intros [_ H].
      apply proj2 in Hcov. specialize (H code eq_refl).
      by specialize (Hcov H).
    + split; [|done]. intros _. split; [done|]. intros ? [= <-].
      by apply Hcov.
  - cbn. split; [|done]. intros _. split; [done|]. discriminate.
Qed.

End CentroidCoverage.

Section Loaders.
Context {R : Runtime}.

(** The loaded country table is an object, whose properties can be read. *)
Lemma loadCountries_object (w : World) (k : string) :
  ∃ v, get (loadCountries w) k = Ok v.
Proof.
  assert (Hguard : ∀ parsed,
    ∃ v, get (if is_object parsed then parsed else VObj []) k = Ok v).
  { intros parsed. unfold is_object.
    destruct parsed as [| | | | | | |name];
      cbn [typeof truthy andb get]; rewrite ?andb_false_r;
      try (cbn [get]; by eexists).
    - destruct (array_index k); by eexists.
    - destruct (String.eqb name "__proto__"); cbn [get]; [|by eexists].
      destruct (no_builtin_has k); by eexists. }
  unfold loadCountries.
  destruct (read_json w COUNTRIES_PATH); [apply Hguard|].
  destruct (read_json w ROOT_COUNTRIES_PATH); [apply Hguard | by eexists].
Qed.

(** X9: whatever the country files hold, the country table that is loaded
    can be read: for every code that has a text, the country name lookup
    returns, and returns a truthy name -- the loaded name, the built-in
    name, or "Unknown". *)
Theorem country_name_never_fails (w : World) (coords code : JsVal) (s : string) :
  to_string code = Ok s →
  ∃ name,
    getCountryNameFromCode (source_tables coords (loadCountries w)) code
    = Ok name
    ∧ truthy name = true.
Proof.
  intros Hs. unfold getCountryNameFromCode.
  destruct (truthy code); cbn [negb]; [|by eexists].
  rewrite Hs, bind_Ok. cbn [countriesMap countryCodeToName source_tables].
  destruct (loadCountries_object w (toUpperCase s)) as [v ->].
  rewrite bind_Ok.
  destruct (truthy v) eqn:Hv; [by eexists|].
  cbn [get]. rewrite bind_Ok.
  destruct (truthy (default _ _)) eqn:Hb; by eexists.
Qed.

Lemma lookup_put_agree (env : Env) (q text p : string) (m1 m2 : gmap string string) :
  m1 !! p = m2 !! p →
  (if writable env q then <[q := text]> m1 else m1) !! p
  = (if writable env q then <[q := text]> m2 else m2) !! p.
Proof.
  intros H. destruct (writable env q); [|done].
  destruct (decide (q = p)) as [->|Hne].
  - by rewrite !lookup_insert_eq.
  - by rewrite !lookup_insert_ne.
Qed.

(** X10: the city-coordinate file of [tools/data] shadows the one of
    [data], which is the file the updater and the add-city script write:
    while the first can be read and parsed, nothing written to the second
    changes how a run of [ingest] ends or what its canonical output files
    hold. *)
Theorem tools_table_shadows_root (env : Env) (w : World) (v : JsVal)
    (text : string) :
  read_json w CITY_COORDS_PATH = Some v →
  let w' := {| files := <[ROOT_CITY_COORDS_PATH := text]> (files w);
               console := console w |} in
  (ingest env w').2 = (ingest env w).2
  ∧ ∀ p, p ∈ output_paths →
      files (ingest env w').1 !! p = files (ingest env w).1 !! p.
Proof.
  intros Hv w'.
  assert (Hfiles : ∀ p, p ≠ ROOT_CITY_COORDS_PATH → files w' !! p = files w !! p).
  { intros p Hp. cbn. by rewrite lookup_insert_ne. }
  assert (Hcc : loadCityCoords w' = loadCityCoords w).
  { unfold loadCityCoords.
    rewrite (read_json_agree w' w CITY_COORDS_PATH) by by apply Hfiles.
    by rewrite Hv. }
  assert (Hcm : loadCountries w' = loadCountries w).
  { unfold loadCountries.
    rewrite (read_json_agree w' w COUNTRIES_PATH) by by apply Hfiles.
    by rewrite (read_json_agree w' w ROOT_COUNTRIES_PATH) by by apply Hfiles. }
  assert (Hout : ∀ p, p ∈ output_paths → files w' !! p = files w !! p).
  { intros p Hp. apply Hfiles. unfold output_paths in Hp.
    apply elem_of_cons in Hp as [->|Hp];
      [|apply list_elem_of_singleton in Hp as ->]; done. }
  destruct (fetchRelaysFromApi env) as [apiRelays|e] eqn:Hfetch.
  2:{ rewrite !(ingest_fetch_failed env _ e Hfetch). cbn [fst snd].
      split; [done|]. intros p Hp. rewrite !files_say. by apply Hout. }
  pose proof (ingest_files env w apiRelays Hfetch) as H1.
  pose proof (ingest_files env w' apiRelays Hfetch) as H2.
  cbn zeta in H1, H2. rewrite Hcc, Hcm in H2.
  destruct (mapM _ apiRelays) as [final|e];
    destruct H1 as [Hexit1 Hfiles1], H2 as [Hexit2 Hfiles2];
    (split; [congruence|]); intros p Hp; rewrite Hfiles1, Hfiles2;
    repeat apply lookup_put_agree; by apply Hout.
Qed.

End Loaders.

(** * The add-city script and the updater *)

Section AddCityTheorems.
Context {R : Runtime}.

Lemma entry_numbers_entry (r : number * number) :
  entry_numbers (UpdateCityCoords.entry r) = Some r.
Proof. by destruct r. Qed.

Lemma lookup_with_coords (T : Tables) (coords : list (string * JsVal)) (k : string) :
  lookup_coords (with_coords T coords) (VStr k)
  = Ok (pair_value <$> (own coords k ≫= entry_numbers)).
Proof.
  unfold lookup_coords, get_computed.
  cbn [to_string mbind Res_bind with_coords cityCoordsFromFile get].
  destruct (own coords k) as [v|]; cbn [default from_option id mbind option_bind];
    [|apply lookup_inherited].
  destruct (truthy v) eqn:Hv; [by apply coords_of_entry_numbers|].
  unfold entry_numbers. by rewrite Hv.
Qed.

(** X11: when the table file holds a JSON object and can be written, the
    script rewrites it as the same object with the entry of [tia] set to
    the coordinates of the source: every other key keeps its value, and no
    other file changes. *)
Theorem add_city_sets_tia_only (writable : string → bool)
    (fs : gmap string string) (contents : string)
    (props : list (string * JsVal)) :
  fs !! AddCityCoordinate.CITY_COORDS_PATH = Some contents →
  JSON_parse contents = Some (VObj props) →
  writable AddCityCoordinate.CITY_COORDS_PATH = true →
  ∃ props',
    AddCityCoordinate.main writable fs
    = (<[AddCityCoordinate.CITY_COORDS_PATH := JSON_stringify (VObj props')]> fs,
       Ok ())
    ∧ own props' "tia" = Some AddCityCoordinate.tia_entry
    ∧ entry_numbers AddCityCoordinate.tia_entry = Some AddCityCoordinate.tia
    ∧ ∀ k, k ≠ "tia" → own props' k = own props k.
Proof.
  intros Hfile Hparse Hw.
  exists (UpdateCityCoords.assign props "tia" AddCityCoordinate.tia_entry).
  split; [|split; [by apply own_assign_eq; left|split; [done|]]].
  - unfold AddCityCoordinate.main, AddCityCoordinate.updated_text.
    rewrite Hfile, Hparse. cbn. by rewrite Hw.
  - intros k Hk. by apply own_assign_ne.
Qed.

(** X12: the script reports success exactly when the table file exists,
    holds JSON that is an object or an array, and can be written.  In every
    other case -- a missing file, text that is not JSON, the JSON [null] or
    a primitive, a failed write -- it reports the error and leaves every
    file as it was; in particular it never creates the table file. *)
Theorem add_city_succeeds_iff (writable : string → bool)
    (fs : gmap string string) :
  let run := AddCityCoordinate.main writable fs in
  (run.2 = Ok ()
   ↔ ∃ contents coords,
       fs !! AddCityCoordinate.CITY_COORDS_PATH = Some contents
       ∧ JSON_parse contents = Some coords
       ∧ typeof coords = TyObject ∧ coords ≠ VNull
       ∧ writable AddCityCoordinate.CITY_COORDS_PATH = true)
  ∧ (run.2 ≠ Ok () → run.1 = fs)
  ∧ (fs !! AddCityCoordinate.CITY_COORDS_PATH = None → run.1 = fs).
Proof.
  unfold AddCityCoordinate.main, AddCityCoordinate.updated_text.
  destruct (fs !! AddCityCoordinate.CITY_COORDS_PATH) as [contents|] eqn:Hfile.
  2:{ cbn. split; [|done]. split; [done|]. by intros (? & ? & [=] & _). }
  destruct (JSON_parse contents) as [coords|] eqn:Hparse.
  2:{ cbn. split; [|done]. split; [done|].
      intros (? & ? & [= <-] & Hp & _). congruence. }
  destruct (writable AddCityCoordinate.CITY_COORDS_PATH) eqn:Hw.
  - destruct coords as [| | | | | | |name];
      try destruct (String.eqb name "__proto__") eqn:Hname;
      cbn; rewrite ?Hname; cbn; (split; [|done]); split; try done;
      try (by intros (? & ? & [= <-] & Hp & Hty & Hnull & _);
           rewrite Hparse in Hp; injection Hp as <-;
           cbn in Hty; rewrite ?Hname in Hty);
      intros _; eexists _, _; repeat split; try done;
      cbn; by rewrite ?Hname.
  - destruct coords as [| | | | | | |name];
      try destruct (String.eqb name "__proto__") eqn:Hname;
      cbn; rewrite ?Hname; cbn; (split; [|done]); split; try done;
      by intros (? & ? & _ & _ & _ & _ & [=]).
Qed.

(** X13: an entry written under a non-empty key, one that is not
    [__proto__] or that the table has already, is what the resolver returns
    for a relay with that city code, whatever the relay's country and city
    name and the rest of the table: the city code is looked up first.  This
    is the use of the entry of [tia]. *)
Theorem assigned_city_code_resolves (T : Tables)
    (coords : list (string * JsVal)) (k : string) (r : number * number)
    (countryCode cityName : JsVal) :
  k ≠ EmptyString →
  k ≠ "__proto__" ∨ is_Some (own coords k) →
  resolveCoordinates
    (with_coords T (UpdateCityCoords.assign coords k (UpdateCityCoords.entry r)))
    countryCode (VStr k) cityName
  = Ok (pair_value r).
Proof.
  intros Hk Hset. unfold resolveCoordinates.
  assert (Htr : truthy (VStr k) = true).
  { cbn. by destruct (String.eqb_spec k EmptyString). }
  rewrite Htr, lookup_with_coords, own_assign_eq by done.
  cbn [mbind option_bind].
  by rewrite entry_numbers_entry.
Qed.

End AddCityTheorems.

Section CandidateTheorems.
Context {R : Runtime} {X : TextRuntime}.
Import CityLookup.

Lemma uniq_spec (candidates : list string) :
  ∀ seen : gset string,
    NoDup (toLowerCase <$> uniq seen candidates)
    ∧ (∀ c, c ∈ uniq seen candidates →
         c ∈ candidates ∧ toLowerCase c ∉ seen)
    ∧ (length (uniq seen candidates) ≤ length candidates)%nat.
Proof.
  induction candidates as [|c rest IH]; intros seen; cbn [uniq].
  { split; [constructor|]. split; [|done]. intros c Hc. by apply elem_of_nil in Hc. }
  case_bool_decide as Hseen.
  - destruct (IH seen) as (Hnd & Hin & Hlen). split; [done|]. split.
    + intros x Hx. destruct (Hin x Hx). split; [by right | done].
    + cbn. lia.
  - destruct (IH ({[toLowerCase c]} ∪ seen)) as (Hnd & Hin & Hlen).
    split; [|split].
    + rewrite fmap_cons. constructor; [|done].
      intros (x & Hx & Hxin)%list_elem_of_fmap.
      destruct (Hin x Hxin) as [_ Hnot]. apply Hnot. rewrite <- Hx.
      apply elem_of_union_l. by apply elem_of_singleton.
    + intros x [->|Hx]%elem_of_cons.
      * split; [by left | done].
      * destruct (Hin x Hx) as [? Hnot]. split; [by right|].
        intros ?. apply Hnot. by apply elem_of_union_r.
    + cbn. lia.
Qed.

Lemma append_nonempty (a b : string) : a ≠ EmptyString → a +:+ b ≠ EmptyString.
Proof. by destruct a. Qed.

Lemma nonempty_spec (s : string) : nonempty s = true ↔ s ≠ EmptyString.
Proof. unfold nonempty. by destruct (String.eqb_spec s EmptyString). Qed.

Lemma candidates_of_shape (s : string) :
  s ≠ EmptyString →
  (∃ rest, candidates_of s = s :: rest ∧ (length rest ≤ 2)%nat)
  ∧ ∀ c, c ∈ candidates_of s → c ≠ EmptyString.
Proof.
  intros Hs. unfold candidates_of.
  destruct (List.filter nonempty _) as [|first [|second parts]] eqn:Hparts.
  1,2: split; [exists []; split; [done | cbn; lia]|];
       by intros c ->%list_elem_of_singleton.
  assert (Hfirst : first ≠ EmptyString).
  { apply nonempty_spec.
    assert (Hin : In first (List.filter nonempty (String_trim <$> split_comma s)))
      by (rewrite Hparts; by left).
    by apply filter_In in Hin as [_ ?]. }
  destruct (two_letters_test second); [|destruct (two_words_test second)];
    (split; [eexists; split; [reflexivity | cbn; lia]|]);
    intros c Hc; cbn in Hc;
    repeat (apply elem_of_cons in Hc as [->|Hc]);
    try done; try (by apply append_nonempty);
    by apply elem_of_nil in Hc.
Qed.

Lemma buildCandidates_blank (rawCity : string) :
  String_trim rawCity = EmptyString → buildCandidates rawCity = [].
Proof. unfold buildCandidates. by intros ->. Qed.

Lemma buildCandidates_length (rawCity : string) :
  (length (buildCandidates rawCity) ≤ 3)%nat.
Proof.
  unfold buildCandidates.
  destruct (String.eqb_spec (String_trim rawCity) EmptyString) as [Hs|Hs];
    [cbn; lia|].
  destruct (candidates_of_shape _ Hs) as [(rest & Hrest & Hlen) _].
  destruct (uniq_spec (candidates_of (String_trim rawCity)) ∅) as (_ & _ & Hl).
  assert (length (candidates_of (String_trim rawCity)) ≤ 3)%nat
    by (rewrite Hrest; cbn [length]; lia).
  lia.
Qed.

(** X14: the candidates of a city whose name is blank after trimming are
    none; otherwise they start with the trimmed name, are at most three,
    are never the empty text, and no two of them are equal up to case. *)
Theorem buildCandidates_shape (rawCity : string) :
  let s := String_trim rawCity in
  let candidates := buildCandidates rawCity in
  (s = EmptyString → candidates = [])
  ∧ (s ≠ EmptyString →
       ∃ rest, candidates = s :: rest ∧ (length rest ≤ 2)%nat)
  ∧ (∀ c, c ∈ candidates → c ≠ EmptyString)
  ∧ NoDup (toLowerCase <$> candidates).
Proof.
  cbn zeta. unfold buildCandidates.
  destruct (String.eqb_spec (String_trim rawCity) EmptyString) as [Hs|Hs].
  { split; [done|]. split; [done|]. split; [|constructor].
    intros c Hc. by apply elem_of_nil in Hc. }
  destruct (candidates_of_shape _ Hs) as [(rest & Hrest & Hlen) Hne].
  split; [done|]. split; [|split].
  - intros _. rewrite Hrest. cbn [uniq].
    rewrite bool_decide_eq_false_2 by apply not_elem_of_empty.
    eexists. split; [reflexivity|].
    destruct (uniq_spec rest ({[toLowerCase (String_trim rawCity)]} ∪ ∅))
      as (_ & _ & Hl). lia.
  - intros c Hc. apply Hne. by apply (uniq_spec _ ∅).
  - apply uniq_spec.
Qed.

Lemma queryNominatimCandidate_Some (fetch : Query → FetchOutcome)
    (c : string) (place : Place) :
  queryNominatimCandidate fetch c = Some place →
  num_finite (lat place) = true ∧ num_finite (lon place) = true
  ∧ candidate place = c.
Proof.
  unfold queryNominatimCandidate.
  destruct (fetch _) as [|[] [[| | | | |[|entry xs]| |]|]]; try discriminate.
  destruct (get entry "lat") as [la|]; [|discriminate]. rewrite bind_Ok.
  destruct (to_string la) as [sla|]; [|discriminate]. rewrite bind_Ok.
  destruct (get entry "lon") as [lo|]; [|discriminate]. rewrite bind_Ok.
  destruct (to_string lo) as [slo|]; [|discriminate]. rewrite bind_Ok.
  destruct (num_finite (parseFloat sla)) eqn:Hla; [|discriminate].
  destruct (num_finite (parseFloat slo)) eqn:Hlo; [|discriminate].
  cbn [negb orb].
  destruct (get entry "display_name") as [d|]; [|discriminate].
  rewrite bind_Ok. intros [= <-]. done.
Qed.

Lemma try_candidates_spec (fetch : nat → Query → FetchOutcome)
    (candidates : list string) :
  ∀ n,
    let run := try_candidates fetch n candidates in
    (n ≤ run.2 ≤ n + 2 * length candidates)%nat
    ∧ match run.1 with
      | Some place =>
          num_finite (lat place) = true ∧ num_finite (lon place) = true
          ∧ candidate place ∈ candidates ∧ (n < run.2)%nat
      | None => run.2 = (n + 2 * length candidates)%nat
      end.
Proof.
  induction candidates as [|c rest IH]; intros n; cbn [try_candidates].
  { cbn. split; lia. }
  destruct (queryNominatimCandidate (fetch n) c) as [place|] eqn:H1.
  { apply queryNominatimCandidate_Some in H1 as (? & ? & <-).
    cbn. repeat split; try done; try lia. by left. }
  destruct (queryNominatimCandidate (fetch (S n)) c) as [place|] eqn:H2.
  { apply queryNominatimCandidate_Some in H2 as (? & ? & <-).
    cbn. repeat split; try done; try lia. by left. }
  destruct (IH (S (S n))) as [Hle Hres]. cbn zeta in *. cbn [length].
  split; [lia|].
  destruct (try_candidates fetch (S (S n)) rest).1 as [place|].
  - destruct Hres as (? & ? & ? & ?). repeat split; try done; [by right | lia].
  - lia.
Qed.

(** X15: a lookup makes at most two requests per candidate, hence at most
    six, and none for a blank city name.  A place it returns has finite
    coordinates and names the candidate that gave it; it returns none only
    after every candidate has failed twice. *)
Theorem findCoordsForCity_result (fetch : nat → Query → FetchOutcome)
    (city : string) :
  let candidates := buildCandidates city in
  let run := findCoordsForCity fetch city in
  (run.2 ≤ 2 * length candidates)%nat ∧ (run.2 ≤ 6)%nat
  ∧ (String_trim city = EmptyString → run = (None, 0%nat))
  ∧ match run.1 with
    | Some place =>
        num_finite (lat place) = true ∧ num_finite (lon place) = true
        ∧ candidate place ∈ candidates ∧ (1 ≤ run.2)%nat
    | None => run.2 = (2 * length candidates)%nat
    end.
Proof.
  cbn zeta. unfold findCoordsForCity.
  destruct (try_candidates_spec fetch (buildCandidates city) 0) as [Hle Hres].
  cbn zeta in *.
  pose proof (buildCandidates_length city) as Hlen.
  split; [lia|]. split; [lia|]. split.
  - intros Hs. by rewrite (buildCandidates_blank _ Hs).
  - destruct (try_candidates fetch 0 (buildCandidates city)).1 as [place|].
    + destruct Hres as (? & ? & ? & ?). repeat split; try done; lia.
    + lia.
Qed.

Lemma set_add_spec (x : string) (set : list string) :
  NoDup set →
  NoDup (set_add x set) ∧ ∀ y, y ∈ set_add x set ↔ y ∈ set ∨ y = x.
Proof.
  intros Hnd. unfold set_add. case_bool_decide as Hx.
  - split; [done|]. intros y. split; [auto|]. by intros [?| ->].
  - split.
    + apply NoDup_app. split; [done|]. split; [|apply NoDup_singleton].
      intros y Hy ->%list_elem_of_singleton. done.
    + intros y. rewrite elem_of_app, list_elem_of_singleton. done.
Qed.

Lemma names_city_cons (r : JsVal) (rest : list JsVal) (city : string) :
  names_city (r :: rest) city
  ↔ (city ≠ EmptyString ∧ truthy r = true ∧ city_of r = Ok city)
    ∨ names_city rest city.
Proof.
  unfold names_city. split.
  - intros (Hne & r' & [->|Hr']%elem_of_cons & Htr & Hc); [by left|].
    right. eauto.
  - intros [(Hne & Htr & Hc)|(Hne & r' & Hr' & Htr & Hc)];
      (split; [done|]); [exists r | exists r'];
      (split; [|done]); [by left | by right].
Qed.

Lemma gather_spec (relays : list JsVal) :
  ∀ set out,
    gather set relays = Ok out → NoDup set →
    NoDup out
    ∧ ∀ city, city ∈ out ↔ city ∈ set ∨ names_city relays city.
Proof.
  induction relays as [|r rest IH]; intros set out H Hnd; cbn [gather] in H.
  { injection H as <-. split; [done|]. intros city. split; [auto|].
    intros [?|(_ & r & Hr & _)]; [done|]. by apply elem_of_nil in Hr. }
  destruct (truthy r) eqn:Htr; cbn [negb] in H.
  2:{ destruct (IH _ _ H Hnd) as [Hout Hin]. split; [done|].
      intros city. rewrite Hin, names_city_cons. intuition congruence. }
  apply bind_Ok_inv in H as (c & Hc & H).
  destruct (nonempty c) eqn:Hne.
  - destruct (set_add_spec c set Hnd) as [Hnd' Hadd].
    destruct (IH _ _ H Hnd') as [Hout Hin]. split; [done|].
    intros city. rewrite Hin, Hadd, names_city_cons.
    apply nonempty_spec in Hne. rewrite Hc.
    split; [intros [[?| ->]|?]; auto|].
    intros [?|[(_ & _ & [= ->])|?]]; auto.
  - destruct (IH _ _ H Hnd) as [Hout Hin]. split; [done|].
    intros city. rewrite Hin, names_city_cons. rewrite Hc.
    assert (c = EmptyString) as ->.
    { unfold nonempty in Hne. by destruct (String.eqb_spec c EmptyString). }
    split; [tauto|]. intros [?|[(Hcity & _ & [= <-])|?]]; auto. done.
Qed.

Lemma gathered_names (relays : list JsVal) (names : list string) :
  gatherCityNamesFromRelays relays = Ok names →
  ∀ city, city ∈ names ↔ names_city relays city.
Proof.
  unfold gatherCityNamesFromRelays. intros H.
  apply bind_Ok_inv in H as (set & Hset & H). injection H as <-.
  destruct (gather_spec relays [] set Hset (NoDup_nil_2 (A:=string))) as [_ Hin].
  intros city. rewrite Array_sort_permutation, Hin.
  split; [|auto]. intros [Hnil|?]; [|done]. by apply elem_of_nil in Hnil.
Qed.

(** X16: the city names gathered from the relays are exactly the non-empty
    trimmed [city] texts of the truthy relays, each of them once. *)
Theorem gatherCityNames_distinct (relays : list JsVal) (names : list string) :
  gatherCityNamesFromRelays relays = Ok names →
  NoDup names ∧ ∀ city, city ∈ names ↔ names_city relays city.
Proof.
  intros H. split; [|by apply gathered_names].
  unfold gatherCityNamesFromRelays in H.
  apply bind_Ok_inv in H as (set & Hset & H). injection H as <-.
  destruct (gather_spec relays [] set Hset (NoDup_nil_2 (A:=string))) as [Hnd _].
  by rewrite Array_sort_permutation.
Qed.

End CandidateTheorems.

Section SelectionTheorems.
Context {R : Runtime} {X : TextRuntime}.
Import UpdateCityCoords.

Lemma filter_all {A : Type} (f : A → bool) (l : list A) :
  (∀ x, f x = true) → List.filter f l = l.
Proof.
  intros Hf. induction l as [|x l IH]; [done|].
  cbn. by rewrite Hf, IH.
Qed.

Lemma hasOwnProperty_false (props : list (string * JsVal)) (k : string) :
  hasOwnProperty props k = false ↔ own props k = None.
Proof. unfold hasOwnProperty. by destruct (own props k). Qed.

Lemma parse_args_no_options (argv : list string) :
  Forall (λ a, a ∉ CityLookup.options) argv →
  CityLookup.parse_args argv
  = {| CityLookup.singleCity := None;
       CityLookup.force := false; CityLookup.all := false |}.
Proof.
  intros Hno. unfold CityLookup.parse_args, CityLookup.includes.
  assert (Hflag : ∀ o, o ∈ CityLookup.options → bool_decide (o ∈ argv) = false).
  { intros o Ho. apply bool_decide_eq_false_2. intros Hin.
    rewrite Forall_forall in Hno. by apply (Hno o). }
  rewrite !Hflag by (unfold CityLookup.options; set_solver).
  f_equal. induction Hno as [|a argv Ha _ IH]; [done|].
  cbn [CityLookup.city_argument].
  destruct (String.eqb_spec a "--city") as [->|_].
  { destruct Ha. unfold CityLookup.options. set_solver. }
  destruct (String.eqb_spec a "-c") as [->|_].
  { destruct Ha. unfold CityLookup.options. set_solver. }
  apply IH. intros o Ho. specialize (Hflag o Ho).
  apply bool_decide_eq_false in Hflag. apply bool_decide_eq_false_2.
  intros Hin. apply Hflag. by right.
Qed.

Lemma select_missing (relays : list JsVal) (props : list (string * JsVal))
    (sel : CityLookup.Selection) :
  CityLookup.select
    {| CityLookup.singleCity := None;
       CityLookup.force := false; CityLookup.all := false |}
    relays (CityLookup.PlainObject props) = Ok sel →
  ∃ cities,
    sel = CityLookup.Cities cities
    ∧ ∀ city, city ∈ cities →
        CityLookup.names_city relays city
        ∧ own props city = None ∧ own props (toLowerCase city) = None.
Proof.
  unfold CityLookup.select. cbn [CityLookup.singleCity CityLookup.force
    CityLookup.all CityLookup.has_own].
  intros Hsel. apply bind_Ok_inv in Hsel as (names & Hnames & Hsel).
  injection Hsel as <-. eexists. split; [reflexivity|].
  pose proof (gathered_names _ _ Hnames) as Hgathered.
  intros city Hcity. apply list_elem_of_In, filter_In in Hcity as [Hin Hf].
  rewrite orb_false_r, andb_true_iff, !negb_true_iff in Hf.
  rewrite !hasOwnProperty_false in Hf.
  split; [|done]. by apply Hgathered, list_elem_of_In.
Qed.

(** X17: a run without options on a table that is a plain object processes
    only cities that have no entry under their name nor under its
    lowercased form, and keeps every entry the table had: it only adds. *)
Theorem default_run_keeps_entries (argv : list string)
    (fs : gmap string string) (cities : list string)
    (props : list (string * JsVal)) (env : Env) (i : nat)
    (fs' : gmap string string) :
  Forall (λ a, a ∉ CityLookup.options) argv →
  CityLookup.plan argv fs
  = CityLookup.Processes cities (CityLookup.PlainObject props) →
  (∀ city, city ∈ cities →
     own props city = None ∧ own props (toLowerCase city) = None)
  ∧ ∀ k v, own props k = Some v →
      own (process_cities env i cities props fs').1 k = Some v.
Proof.
  intros Hno Hplan. unfold CityLookup.plan in Hplan.
  rewrite (parse_args_no_options _ Hno) in Hplan.
  destruct (CityLookup.loadJson fs CityLookup.RELAYS_PATH)
    as [| | | | |[|r rest]| |]; try discriminate Hplan.
  destruct (CityLookup.select _ _ _) as [sel|e] eqn:Hsel; [|discriminate Hplan].
  assert (Hsame : CityLookup.table_of
                    (CityLookup.loadJson fs CITY_COORDS_PATH)
                  = CityLookup.PlainObject props).
  { destruct sel as [|[|c cs]]; try discriminate Hplan. by injection Hplan. }
  rewrite Hsame in Hsel.
  apply select_missing in Hsel as (cities' & -> & Hmissing).
  assert (cities' = cities) as ->.
  { destruct cities' as [|c cs]; [discriminate Hplan | by injection Hplan]. }
  assert (Hnone : ∀ city, city ∈ cities →
            own props city = None ∧ own props (toLowerCase city) = None).
  { intros city Hcity. by destruct (Hmissing city Hcity) as (_ & ? & ?). }
  split; [exact Hnone|].
  intros k v Hk. rewrite process_cities_frame; [done| |left; by exists v].
  intros Hin. apply Hnone in Hin as [Hk' _]. congruence.
Qed.

(** X18: without [--city], [--force] selects every gathered city, whatever
    the table holds: it does what [--all] does. *)
Theorem force_selects_every_city (args : CityLookup.Args)
    (relays : list JsVal) (cityCoords : CityLookup.Table) :
  CityLookup.singleCity args = None →
  CityLookup.force args = true →
  CityLookup.select args relays cityCoords
  = (names ← CityLookup.gatherCityNamesFromRelays relays;
     Ok (CityLookup.Cities names)).
Proof.
  intros Hsingle Hforce. unfold CityLookup.select.
  rewrite Hsingle, Hforce. apply bind_ext; [done|]. intros names.
  destruct (CityLookup.all args); [done|].
  rewrite filter_all; [done|]. intros city. apply orb_true_r.
Qed.

Lemma city_argument_select (argv : list string) (c : string)
    (relays : list JsVal) (cityCoords : CityLookup.Table) :
  CityLookup.city_argument argv = Some c → c ≠ EmptyString →
  CityLookup.select (CityLookup.parse_args argv) relays cityCoords
  = Ok (if CityLookup.nonempty (String_trim c)
        then CityLookup.Cities [String_trim c] else CityLookup.InvalidCity).
Proof.
  intros Harg Hc. unfold CityLookup.select, CityLookup.parse_args.
  cbn [CityLookup.singleCity]. rewrite Harg.
  apply nonempty_spec in Hc as Hne. rewrite Hne.
  unfold CityLookup.normalizeKey. cbn [truthy].
  unfold CityLookup.nonempty in Hne. rewrite Hne.
  by destruct (CityLookup.nonempty (String_trim c)).
Qed.

(** X19: with [--city NAME], the relays file must still hold a non-empty
    array, or the run exits with code 1; its contents and the other options
    play no part.  The one city processed is the trimmed name; when its
    lookup succeeds the entry under that name is set to the coordinates
    found, even if the table had one (under the name [__proto__], only if
    the table had one), and every entry under another key is kept. *)
Theorem single_city_run (argv : list string) (c : string)
    (fs : gmap string string) :
  CityLookup.city_argument argv = Some c →
  c ≠ EmptyString → String_trim c ≠ EmptyString →
  CityLookup.plan argv fs
  = match CityLookup.loadJson fs CityLookup.RELAYS_PATH with
    | VArr (_ :: _) =>
        CityLookup.Processes [String_trim c]
          (CityLookup.table_of (CityLookup.loadJson fs CITY_COORDS_PATH))
    | _ => CityLookup.Exits 1
    end
  ∧ ∀ (env : Env) (props : list (string * JsVal)) (fs' : gmap string string)
      (r : number * number),
      findCoordsForCity env 0%nat (String_trim c) = Some r →
      let after := (process_cities env 0 [String_trim c] props fs').1 in
      (String_trim c ≠ "__proto__" ∨ is_Some (own props (String_trim c)) →
       own after (String_trim c) = Some (entry r))
      ∧ ∀ k v, k ≠ String_trim c → own props k = Some v →
          own after k = Some v.
Proof.
  intros Harg Hc Htrim. split.
  - unfold CityLookup.plan.
    destruct (CityLookup.loadJson fs CityLookup.RELAYS_PATH)
      as [| | | | |[|r rest]| |]; try done.
    rewrite (city_argument_select _ _ _ _ Harg Hc).
    apply nonempty_spec in Htrim. by rewrite Htrim.
  - intros env props fs' r Hfound. cbn zeta. split.
    + intros Hset. cbn [process_cities fst]. rewrite Hfound.
      by apply record_result_exact.
    + intros k v Hk Hv.
      rewrite process_cities_frame; [done| |left; by exists v].
      by intros ->%list_elem_of_singleton.
Qed.

End SelectionTheorems.

Section LoopTheorems.
Context {R : Runtime} {X : TextRuntime}.
Import UpdateCityCoords.

Lemma own_record_result (cityCoords : list (string * JsVal)) (city k : string)
    (result : option (number * number)) (v : JsVal) :
  own (record_result cityCoords city result) k = Some v →
  own cityCoords k = Some v ∨ ∃ r, result = Some r ∧ v = entry r.
Proof.
  unfold record_result. destruct result as [r|]; [|auto].
  assert (Hstep : ∀ props k', own (assign props k' (entry r)) k = Some v →
                    own props k = Some v ∨ v = entry r).
  { intros props k' H. destruct (decide (k' = k)) as [->|Hne].
    - destruct (own props k) as [v0|] eqn:Hown.
      + rewrite own_assign_eq in H by (right; by exists v0).
        injection H as <-. auto.
      + destruct (decide (k = "__proto__")) as [->|Hk].
        * rewrite assign_proto in H by done. congruence.
        * rewrite own_assign_eq in H by by left. injection H as <-. auto.
    - rewrite own_assign_ne in H by done. auto. }
  destruct (hasOwnProperty _ _); intros H.
  - apply Hstep in H as [?| ->]; eauto.
  - apply Hstep in H as [H| ->]; [|eauto].
    apply Hstep in H as [?| ->]; eauto.
Qed.

Lemma own_process_cities (env : Env) (cities : list string) :
  ∀ (i : nat) (cityCoords : list (string * JsVal)) (fs : gmap string string)
    (k : string) (v : JsVal),
    own (process_cities env i cities cityCoords fs).1 k = Some v →
    own cityCoords k = Some v
    ∨ ∃ j city r, findCoordsForCity env j city = Some r ∧ v = entry r.
Proof.
  induction cities as [|city rest IH]; intros i cityCoords fs k v H; [auto|].
  cbn [process_cities] in H. apply IH in H as [H|H]; [|auto].
  apply own_record_result in H as [?|(r & Hr & ->)]; [auto|].
  right. eauto.
Qed.

(** X20: an entry of the table after a run of the update loop is an entry
    the table had before, or a pair of finite numbers: a lookup whose
    answer does not parse to finite numbers writes nothing. *)
Theorem update_writes_finite_pairs
    (services : nat → nat → CityLookup.Query → FetchOutcome)
    (debug : nat → string → string) (writable : string → bool) (i : nat)
    (cities : list string)
    (cityCoords : list (string * JsVal)) (fs : gmap string string)
    (k : string) (v : JsVal) :
  own (process_cities (CityLookup.lookups services debug writable) i cities
         cityCoords fs).1 k = Some v →
  own cityCoords k = Some v
  ∨ ∃ lat lon,
      v = VObj [("lat", VNum lat); ("lon", VNum lon)]
      ∧ num_finite lat = true ∧ num_finite lon = true.
Proof.
  intros H. apply own_process_cities in H as [?|(j & city & r & Hr & ->)]; [auto|].
  right. cbn [CityLookup.lookups findCoordsForCity] in Hr.
  pose proof (try_candidates_spec (services j)
                (CityLookup.buildCandidates city) 0) as [_ Hres].
  cbn zeta in Hres. unfold CityLookup.findCoordsForCity in Hr.
  destruct (CityLookup.try_candidates _ _ _).1 as [place|]; [|discriminate].
  injection Hr as <-. destruct Hres as (Hla & Hlo & _).
  exists (CityLookup.lat place), (CityLookup.lon place). done.
Qed.

Lemma append_assoc (a b c : string) : (a +:+ b) +:+ c = a +:+ (b +:+ c).
Proof.
  induction a as [|x a IH]; [done|].
  change (String x ((a +:+ b) +:+ c) = String x (a +:+ (b +:+ c))).
  by rewrite IH.
Qed.

(** What one round of the loop does to the files. *)
Lemma round_files (env : Env) (entries : string) (cc : list (string * JsVal))
    (fs : gmap string string) :
  let fs' :=
    match saveJson env CITY_COORDS_PATH (VObj cc) (logDebug env entries fs) with
    | Ok fs' => fs'
    | Threw _ => logDebug env entries fs
    end in
  (∀ p, p ≠ CITY_COORDS_PATH → p ≠ DEBUG_LOG_PATH → fs' !! p = fs !! p)
  ∧ fs' !! CITY_COORDS_PATH
    = (if writable env CITY_COORDS_PATH
       then Some (JSON_stringify (VObj cc) +:+ newline)
       else fs !! CITY_COORDS_PATH)
  ∧ fs' !! DEBUG_LOG_PATH
    = (if writable env DEBUG_LOG_PATH
       then Some (default EmptyString (fs !! DEBUG_LOG_PATH) +:+ entries)
       else fs !! DEBUG_LOG_PATH).
Proof.
  unfold saveJson, logDebug.
  destruct (writable env CITY_COORDS_PATH), (writable env DEBUG_LOG_PATH);
    cbn zeta; repeat split; try done;
    try (intros p Hp1 Hp2);
    rewrite ?lookup_insert_eq, ?lookup_insert_ne by done;
    rewrite ?lookup_insert_eq, ?lookup_insert_ne by done; done.
Qed.

(** X21: the update loop writes the table file and the debug log, and no
    other file.  When the table file can be written and at least one city
    is processed, it ends as the text of the table the loop ends with,
    followed by a newline; when it cannot be written, it is left as it
    was.  The debug log is appended to when it can be written, and left as
    it was when it cannot. *)
Theorem table_file_follows_table (env : Env) (cities : list string) :
  ∀ (i : nat) (cityCoords : list (string * JsVal)) (fs : gmap string string),
    let run := process_cities env i cities cityCoords fs in
    (∀ p, p ≠ CITY_COORDS_PATH → p ≠ DEBUG_LOG_PATH → run.2 !! p = fs !! p)
    ∧ (writable env CITY_COORDS_PATH = true → cities ≠ [] →
         run.2 !! CITY_COORDS_PATH
         = Some (JSON_stringify (VObj run.1) +:+ newline))
    ∧ (writable env CITY_COORDS_PATH = false →
         run.2 !! CITY_COORDS_PATH = fs !! CITY_COORDS_PATH)
    ∧ (writable env DEBUG_LOG_PATH = true → cities ≠ [] →
         ∃ entries,
           run.2 !! DEBUG_LOG_PATH
           = Some (default EmptyString (fs !! DEBUG_LOG_PATH) +:+ entries))
    ∧ (writable env DEBUG_LOG_PATH = false →
         run.2 !! DEBUG_LOG_PATH = fs !! DEBUG_LOG_PATH).
Proof.
  induction cities as [|city rest IH]; intros i cityCoords fs; cbn zeta.
  { cbn. done. }
  cbn [process_cities].
  set (cc := record_result cityCoords city (findCoordsForCity env i city)).
  destruct (round_files env (debug_entries env i city) cc fs)
    as (Hframe1 & Htable1 & Hlog1).
  cbn zeta in Hframe1, Htable1, Hlog1.
  set (fs1 := match saveJson env CITY_COORDS_PATH (VObj cc) _ with
              | Ok fs' => fs'
              | Threw _ => _
              end) in *.
  destruct (IH (S i) cc fs1) as (Hframe & Htable & Hkeep & Hlog & Hnolog).
  cbn zeta in Hframe, Htable, Hkeep, Hlog, Hnolog.
  split; [|split; [|split; [|split]]].
  - intros p Hp1 Hp2. rewrite Hframe by done. by apply Hframe1.
  - intros Hw _. destruct rest as [|city' rest'].
    + cbn [process_cities fst snd]. by rewrite Htable1, Hw.
    + by apply Htable.
  - intros Hw. rewrite Hkeep by done. by rewrite Htable1, Hw.
  - intros Hw _. destruct rest as [|city' rest'].
    + cbn [process_cities snd]. rewrite Hlog1, Hw. by eexists.
    + destruct (Hlog Hw) as [entries Hentries]; [done|].
      rewrite Hentries, Hlog1, Hw. cbn [default from_option id].
      rewrite append_assoc. by eexists.
  - intros Hw. rewrite Hnolog by done. by rewrite Hlog1, Hw.
Qed.

Lemma process_cities_own_result (env : Env) (cities : list string) :
  ∀ (i j : nat) (cityCoords : list (string * JsVal)) (fs : gmap string string)
    (city : string) (r : number * number),
    NoDup cities → cities !! j = Some city →
    city ≠ "__proto__" →
    findCoordsForCity env (i + j) city = Some r →
    own (process_cities env i cities cityCoords fs).1 city = Some (entry r).
Proof.
  induction cities as [|c rest IH];
    intros i j cityCoords fs city r Hnd Hj Hcity Hr; [done|].
  apply NoDup_cons in Hnd as [Hc Hnd]. cbn [process_cities].
  destruct j as [|j]; cbn in Hj.
  - injection Hj as ->. rewrite Nat.add_0_r in Hr. rewrite Hr.
    rewrite process_cities_frame;
      [apply record_result_exact; by left | done |].
    left. rewrite record_result_exact by by left. by eexists.
  - apply (IH (S i) j); [done | done | done |].
    by replace (S i + j)%nat with (i + S j)%nat by lia.
Qed.

(** X22: in a run over distinct cities, each city whose lookup succeeds,
    and whose name is not [__proto__], ends with the coordinates found for
    it under its exact name, whatever the other cities of the run did. *)
Theorem update_records_each_result (env : Env) (cities : list string)
    (i j : nat) (cityCoords : list (string * JsVal)) (fs : gmap string string)
    (city : string) (r : number * number) :
  NoDup cities → cities !! j = Some city →
  city ≠ "__proto__" →
  findCoordsForCity env (i + j) city = Some r →
  own (process_cities env i cities cityCoords fs).1 city = Some (entry r)
  ∧ entry_numbers (entry r) = Some r.
Proof.
  intros Hnd Hj Hcity Hr. split; [by eapply process_cities_own_result|].
  apply entry_numbers_entry.
Qed.

(** X23: after the loop has recorded coordinates for a city whose name is
    not [__proto__], the resolver gives a relay of that city name and no
    city code those coordinates, with one exception: an entry under the
    lowercased name that was there before, is numeric and differs from the
    name keeps its place and is what the resolver returns, the refreshed
    entry being shadowed. *)
Theorem refreshed_city_resolves (T : Tables)
    (cityCoords : list (string * JsVal)) (city : string) (r : number * number)
    (countryCode cityCode : JsVal) :
  city ≠ EmptyString → city ≠ "__proto__" → truthy cityCode = false →
  resolveCoordinates (with_coords T (record_result cityCoords city (Some r)))
    countryCode cityCode (VStr city)
  = Ok (pair_value
          (if decide (toLowerCase city = city) then r
           else default r (own cityCoords (toLowerCase city) ≫= entry_numbers))).
Proof.
  intros Hcity Hproto Hcode. unfold resolveCoordinates. rewrite Hcode.
  assert (Htr : truthy (VStr city) = true).
  { cbn. by destruct (String.eqb_spec city EmptyString). }
  rewrite Htr. cbn [call_toLowerCase]. rewrite !bind_Ok, !lookup_with_coords.
  rewrite record_result_exact by by left.
  unfold record_result, hasOwnProperty.
  destruct (decide (toLowerCase city = city)) as [Heq|Hne].
  { rewrite Heq, !own_assign_eq by by left. cbn [mbind option_bind].
    rewrite !entry_numbers_entry. reflexivity. }
  rewrite (own_assign_ne cityCoords city (toLowerCase city)) by congruence.
  destruct (own cityCoords (toLowerCase city)) as [v|] eqn:Hl.
  - rewrite (own_assign_ne cityCoords city (toLowerCase city)) by congruence.
    rewrite Hl. cbn [mbind option_bind].
    rewrite entry_numbers_entry.
    destruct (entry_numbers v) as [old|]; reflexivity.
  - destruct (own (assign (assign cityCoords city (entry r))
                     (toLowerCase city) (entry r)) (toLowerCase city))
      as [v|] eqn:Hlow; cbn [mbind option_bind default from_option id fmap
                            option_fmap option_map];
      [|by rewrite entry_numbers_entry].
    assert (v = entry r) as ->.
    { destruct (decide (toLowerCase city = "__proto__")) as [Hp|Hp].
      - rewrite Hp in Hlow. rewrite assign_proto in Hlow.
        + rewrite own_assign_ne in Hlow by congruence.
          rewrite <- Hp in Hlow. congruence.
        + rewrite own_assign_ne by congruence. rewrite <- Hp. done.
      - rewrite own_assign_eq in Hlow by by left. congruence. }
    by rewrite !entry_numbers_entry.
Qed.

Lemma first_match_assign (table : list (string * JsVal)) (k : string)
    (r : number * number) (keys : list string) :
  is_Some (first_match table keys) →
  is_Some (first_match (assign table k (entry r)) keys).
Proof.
  induction keys as [|k0 keys IH]; cbn [first_match]; [done|].
  destruct (decide (k = k0)) as [->|Hne].
  - destruct (own table k0) as [v|] eqn:Hown.
    + rewrite own_assign_eq by (right; by exists v). cbn [mbind option_bind].
      by rewrite entry_numbers_entry.
    + destruct (decide (k0 = "__proto__")) as [->|Hk].
      * rewrite assign_proto by done. by rewrite Hown.
      * rewrite own_assign_eq by by left. cbn [mbind option_bind].
        by rewrite entry_numbers_entry.
  - rewrite own_assign_ne by done.
    destruct (own table k0 ≫= entry_numbers); [done | exact IH].
Qed.

Lemma first_match_process_cities (env : Env) (cities : list string)
    (keys : list string) :
  ∀ (i : nat) (table : list (string * JsVal)) (fs : gmap string string),
    is_Some (first_match table keys) →
    is_Some (first_match (process_cities env i cities table fs).1 keys).
Proof.
  induction cities as [|city rest IH]; intros i table fs H; [done|].
  cbn [process_cities]. apply IH. unfold record_result.
  destruct (findCoordsForCity env i city) as [r|]; [|done].
  destruct (hasOwnProperty _ _); repeat apply first_match_assign; done.
Qed.

(** X24: a run of the update loop never costs a relay its coordinates: a
    relay the resolver resolves with the table before the run is resolved
    with the table after it, whatever the lookups answered. *)
Theorem update_keeps_relays_resolved (env : Env) (i : nat)
    (cities : list string) (table : list (string * JsVal))
    (fs : gmap string string) (countries : list (string * string))
    (countryCode cityCode cityName : option string) :
  let resolve t :=
    resolveCoordinates (source_tables (VObj t) (VObj (str_table countries)))
      (arg countryCode) (arg cityCode) (arg cityName) in
  resolve table ≠ Ok VNull →
  resolve (process_cities env i cities table fs).1 ≠ Ok VNull.
Proof.
  cbn zeta.
  pose proof (resolveCoordinates_tried table countries cityCodeToCityName_src
                countryCodeToName_src countryCentroids_src
                countryCode cityCode cityName) as H1.
  pose proof (resolveCoordinates_tried
                (process_cities env i cities table fs).1 countries
                cityCodeToCityName_src countryCodeToName_src
                countryCentroids_src countryCode cityCode cityName) as H2.
  unfold typed_tables in H1, H2. unfold source_tables. rewrite H1, H2.
  clear H1 H2.
  pose proof (first_match_process_cities env cities
                (tried_keys cityCodeToCityName_src cityCode cityName)
                i table fs) as Hkeep.
  destruct (first_match table _) as [[lat lon]|].
  - intros _. destruct Hkeep as [[lat' lon'] ->]; [by eexists | done].
  - destruct (first_match (process_cities env i cities table fs).1 _)
      as [[lat' lon']|]; done.
Qed.

End LoopTheorems.

(** ** Examples *)

Lemma ingest_writes_only_its_outputs_witness :
  files (@ingest example_runtime (answering (VArr [gb_lon_wg_001]))
           (world_of COUNTRIES_PATH VNull)).1 !! COUNTRIES_PATH
  = files (world_of COUNTRIES_PATH VNull) !! COUNTRIES_PATH.
Proof.
  apply (proj1 (@ingest_writes_only_its_outputs example_runtime
                  (answering (VArr [gb_lon_wg_001]))
                  (world_of COUNTRIES_PATH VNull))).
  intros Hin. unfold written_paths in Hin.
  repeat (apply elem_of_cons in Hin as [Hin|Hin]; [discriminate Hin|]).
  by apply elem_of_nil in Hin.
Defined.

Lemma raw_cache_holds_response_witness :
  files (@ingest example_runtime
           (answering (VArr [VObj [("country_code", VNum five)]]))
           empty_world).1 !! RAW_API_PATH
  = Some (show_json (VArr [VObj [("country_code", VNum five)]])).
Proof.
  apply (@raw_cache_holds_response example_runtime
           (answering (VArr [VObj [("country_code", VNum five)]])) empty_world
           [VObj [("country_code", VNum five)]] RAW_API_PATH).
  - reflexivity.
  - by left.
  - reflexivity.
Defined.

Lemma ingest_schema_typed_response_witness :
  (@ingest example_runtime (answering (VArr [gb_lon_wg_001])) empty_world).2
  = Returned
  ∧ ∀ p, p ∈ output_paths →
      writable (answering (VArr [gb_lon_wg_001])) p = true →
      files (@ingest example_runtime (answering (VArr [gb_lon_wg_001]))
               empty_world).1 !! p
      = Some (show_json (VArr [gb_lon_wg_001_relay])).
Proof.
  apply (@ingest_schema_typed_response example_runtime
           (answering (VArr [gb_lon_wg_001])) empty_world [] []
           [[("hostname", VStr "gb-lon-wg-001"); ("country_code", VStr "gb");
             ("type", VStr "wireguard"); ("owned", VBool true)]]).
  - reflexivity.
  - reflexivity.
  - reflexivity.
  - intros c name H. discriminate H.
  - constructor; [|constructor]. repeat split; reflexivity.
Defined.

Lemma unresolved_iff_no_entry_and_no_centroid_witness :
  @resolveCoordinates example_runtime (source_tables (VObj []) (VObj []))
    (VStr "SE") VUndefined (VStr "Stockholm")
  = Ok VNull.
Proof.
  apply (proj2 (@unresolved_iff_no_entry_and_no_centroid example_runtime []
                  (Some "SE") None (Some "Stockholm")
                  ltac:(intros code H; discriminate H)
                  ltac:(intros code H; injection H as <-; reflexivity))).
  split; [reflexivity|].
  intros code [= <-] Hin. unfold centroid_codes in Hin.
  repeat (apply elem_of_cons in Hin as [Hin|Hin]; [discriminate Hin|]).
  by apply elem_of_nil in Hin.
Defined.

Lemma normalize_guarantees_witness :
  ∃ id country code city lat lon ownership protocols active,
    gb_lon_wg_001_relay
    = VObj [ ("id", id); ("country", country);
             ("countryCode", VStr code); ("city", city);
             ("lat", lat); ("lon", lon);
             ("ownership", VStr ownership);
             ("protocols", VArr protocols);
             ("active", VBool active) ]
    ∧ truthy country = true
    ∧ code ≠ EmptyString
    ∧ (city = VStr EmptyString ∨ truthy city = true)
    ∧ (lat = VNull ∧ lon = VNull
       ∨ is_number lat = true ∧ is_number lon = true)
    ∧ (ownership = "Mullvad" ∨ ownership = "Rented")
    ∧ (protocols = [] ∨ protocols = [VStr "WireGuard"]
       ∨ protocols = [VStr "OpenVPN"]).
Proof.
  apply (@normalize_guarantees example_runtime
           (source_tables (VObj []) (VObj [])) gb_lon_wg_001).
  reflexivity.
Defined.

Lemma second_pass_changes_nothing_witness :
  List.filter truthy [gb_lon_wg_001_relay] = [gb_lon_wg_001_relay]
  ∧ mapM (@finalize example_runtime (source_tables (VObj []) (VObj [])))
      [gb_lon_wg_001_relay]
    = Ok [gb_lon_wg_001_relay].
Proof.
  apply (@second_pass_changes_nothing example_runtime
           (source_tables (VObj []) (VObj [])) [gb_lon_wg_001]).
  reflexivity.
Defined.

Lemma provider_heuristic_is_substring_match_witness :
  (@get example_runtime provider_relay "ownership" = Ok (VStr "Mullvad")
   ↔ contains_ci "mullvad" "Mullvad VPN AB")
  ∧ (@get example_runtime provider_relay "ownership" = Ok (VStr "Rented")
     ↔ ¬ contains_ci "mullvad" "Mullvad VPN AB").
Proof.
  apply (@provider_heuristic_is_substring_match example_runtime
           (source_tables (VObj []) (VObj [])) provider_record).
  - reflexivity.
  - intros b. discriminate.
  - reflexivity.
Defined.

Lemma null_city_table_aborts_witness :
  (@ingest (reading [VNull]) (answering (VArr [lon_record]))
     (world_of CITY_COORDS_PATH VNull)).2 = Exited 1
  ∧ ∀ p, p ∈ output_paths →
      files (@ingest (reading [VNull]) (answering (VArr [lon_record]))
               (world_of CITY_COORDS_PATH VNull)).1 !! p
      = files (world_of CITY_COORDS_PATH VNull) !! p.
Proof.
  apply (@null_city_table_aborts (reading [VNull])
           (answering (VArr [lon_record])) (world_of CITY_COORDS_PATH VNull)
           [lon_record] lon_record (VStr "lon")).
  - reflexivity.
  - reflexivity.
  - by left.
  - reflexivity.
  - reflexivity.
Defined.

Lemma country_name_never_fails_witness :
  ∃ name,
    @getCountryNameFromCode example_runtime
      (source_tables (VObj [])
         (@loadCountries example_runtime (world_of COUNTRIES_PATH VNull)))
      (VStr "se")
    = Ok name
    ∧ truthy name = true.
Proof.
  apply (@country_name_never_fails example_runtime
           (world_of COUNTRIES_PATH VNull) (VObj []) (VStr "se") "se").
  reflexivity.
Defined.

Lemma tools_table_shadows_root_witness :
  (@ingest (reading [VObj []]) (answering (VArr [lon_record]))
     {| files := <[ROOT_CITY_COORDS_PATH := "null"]>
                   (files (world_of CITY_COORDS_PATH (VObj [])));
        console := console (world_of CITY_COORDS_PATH (VObj [])) |}).2
  = (@ingest (reading [VObj []]) (answering (VArr [lon_record]))
       (world_of CITY_COORDS_PATH (VObj []))).2.
Proof.
  apply (@tools_table_shadows_root (reading [VObj []])
           (answering (VArr [lon_record]))
           (world_of CITY_COORDS_PATH (VObj [])) (VObj []) "null").
  reflexivity.
Defined.

Lemma add_city_sets_tia_only_witness :
  ∃ props',
    @AddCityCoordinate.main (reading [VObj []]) (λ _, true)
      (files (world_of AddCityCoordinate.CITY_COORDS_PATH (VObj [])))
    = (<[AddCityCoordinate.CITY_COORDS_PATH := show_json (VObj props')]>
         (files (world_of AddCityCoordinate.CITY_COORDS_PATH (VObj []))),
       Ok ())
    ∧ own props' "tia" = Some AddCityCoordinate.tia_entry
    ∧ @entry_numbers (reading [VObj []]) AddCityCoordinate.tia_entry
      = Some AddCityCoordinate.tia
    ∧ ∀ k, k ≠ "tia" → own props' k = own [] k.
Proof.
  apply (@add_city_sets_tia_only (reading [VObj []]) (λ _, true)
           (files (world_of AddCityCoordinate.CITY_COORDS_PATH (VObj [])))
           (show_json (VObj [])) []).
  - reflexivity.
  - reflexivity.
  - reflexivity.
Defined.

Lemma add_city_succeeds_iff_witness :
  (@AddCityCoordinate.main example_runtime (λ _, true) ∅).1 = ∅.
Proof.
  apply (proj2 (proj2 (@add_city_succeeds_iff example_runtime (λ _, true) ∅))).
  reflexivity.
Defined.

Lemma assigned_city_code_resolves_witness :
  @resolveCoordinates example_runtime
    (with_coords (source_tables (VObj []) (VObj []))
       (UpdateCityCoords.assign [] "tia"
          (@UpdateCityCoords.entry example_runtime AddCityCoordinate.tia)))
    (VStr "AL") (VStr "tia") (VStr "Tirana")
  = Ok (pair_value AddCityCoordinate.tia).
Proof.
  apply (@assigned_city_code_resolves example_runtime
           (source_tables (VObj []) (VObj [])) [] "tia" AddCityCoordinate.tia
           (VStr "AL") (VStr "Tirana")).
  - discriminate.
  - left. discriminate.
Defined.

Lemma buildCandidates_shape_witness :
  ∃ rest,
    @CityLookup.buildCandidates example_runtime example_text " San Jose, CA"
    = "San Jose, CA" :: rest
    ∧ (length rest ≤ 2)%nat.
Proof.
  apply (proj1 (proj2 (@buildCandidates_shape example_runtime example_text
                         " San Jose, CA"))).
  discriminate.
Defined.

Lemma findCoordsForCity_result_witness :
  @CityLookup.findCoordsForCity example_runtime example_text
    (answers "5" "12") " "
  = (None, 0%nat).
Proof.
  apply (proj1 (proj2 (proj2 (@findCoordsForCity_result example_runtime
                                example_text (answers "5" "12") " ")))).
  reflexivity.
Defined.

Lemma gatherCityNames_distinct_witness :
  NoDup ["Bern"; "Oslo"]
  ∧ ∀ city, city ∈ ["Bern"; "Oslo"]
      ↔ @CityLookup.names_city example_runtime example_text
          [VObj [("city", VStr "Oslo")]; VNull; VObj [("city", VStr "Bern ")];
           VObj [("city", VStr "Oslo")]; VObj []] city.
Proof.
  apply (@gatherCityNames_distinct example_runtime example_text
           [VObj [("city", VStr "Oslo")]; VNull; VObj [("city", VStr "Bern ")];
            VObj [("city", VStr "Oslo")]; VObj []]).
  vm_compute. reflexivity.
Defined.

Lemma default_run_keeps_entries_witness :
  (∀ city, city ∈ ["Oslo"] →
     own [("Bern", VNull)] city = None
     ∧ own [("Bern", VNull)] (map_ascii ascii_lower city) = None)
  ∧ ∀ k v, own [("Bern", VNull)] k = Some v →
      own (@UpdateCityCoords.process_cities (reading [oslo_relays; VObj [("Bern", VNull)]])
             (one_place (five, twelve)) 0 ["Oslo"] [("Bern", VNull)] ∅).1 k
      = Some v.
Proof.
  apply (@default_run_keeps_entries
           (reading [oslo_relays; VObj [("Bern", VNull)]]) example_text []
           (<[UpdateCityCoords.CITY_COORDS_PATH := show_json (VObj [("Bern", VNull)])]>
              (files (world_of CityLookup.RELAYS_PATH oslo_relays)))
           ["Oslo"] [("Bern", VNull)] (one_place (five, twelve)) 0 ∅).
  - constructor.
  - vm_compute. reflexivity.
Defined.

Lemma force_selects_every_city_witness :
  @CityLookup.select example_runtime example_text
    {| CityLookup.singleCity := None; CityLookup.force := true;
       CityLookup.all := false |}
    [VObj [("city", VStr "Oslo")]] (CityLookup.PlainObject [("Oslo", VNull)])
  = Ok (CityLookup.Cities ["Oslo"]).
Proof.
  apply (@force_selects_every_city example_runtime example_text
           {| CityLookup.singleCity := None; CityLookup.force := true;
              CityLookup.all := false |}
           [VObj [("city", VStr "Oslo")]]
           (CityLookup.PlainObject [("Oslo", VNull)]));
    reflexivity.
Defined.

Lemma single_city_run_witness :
  @CityLookup.plan (reading [oslo_relays]) example_text ["--city"; " Bern "]
    (files (world_of CityLookup.RELAYS_PATH oslo_relays))
  = CityLookup.Processes ["Bern"] (CityLookup.PlainObject []).
Proof.
  apply (proj1 (@single_city_run (reading [oslo_relays]) example_text
                  ["--city"; " Bern "] " Bern "
                  (files (world_of CityLookup.RELAYS_PATH oslo_relays))
                  eq_refl ltac:(discriminate) ltac:(discriminate))).
Defined.

Lemma update_writes_finite_pairs_witness :
  own [] "Oslo" = Some (VObj [("lat", VNum five); ("lon", VNum twelve)])
  ∨ ∃ lat lon,
      VObj [("lat", VNum five); ("lon", VNum twelve)]
      = VObj [("lat", VNum lat); ("lon", VNum lon)]
      ∧ num_finite lat = true ∧ num_finite lon = true.
Proof.
  apply (@update_writes_finite_pairs example_runtime example_text
           (λ _, answers "5" "12") (λ _ city, city) (λ _, true) 0 ["Oslo"] []
           ∅ "Oslo").
  vm_compute. reflexivity.
Defined.

Lemma table_file_follows_table_witness :
  (@UpdateCityCoords.process_cities example_runtime (one_place (five, twelve))
     0 ["Oslo"] [] ∅).2 !! UpdateCityCoords.CITY_COORDS_PATH
  = Some (show_json
            (VObj (@UpdateCityCoords.process_cities example_runtime
                     (one_place (five, twelve)) 0 ["Oslo"] [] ∅).1)
          +:+ UpdateCityCoords.newline).
Proof.
  apply (proj1 (proj2 (@table_file_follows_table example_runtime
                         (one_place (five, twelve)) ["Oslo"] 0 [] ∅))).
  - reflexivity.
  - discriminate.
Defined.

Lemma update_records_each_result_witness :
  own (@UpdateCityCoords.process_cities example_runtime
         (one_place (five, twelve)) 0 ["Bern"; "Oslo"] [] ∅).1 "Oslo"
  = Some (@UpdateCityCoords.entry example_runtime (five, twelve))
  ∧ @entry_numbers example_runtime
      (@UpdateCityCoords.entry example_runtime (five, twelve))
    = Some (five, twelve).
Proof.
  apply (@update_records_each_result example_runtime
           (one_place (five, twelve)) ["Bern"; "Oslo"] 0 1 [] ∅ "Oslo"
           (five, twelve)).
  - repeat constructor; intros Hin;
      repeat (apply elem_of_cons in Hin as [Hin|Hin]; [discriminate Hin|]);
      by apply elem_of_nil in Hin.
  - reflexivity.
  - discriminate.
  - reflexivity.
Defined.

Lemma refreshed_city_resolves_witness :
  @resolveCoordinates example_runtime
    (with_coords (source_tables (VObj []) (VObj []))
       (@UpdateCityCoords.record_result example_runtime
          [("oslo", VObj [("lat", VNum twelve); ("lon", VNum twelve)])]
          "Oslo" (Some (five, five))))
    (VStr "NO") VUndefined (VStr "Oslo")
  = Ok (pair_value (twelve, twelve)).
Proof.
  apply (@refreshed_city_resolves example_runtime
           (source_tables (VObj []) (VObj []))
           [("oslo", VObj [("lat", VNum twelve); ("lon", VNum twelve)])]
           "Oslo" (five, five) (VStr "NO") VUndefined).
  - discriminate.
  - discriminate.
  - reflexivity.
Defined.

Lemma update_keeps_relays_resolved_witness :
  @resolveCoordinates example_runtime
    (source_tables
       (VObj (@UpdateCityCoords.process_cities example_runtime
                (one_place (five, twelve)) 0 ["Oslo"] [] ∅).1)
       (VObj (str_table [])))
    (VStr "GB") VUndefined (VStr "London")
  ≠ Ok VNull.
Proof.
  apply (@update_keeps_relays_resolved example_runtime
           (one_place (five, twelve)) 0 ["Oslo"] [] ∅ []
           (Some "GB") None (Some "London")).
  discriminate.
Defined.
